(** * The dungeon characters: a shallow embedding of wizard.c, barbarian.c,
    rogue.c and game.c, and the properties of their protocol.

    Conventions.
    - A C [char] buffer is a [list Z] of raw bytes (0..255).  Reading a byte
      through the type [char] gives [char_val]: whether [char] is signed is
      left to the implementation by the C standard, so it is a parameter
      ([char_signed]) of everything that reads characters.
    - [int] arithmetic of the sources never leaves a few hundred in absolute
      value, so it is written on [Z]; [%] is C's truncating remainder
      ([Z.rem]).
    - Pointers the sources test against NULL are always valid where the
      sources call the functions; buffers are passed by value and returned.
    - Values the sources read from the shared memory block can change between
      two reads, because other processes write to it; loops that poll the
      block take the other processes' writes as an explicit environment.
    - The headers dungeon_info.h and dungeon_settings.h are not among the
      sources: the fields of [struct Dungeon] are those the sources access,
      and the macros are parameters.

    The first part of the file holds the embedding (modules [CString],
    [Wizard], [Shared], [Barbarian], [CFloat], [Rogue], [Scenarios],
    [Levers], [WizardHandler], [Posix], [Game], [Workers]); the second part
    the properties ([WizardSpec], [BarbarianSpec], [FloatSpec], [RogueSpec],
    [LeversSpec], [WizardMore], [RogueMore], [LeversMore], [GameSpec],
    [WorkersSpec]). *)

From Stdlib Require Import ZArith List Bool Lia String Ascii.
From Stdlib Require Import QArith Qabs Qpower Lqa.
From Stdlib Require Import Floats.SpecFloat.
Import ListNotations.
Local Open Scope Z_scope.

(* ===================================================================== *)
(** * C characters and strings *)
(* ===================================================================== *)

Module CString.

(** The value of a raw byte read through the type [char]. *)
Definition char_val (char_signed : bool) (b : Z) : Z :=
  if char_signed && (128 <=? b) then b - 256 else b.

(** The byte stored when an [int] is assigned to a [char]. *)
Definition store_char (v : Z) : Z := v mod 256.

(** <ctype.h> in the "C" locale (the programs never call setlocale). *)
Definition isupper (c : Z) : bool := (65 <=? c) && (c <=? 90).
Definition islower (c : Z) : bool := (97 <=? c) && (c <=? 122).
Definition isalpha (c : Z) : bool := isupper c || islower c.

(** [strlen]: the number of bytes before the first NUL.  A buffer is read up
    to its end when it holds no NUL (the sources always terminate theirs). *)
Fixpoint strlen (s : list Z) : nat :=
  match s with
  | [] => O
  | b :: s' => if b =? 0 then O else S (strlen s')
  end.

(** The string a buffer holds: its bytes before the first NUL. *)
Definition c_string (s : list Z) : list Z := firstn (strlen s) s.

(** [buf[i] = v]; a write past the end of the buffer is left out. *)
Fixpoint store (buf : list Z) (i : nat) (v : Z) : list Z :=
  match buf, i with
  | [], _ => []
  | _ :: buf', O => v :: buf'
  | b :: buf', S i' => b :: store buf' i' v
  end.

(** [memset(buf, v, n)]. *)
Definition memset (buf : list Z) (v : Z) (n : nat) : list Z :=
  repeat v (Nat.min n (List.length buf)) ++ skipn n buf.

(** The bytes of a string literal. *)
Definition bytes (s : string) : list Z :=
  map (fun a => Z.of_N (N_of_ascii a)) (list_ascii_of_string s).

(** A byte sequence: every element is in 0..255. *)
Definition is_bytes (l : list Z) : Prop := Forall (fun b => 0 <= b < 256) l.

(** A byte sequence without NUL: what a C string can carry. *)
Definition no_nul (l : list Z) : Prop := Forall (fun b => 0 < b < 256) l.

End CString.

(* ===================================================================== *)
(** * wizard.c: the spell decoder *)
(* ===================================================================== *)

Module Wizard.
Import CString.

(** The body of the [for] loop of [decode_caesar_cipher] for one character
    [c] (already read through [char]): the [int] assigned to
    [decoded[decoded_index]]. *)
Definition decode_char (key c : Z) : Z :=
  if isalpha c then
    let base := if islower c then 97 else 65 in
    base + Z.rem (c - base - Z.rem key 26 + 26) 26
  else c.

(** The [for] loop of [decode_caesar_cipher].  [rest] holds
    [encoded[i .. encoded_len-1]]: the loop ends when it is used up
    ([i < encoded_len] fails) or when the output is full
    ([decoded_index < max_len - 1] fails). *)
Fixpoint decode_loop (char_signed : bool) (key max_len : Z) (rest : list Z)
    (decoded : list Z) (decoded_index : nat) : list Z * nat :=
  match rest with
  | [] => (decoded, decoded_index)
  | b :: rest' =>
      if Z.of_nat decoded_index <? max_len - 1 then
        let c := char_val char_signed b in
        decode_loop char_signed key max_len rest'
          (store decoded decoded_index (store_char (decode_char key c)))
          (S decoded_index)
      else (decoded, decoded_index)
  end.

(** [decode_caesar_cipher(encoded, decoded, max_len)]: the contents of
    [decoded] when the function returns. *)
Definition decode_caesar_cipher (char_signed : bool)
    (encoded decoded : list Z) (max_len : Z) : list Z :=
  if max_len <=? 0 then decoded
  else
    let decoded := memset decoded 0 (Z.to_nat max_len) in
    let encoded_len := strlen encoded in
    if (0 <? encoded_len)%nat then
      let key := char_val char_signed (nth 0 encoded 0) in
      let '(decoded, decoded_index) :=
        decode_loop char_signed key max_len
          (skipn 1 (firstn encoded_len encoded)) decoded O in
      store decoded decoded_index 0
    else store decoded 0 0.

(** The decoded spell as a string. *)
Definition decoded_spell (char_signed : bool) (encoded decoded : list Z)
    (max_len : Z) : list Z :=
  c_string (decode_caesar_cipher char_signed encoded decoded max_len).

(** ** The specification's side *)

(** Shifting a letter backward by [k] places within its case; any other byte
    is kept. *)
Definition shift_back (k b : Z) : Z :=
  if isupper b then 65 + (b - 65 - k) mod 26
  else if islower b then 97 + (b - 97 - k) mod 26
  else b.

(** Shifting a letter forward by [k] places within its case; any other byte
    is kept. *)
Definition shift_forward (k b : Z) : Z :=
  if isupper b then 65 + (b - 65 + k) mod 26
  else if islower b then 97 + (b - 97 + k) mod 26
  else b.

(** The encoder the decoder is claimed to invert: the key byte, then every
    letter of the message shifted forward by [K mod 26]. *)
Definition encode_caesar_cipher (K : Z) (M : list Z) : list Z :=
  K :: map (shift_forward (K mod 26)) M.

End Wizard.

(* ===================================================================== *)
(** * The shared memory block and the signals *)
(* ===================================================================== *)

Module Shared.

(** Modelled from the spec: the layout of [struct Dungeon], declared in
    dungeon_info.h, which is not among the sources.  The fields are the ones
    the sources read or write; [F] is the type of [rogue.pick], a C [float].
    Characters are kept as their values, buffers as lists of bytes. *)
Record Dungeon (F : Type) : Type := mkDungeon {
  running : bool;              (* dungeon_ptr->running *)
  dungeonPID : Z;              (* dungeon_ptr->dungeonPID *)
  barbarian_attack : Z;        (* dungeon_ptr->barbarian.attack *)
  enemy_health : Z;            (* dungeon_ptr->enemy.health *)
  trap_locked : bool;          (* dungeon_ptr->trap.locked *)
  trap_direction : Z;          (* dungeon_ptr->trap.direction *)
  rogue_pick : F;              (* dungeon_ptr->rogue.pick *)
  barrier_spell : list Z;      (* dungeon_ptr->barrier.spell *)
  wizard_spell : list Z;       (* dungeon_ptr->wizard.spell *)
  treasure : list Z;           (* dungeon_ptr->treasure *)
  spoils : list Z              (* dungeon_ptr->spoils *)
}.

Arguments mkDungeon {F}.
Arguments running {F}.
Arguments dungeonPID {F}.
Arguments barbarian_attack {F}.
Arguments enemy_health {F}.
Arguments trap_locked {F}.
Arguments trap_direction {F}.
Arguments rogue_pick {F}.
Arguments barrier_spell {F}.
Arguments wizard_spell {F}.
Arguments treasure {F}.
Arguments spoils {F}.

(** The signals a character's handler is registered for.  [DUNGEON_SIGNAL]
    and [SEMAPHORE_SIGNAL] are macros of dungeon_settings.h (not among the
    sources): two signal numbers, different from each other and from SIGINT. *)
Inductive signal : Type :=
  | SIGINT
  | DUNGEON_SIGNAL
  | SEMAPHORE_SIGNAL
  | OTHER_SIGNAL.

(** The characters [trap.direction] takes. *)
Definition dir_up : Z := 117.        (* 'u': the pick was too low *)
Definition dir_down : Z := 100.      (* 'd': the pick was too high *)
Definition dir_unlocked : Z := 45.   (* '-': the trap is unlocked *)
Definition dir_guess : Z := 116.     (* 't': a pick has been submitted *)

Definition set_attack {F} (d : Dungeon F) (v : Z) : Dungeon F :=
  mkDungeon (running d) (dungeonPID d) v (enemy_health d) (trap_locked d)
    (trap_direction d) (rogue_pick d) (barrier_spell d) (wizard_spell d)
    (treasure d) (spoils d).

Definition set_pick {F} (d : Dungeon F) (v : F) : Dungeon F :=
  mkDungeon (running d) (dungeonPID d) (barbarian_attack d) (enemy_health d)
    (trap_locked d) (trap_direction d) v (barrier_spell d) (wizard_spell d)
    (treasure d) (spoils d).

Definition set_direction {F} (d : Dungeon F) (v : Z) : Dungeon F :=
  mkDungeon (running d) (dungeonPID d) (barbarian_attack d) (enemy_health d)
    (trap_locked d) v (rogue_pick d) (barrier_spell d) (wizard_spell d)
    (treasure d) (spoils d).

Definition set_spoils {F} (d : Dungeon F) (v : list Z) : Dungeon F :=
  mkDungeon (running d) (dungeonPID d) (barbarian_attack d) (enemy_health d)
    (trap_locked d) (trap_direction d) (rogue_pick d) (barrier_spell d)
    (wizard_spell d) (treasure d) v.

End Shared.

(* ===================================================================== *)
(** * barbarian.c: the attack *)
(* ===================================================================== *)

Module Barbarian.
Import Shared.

(** [barbarian_signal_handler] up to the end of its DUNGEON_SIGNAL branch: the
    shared block when the handler returns.  [exit_flag] is the process's own
    flag; the SEMAPHORE_SIGNAL branch is the lever protocol, modelled in
    [Levers]; any other signal only sleeps. *)
Definition barbarian_signal_handler {F} (exit_flag : bool) (signum : signal)
    (d : Dungeon F) : Dungeon F :=
  if exit_flag then d
  else if negb (running d) then d
  else
    match signum with
    | DUNGEON_SIGNAL => set_attack d (enemy_health d)
    | _ => d
    end.

End Barbarian.

(* ===================================================================== *)
(** * The arithmetic of C's [float] *)
(* ===================================================================== *)

Module CFloat.

(** The floating-point expressions of rogue.c, as operations on the values
    of type [float].  C evaluates an expression that mixes a [float] with a
    [double] constant in [double] and rounds when the result is assigned to a
    [float]; each operation below is one such expression. *)
Class FloatOps (F : Type) : Type := {
  f_zero : F;                  (* 0.0 *)
  f_gt : F -> F -> bool;       (* a > b *)
  f_sub : F -> F -> F;         (* a - b, both float *)
  f_gt_eps : F -> bool;        (* a > 0.000001 *)
  f_add_half : F -> F -> F;    (* float r = a + b / 2.0 *)
  f_half : F -> F;             (* float r = a / 2.0 *)
  f_value : F -> Q             (* the number a finite value stands for *)
}.

(** [a < b]. *)
Definition f_lt {F} `{FloatOps F} (a b : F) : bool := f_gt b a.

(** The larger and the smaller of two values, by the comparison of the
    [float]s (the first one when they do not compare). *)
Definition f_max {F} `{FloatOps F} (a b : F) : F := if f_gt b a then b else a.
Definition f_min {F} `{FloatOps F} (a b : F) : F := if f_lt b a then b else a.

(** ** IEEE 754 single precision, with double precision intermediates

    The arithmetic of a platform that evaluates [float] operations in
    [float] and [double] operations in [double] (FLT_EVAL_METHOD 0, as on
    x86-64 and AArch64), rounding to nearest, ties to even. *)

Definition prec32 : Z := 24.
Definition emax32 : Z := 128.
Definition prec64 : Z := 53.
Definition emax64 : Z := 1024.

(** Conversion of a [float] to [double] (exact). *)
Definition to_double (x : spec_float) : spec_float :=
  match x with
  | S754_finite s m e => binary_normalize prec64 emax64 (cond_Zopp s (Zpos m)) e s
  | _ => x
  end.

(** Conversion of a [double] to [float] (rounds to nearest, ties to even). *)
Definition to_float (x : spec_float) : spec_float :=
  match x with
  | S754_finite s m e => binary_normalize prec32 emax32 (cond_Zopp s (Zpos m)) e s
  | _ => x
  end.

(** The [float] and the [double] nearest to an integer. *)
Definition float_of_Z (z : Z) : spec_float := binary_normalize prec32 emax32 z 0 false.
Definition double_of_Z (z : Z) : spec_float := binary_normalize prec64 emax64 z 0 false.

(** The [double] constants 2.0 and 0.000001 (the double nearest to 1/10^6). *)
Definition d_two : spec_float := double_of_Z 2.
Definition d_eps : spec_float :=
  SFdiv prec64 emax64 (double_of_Z 1) (double_of_Z 1000000).

(** The rational a floating-point value stands for (0 for infinities, NaN). *)
Definition sf_value (x : spec_float) : Q :=
  match x with
  | S754_finite s m e =>
      match e with
      | Zneg p => Qmake (cond_Zopp s (Zpos m)) (Pos.shiftl 1 (Npos p))
      | _ => inject_Z (cond_Zopp s (Zpos m) * 2 ^ e)
      end
  | _ => 0%Q
  end.

#[export] Instance binary32_ops : FloatOps spec_float := {|
  f_zero := S754_zero false;
  f_gt := fun a b => SFltb b a;
  f_sub := fun a b => SFsub prec32 emax32 a b;
  f_gt_eps := fun a => SFltb d_eps (to_double a);
  f_add_half := fun a b =>
    to_float (SFadd prec64 emax64 (to_double a)
                (SFdiv prec64 emax64 (to_double b) d_two));
  f_half := fun a => to_float (SFdiv prec64 emax64 (to_double a) d_two);
  f_value := sf_value
|}.

(** The tolerance of the search, 0.000001, as a rational. *)
Definition q_eps : Q := Qmake 1 1000000.


(** ** Numbers and formats, for the rounding of the operations *)

(** [2^e] as a rational, and the number a mantissa and an exponent stand
    for. *)
Definition bpow (e : Z) : Q := (2 ^ e)%Q.
Definition F2Q (m e : Z) : Q := (inject_Z m * bpow e)%Q.

(** Where the bits shifted out of a mantissa lie: [rem] is their value,
    out of [P]; the round bit tells whether it is at least half of [P] and
    the sticky bit whether anything is left besides. *)
Definition located (P rem : Z) (r s : bool) : Prop :=
  0 <= rem < P /\
  match r, s with
  | false, false => rem = 0
  | false, true => 0 < 2 * rem < P
  | true, false => 2 * rem = P
  | true, true => P < 2 * rem
  end.

(** A finite value of a format: a zero, or a mantissa and an exponent in
    the canonical form of the format. *)
Definition finite_in (prec emax : Z) (x : spec_float) : bool :=
  match x with
  | S754_zero _ => true
  | S754_finite _ m e => bounded prec emax m e
  | _ => false
  end.

(** The finite values of [float] and of [double]. *)
Definition is_float (x : spec_float) : bool := finite_in prec32 emax32 x.
Definition is_double (x : spec_float) : bool := finite_in prec64 emax64 x.

(** [2^k]. *)
Fixpoint two_pow (k : nat) : Q :=
  match k with
  | O => 1%Q
  | S k' => (2 * two_pow k')%Q
  end.

(** By how much a step of the search shortens the distance of the bounds,
    up to the rounding of the threshold: one half and one part in [2^23],
    and [k] steps. *)
Definition shrink_rate : Q := 4194305 # 8388608.

Fixpoint shrink (k : nat) : Q :=
  match k with
  | O => 1%Q
  | S k' => (shrink_rate * shrink k')%Q
  end.

(** The rounding of a number of the size of [T]: one part in [2^24] and two
    in [2^53] of it (the conversion to [float] and the addition in
    [double]), and half the smallest positive [float]. *)
Definition rounding_of (T : Q) : Q :=
  (((1 # 16777216) + (2 # 9007199254740992)) * Qabs T + bpow (-150))%Q.

(** How far the midpoint the loop computes can be from the exact midpoint
    of bounds [w] apart that have [T] between them. *)
Definition pick_error (T w : Q) : Q :=
  (rounding_of T + (1 # 8388608) * w)%Q.

(** The distance of the bounds below which the search no longer shortens
    it. *)
Definition search_slack (T : Q) : Q := ((8388608 # 4194303) * rounding_of T)%Q.

End CFloat.

(* ===================================================================== *)
(** * rogue.c: the trap solver and the treasure collector *)
(* ===================================================================== *)

Module Rogue.
Import CString Shared CFloat.

(** What the rest of the system does to the process while one of its loops
    runs.  Loop iteration [n] (counted from 0 when the loop starts) sees the
    shared block after [env_write n], the process's [exit_flag] as
    [env_exit_flag n] (SIGINT may set it at any moment) and the clock
    [time(NULL)] as [env_time n]. *)
Record Env (F : Type) : Type := mkEnv {
  env_write : nat -> Dungeon F -> Dungeon F;
  env_exit_flag : nat -> bool;
  env_time : nat -> Z
}.
Arguments mkEnv {F}.
Arguments env_write {F}.
Arguments env_exit_flag {F}.
Arguments env_time {F}.

(** How the body of a [while] loop ends. *)
Inductive flow : Type := Continue | Break.

Section Handler.
Context {F : Type} `{FloatOps F}.

(** [MAX_PICK_ANGLE] converted to [float], and [SECONDS_TO_PICK] and
    [TIME_TREASURE_AVAILABLE] in whole seconds: macros of dungeon_settings.h
    (not among the sources). *)
Variable MAX_PICK_ANGLE : F.
Variable SECONDS_TO_PICK : Z.
Variable TIME_TREASURE_AVAILABLE : Z.

(** ** The trap solver (DUNGEON_SIGNAL) *)

(** The static locals [current_low] and [current_high] of
    [rogue_signal_handler]. *)
Record Bounds : Type := mkBounds { current_low : F; current_high : F }.

(** [current_low = 0.0; current_high = MAX_PICK_ANGLE;] *)
Definition full_range : Bounds := mkBounds f_zero MAX_PICK_ANGLE.

(** The initializers of the statics are the same two values. *)
Definition initial_bounds : Bounds := full_range.

(** [initial_direction != 'u' && initial_direction != 'd' &&
    initial_direction != '-'] *)
Definition fresh_direction (direction : Z) : bool :=
  negb (direction =? dir_up) && negb (direction =? dir_down)
  && negb (direction =? dir_unlocked).

(** The reset of the bounds when the signal arrives. *)
Definition reset_on_entry (b : Bounds) (initial_direction : Z) : Bounds :=
  if fresh_direction initial_direction then full_range else b.

(** [difftime(time(NULL), loop_start_time) > (SECONDS_TO_PICK - 0.5)]; both
    times are whole seconds. *)
Definition pick_timed_out (loop_start_time now : Z) : bool :=
  2 * SECONDS_TO_PICK - 1 <? 2 * (now - loop_start_time).

(** The update of the bounds on the feedback ['u'] or ['d']. *)
Definition update_bounds (b : Bounds) (current_direction : Z) (current_pick : F)
    : Bounds :=
  if current_direction =? dir_up then
    if f_gt current_pick (current_low b)
    then mkBounds current_pick (current_high b) else b
  else
    if f_lt current_pick (current_high b)
    then mkBounds (current_low b) current_pick else b.

(** [current_high > current_low && (current_high - current_low) > 0.000001] *)
Definition range_open (b : Bounds) : bool :=
  f_gt (current_high b) (current_low b)
  && f_gt_eps (f_sub (current_high b) (current_low b)).

(** [current_low + (current_high - current_low) / 2.0] *)
Definition next_pick (b : Bounds) : F :=
  f_add_half (current_low b) (f_sub (current_high b) (current_low b)).

(** One run of the body of the internal [while] loop, entered with the
    bounds [b] and the shared block [d]; [timed_out] is the outcome of the
    deadline test. *)
Definition search_iteration (b : Bounds) (d : Dungeon F) (timed_out : bool)
    : Bounds * Dungeon F * flow :=
  if timed_out then (b, d, Break)
  else
    let current_direction := trap_direction d in
    let current_pick := rogue_pick d in
    if current_direction =? dir_unlocked then (b, d, Break)
    else if (current_direction =? dir_up) || (current_direction =? dir_down) then
      let b' := update_bounds b current_direction current_pick in
      if range_open b' then
        (b', set_direction (set_pick d (next_pick b')) dir_guess, Continue)
      else (b', d, Break)
    else (b, d, Continue).

(** [while (dungeon_ptr->trap.locked && dungeon_ptr->running && exit_flag == 0)] *)
Definition search_guard (env : Env F) (n : nat) (d : Dungeon F) : bool :=
  trap_locked d && running d && negb (env_exit_flag env n).

(** The internal loop from its iteration [n] on.  The result is the bounds
    and the shared block when the loop is left, and the number of the
    iteration that left it; [None] when [fuel] iterations did not leave it. *)
Fixpoint search_loop (fuel : nat) (env : Env F) (loop_start_time : Z) (n : nat)
    (b : Bounds) (d : Dungeon F) : option (Bounds * Dungeon F * nat) :=
  match fuel with
  | O => None
  | S fuel' =>
      let d := env_write env n d in
      if search_guard env n d then
        match search_iteration b d
                (pick_timed_out loop_start_time (env_time env n)) with
        | (b', d', Continue) => search_loop fuel' env loop_start_time (S n) b' d'
        | (b', d', Break) => Some (b', d', n)
        end
      else Some (b, d, n)
  end.

(** [if (!dungeon_ptr->trap.locked)] after the loop. *)
Definition reset_on_exit (b : Bounds) (d : Dungeon F) : Bounds :=
  if negb (trap_locked d) then full_range else b.

(** The DUNGEON_SIGNAL branch of [rogue_signal_handler]: the statics and the
    shared block when the handler returns.  The loop starts at the time
    [env_time env 0]; when iteration [n] has left it, [trap.locked] is read
    once more, from the block after [env_write env (S n)]. *)
Definition disarm_trap (fuel : nat) (env : Env F) (b : Bounds) (d : Dungeon F)
    : option (Bounds * Dungeon F) :=
  if trap_locked d then
    let b := reset_on_entry b (trap_direction d) in
    match search_loop fuel env (env_time env O) O b d with
    | None => None
    | Some (b, d, n) =>
        let d := env_write env (S n) d in
        Some (reset_on_exit b d, d)
    end
  else Some (full_range, d).

(** ** The orchestrator's side of a trap, for a hidden threshold *)

(** Feedback consistent with the threshold [T]: on a submitted pick, too low
    exactly when the pick is below [T], too high exactly when it is above,
    and unlocked when it is [T]. *)
Definition feedback (T : Q) (d : Dungeon F) : Dungeon F :=
  if trap_direction d =? dir_guess then
    match (f_value (rogue_pick d) ?= T)%Q with
    | Lt => set_direction d dir_up
    | Gt => set_direction d dir_down
    | Eq => set_direction d dir_unlocked
    end
  else d.

(** One step of the search against that orchestrator: the feedback on the
    pending pick, then one run of the loop body.  A step taken after the
    loop has stopped changes nothing. *)
Definition solver_step (T : Q) (s : Bounds * Dungeon F * flow)
    : Bounds * Dungeon F * flow :=
  match s with
  | (b, d, Continue) => search_iteration b (feedback T d) false
  | (b, d, Break) => (b, d, Break)
  end.

(** The search after [k] steps from the bounds [b] and the pending pick
    [pick]. *)
Fixpoint solver_run (T : Q) (k : nat) (s : Bounds * Dungeon F * flow)
    : Bounds * Dungeon F * flow :=
  match k with
  | O => s
  | S k' => solver_step T (solver_run T k' s)
  end.

(** The pick in the shared block after [k] steps. *)
Definition guess_after (T : Q) (k : nat) (s : Bounds * Dungeon F * flow) : F :=
  rogue_pick (snd (fst (solver_run T k s))).

(** ** The treasure collector (SEMAPHORE_SIGNAL) *)

(** What the handler writes to [dungeon_ptr->spoils]: the [memset], or one
    byte at an index. *)
Inductive spoils_write : Type :=
  | Clear
  | Put (index : nat) (value : Z).

(** [difftime(time(NULL), treasure_start_time) > TIME_TREASURE_AVAILABLE] *)
Definition treasure_timed_out (treasure_start_time now : Z) : bool :=
  TIME_TREASURE_AVAILABLE <? now - treasure_start_time.

(** [while (... dungeon_ptr->running && exit_flag == 0 && spoils_count < 4)] *)
Definition collect_guard (env : Env F) (n : nat) (d : Dungeon F)
    (spoils_count : nat) : bool :=
  running d && negb (env_exit_flag env n) && (spoils_count <? 4)%nat.

(** The collection loop from its iteration [n] on, with the writes made so
    far in [log] (latest last).  The result is the shared block, the count,
    the writes and the number of the iteration that left the loop; [None]
    when [fuel] iterations did not leave it. *)
Fixpoint collect_loop (fuel : nat) (env : Env F) (treasure_start_time : Z)
    (n : nat) (d : Dungeon F) (spoils_count : nat) (log : list spoils_write)
    : option (Dungeon F * nat * list spoils_write * nat) :=
  match fuel with
  | O => None
  | S fuel' =>
      let d := env_write env n d in
      if collect_guard env n d spoils_count then
        if treasure_timed_out treasure_start_time (env_time env n) then
          Some (d, spoils_count, log, n)
        else if negb (nth spoils_count (treasure d) 0 =? 0) then
          let v := nth spoils_count (treasure d) 0 in
          collect_loop fuel' env treasure_start_time (S n)
            (set_spoils d (store (spoils d) spoils_count v))
            (S spoils_count) (log ++ [Put spoils_count v])
        else
          collect_loop fuel' env treasure_start_time (S n) d spoils_count log
      else Some (d, spoils_count, log, n)
  end.

(** The SEMAPHORE_SIGNAL branch of [rogue_signal_handler]. *)
Definition collect_treasure (fuel : nat) (env : Env F) (d : Dungeon F)
    : option (Dungeon F * nat * list spoils_write * nat) :=
  let spoils_count := O in
  let d := set_spoils d (memset (spoils d) 0 (List.length (spoils d))) in
  collect_loop fuel env (env_time env O) O d spoils_count [Clear].

(** ** The handler *)

(** The state of the process that outlives a call of the handler: the
    statics and [exit_flag]. *)
Record Process : Type := mkProcess { bounds : Bounds; exit_flag : bool }.

(** The poll that left the search loop, when the DUNGEON_SIGNAL branch
    entered it. *)
Definition last_trap_poll (fuel : nat) (env : Env F) (b : Bounds)
    (d : Dungeon F) : option nat :=
  if trap_locked d then
    match search_loop fuel env (env_time env O) O
            (reset_on_entry b (trap_direction d)) d with
    | Some (_, _, n) => Some n
    | None => None
    end
  else None.

(** [exit_flag] after a loop that was left at poll [n]: a SIGINT delivered
    while the loop runs enters the handler again, which sets the flag and
    returns into the loop; the flag is then as the last poll found it. *)
Definition flag_after (env : Env F) (flag : bool) (n : option nat) : bool :=
  match n with
  | Some n => flag || env_exit_flag env n
  | None => flag
  end.

(** [rogue_signal_handler(signum)]: the process, the shared block and the
    writes to [spoils] when the handler returns. *)
Definition rogue_signal_handler (fuel : nat) (env : Env F) (signum : signal)
    (p : Process) (d : Dungeon F)
    : option (Process * Dungeon F * list spoils_write) :=
  match signum with
  | SIGINT => Some (mkProcess (bounds p) true, d, [])
  | _ =>
      if exit_flag p then Some (p, d, [])
      else if negb (running d) then Some (p, d, [])
      else
        match signum with
        | DUNGEON_SIGNAL =>
            match disarm_trap fuel env (bounds p) d with
            | None => None
            | Some (b, d') =>
                Some (mkProcess b
                        (flag_after env (exit_flag p)
                           (last_trap_poll fuel env (bounds p) d)),
                      d', [])
            end
        | SEMAPHORE_SIGNAL =>
            match collect_treasure fuel env d with
            | None => None
            | Some (d', _, log, n) =>
                Some (mkProcess (bounds p)
                        (flag_after env (exit_flag p) (Some n)),
                      d', log)
            end
        | _ => Some (p, d, [])
        end
  end.

End Handler.

Arguments Bounds F : clear implicits.
Arguments mkBounds {F}.
Arguments current_low {F}.
Arguments current_high {F}.
Arguments Process F : clear implicits.
Arguments mkProcess {F}.
Arguments bounds {F}.
Arguments exit_flag {F}.

(** ** Words of the specification about the collection *)

(** The writes of the bytes [vs] at the indices [i], [i+1], ... in that
    order. *)
Fixpoint puts (i : nat) (vs : list Z) : list spoils_write :=
  match vs with
  | [] => []
  | v :: vs' => Put i v :: puts (S i) vs'
  end.

(** The other processes leave [spoils] to the Rogue. *)
Definition keeps_spoils {F} (env : Env F) : Prop :=
  forall n d, spoils (env_write env n d) = spoils d.

(** The orchestrator reveals the treasure: a byte of [treasure] that is not
    zero is not written again. *)
Definition keeps_revealed {F} (env : Env F) : Prop :=
  forall n d i, nth i (treasure d) 0 <> 0 ->
    nth i (treasure (env_write env n d)) 0 = nth i (treasure d) 0.

(** A property of the four indices of [treasure] and [spoils]. *)
Definition forall_below_4 (P : nat -> Prop) : Prop :=
  P 0%nat /\ P 1%nat /\ P 2%nat /\ P 3%nat.

(** What [spoils] holds while the collection runs, when nobody else writes
    it and revealed bytes stay: the bytes of [treasure] below the count,
    none of them zero, and zero from the count on. *)
Definition collected {F} (d : Dungeon F) (c : nat) : Prop :=
  List.length (spoils d) = 4%nat
  /\ forall i, (i < 4)%nat ->
       (if (i <? c)%nat then nth i (treasure d) 0 <> 0 else True)
       /\ nth i (spoils d) 0 = if (i <? c)%nat then nth i (treasure d) 0 else 0.

(** ** The collection as the specification tells it *)

(** The collection poll by poll, for as long as it goes on: the block poll
    [k] reads and the bytes copied before that poll.  [spoils] is cleared
    first; a poll that finds byte [i] of [treasure] not zero, [i] being the
    number of bytes copied so far, copies it to byte [i] of [spoils] at
    once; between two polls the rest of the system writes the block. *)
Fixpoint polled {F} (env : Env F) (d : Dungeon F) (k : nat)
    : Dungeon F * list Z :=
  match k with
  | O =>
      (env_write env O
         (set_spoils d (memset (spoils d) 0 (List.length (spoils d)))), [])
  | S k' =>
      let (d1, vs) := polled env d k' in
      let i := List.length vs in
      let v := nth i (treasure d1) 0 in
      if v =? 0 then (env_write env (S k') d1, vs)
      else (env_write env (S k') (set_spoils d1 (store (spoils d1) i v)),
            vs ++ [v])
  end.

(** Poll [k] ends the collection: four bytes are copied, the time is over
    ([TIME_TREASURE_AVAILABLE] seconds and more since poll 0), [running] is
    false or [exit_flag] is set. *)
Definition collection_over {F} (TIME_TREASURE_AVAILABLE : Z) (env : Env F)
    (d : Dungeon F) (k : nat) : bool :=
  (4 <=? List.length (snd (polled env d k)))%nat
  || (TIME_TREASURE_AVAILABLE <? env_time env k - env_time env O)
  || negb (running (fst (polled env d k)))
  || env_exit_flag env k.


(** ** The search in single precision *)

(** The state of the search against a threshold [T], [S n] steps after it
    started from bounds [W] apart.  While the search goes on, the bounds and
    the pending pick are finite [float]s, the bounds of absolute value at
    most [2^125] with the threshold strictly between them, the pick is
    their midpoint up to its rounding, and they are no further apart than
    [shrink n * W] and the slack of the search; once the search has stopped
    the pick is within 0.000001, one part in [2^23] of it and the slack of
    the threshold. *)
Definition float_invariant (T W : Q) (n : nat)
    (s : Bounds spec_float * Dungeon spec_float * flow) : Prop :=
  match s with
  | (b, d, Continue) =>
      trap_direction d = dir_guess
      /\ is_float (current_low b) = true
      /\ is_float (current_high b) = true
      /\ is_float (rogue_pick d) = true
      /\ (f_value (current_low b) < T /\ T < f_value (current_high b)
          /\ Qabs (f_value (current_low b)) <= bpow 125
          /\ Qabs (f_value (current_high b)) <= bpow 125
          /\ Qabs (f_value (rogue_pick d)
                   - (f_value (current_low b) + f_value (current_high b)) / 2)
             <= pick_error T (f_value (current_high b)
                              - f_value (current_low b))
          /\ f_value (current_high b) - f_value (current_low b)
             <= shrink n * W + search_slack T)%Q
  | (b, d, Break) =>
      (Qabs (f_value (rogue_pick d) - T)
       <= q_eps + (1 # 8388608) * q_eps + search_slack T)%Q
  end.

End Rogue.

(* ===================================================================== *)
(** * The scenarios of the specification, as inputs *)
(* ===================================================================== *)

Module Scenarios.
Import CString Shared CFloat Rogue.

(** The range 0..100 of the scenarios, and a shared block with a locked trap,
    a direction and a pending pick. *)
Definition angle_100 : spec_float := float_of_Z 100.

Definition trap_block (direction : Z) (pick : spec_float) : Dungeon spec_float :=
  mkDungeon true 4242 0 0 true direction pick [] [] [0; 0; 0; 0] [0; 0; 0; 0].

(** The orchestrator takes the first pick it is given: from the second read
    on the trap is unlocked. *)
Definition unlocking_env : Env spec_float :=
  mkEnv (fun n d =>
           match n with
           | O => d
           | _ => mkDungeon (running d) (dungeonPID d) (barbarian_attack d)
                    (enemy_health d) false dir_unlocked (rogue_pick d)
                    (barrier_spell d) (wizard_spell d) (treasure d) (spoils d)
           end)
        (fun _ => false) (fun _ => 0).

(** The scenario in the arithmetic of the code: the range 0..100, the first
    pick [MAX_PICK_ANGLE / 2.0] that [main] submits, and the threshold
    42.300001. *)
Definition float_start : Bounds spec_float * Dungeon spec_float * flow :=
  (full_range angle_100, trap_block dir_guess (f_half angle_100), Continue).

Definition hidden_threshold : Q := 42300001 # 1000000.

(** A search with a threshold that is a [float]: the range from
    8388614 * 2^-46 (1.19e-7) to 9320381 * 2^-42 (2.12e-6), the upper end as
    first pick, and as threshold the [float] next above the lower end. *)
Definition fine_low : spec_float := S754_finite false 8388614 (-46).
Definition fine_high : spec_float := S754_finite false 9320381 (-42).
Definition fine_threshold : spec_float := S754_finite false 8388615 (-46).

Definition fine_start : Bounds spec_float * Dungeon spec_float * flow :=
  (mkBounds fine_low fine_high, trap_block dir_guess fine_high, Continue).

(** The picks of the first [n] steps that are within 0.000001 of [T]. *)
Definition close_picks (T : Q) (n : nat) : list nat :=
  filter (fun k => Qle_bool (Qabs (f_value (guess_after T k float_start) - T)) q_eps)
    (seq 0 n).

(** The scenario of the specification: "GOLD" revealed one byte at each
    poll. *)
Definition reveal_env : Env spec_float :=
  mkEnv (fun n d =>
           mkDungeon (running d) (dungeonPID d) (barbarian_attack d)
             (enemy_health d) (trap_locked d) (trap_direction d) (rogue_pick d)
             (barrier_spell d) (wizard_spell d)
             (firstn (S n) (bytes "GOLD") ++ repeat 0 (3 - n)) (spoils d))
        (fun _ => false) (fun _ => 0).

(** Nobody writes the shared block while the loop runs, and the block
    holds the whole treasure "GOLD" from the start. *)
Definition quiet_env : Env spec_float :=
  mkEnv (fun _ d => d) (fun _ => false) (fun _ => 0).

(** A SIGINT reaches the Rogue between its polls 1 and 2; nobody writes
    the block and the clock stands still. *)
Definition sigint_env : Env spec_float :=
  mkEnv (fun _ d => d) (fun n => (2 <=? n)%nat) (fun _ => 0).

(** Nobody writes the shared block and no SIGINT comes; the clock advances
    by one second from poll to poll. *)
Definition ticking_env : Env spec_float :=
  mkEnv (fun _ d => d) (fun _ => false) (fun n => Z.of_nat n).

Definition gold_block : Dungeon spec_float :=
  mkDungeon true 4242 0 0 false 0 angle_100 [] [] (bytes "GOLD") [7; 7; 7; 7].

Definition gold_collected : Dungeon spec_float :=
  mkDungeon true 4242 0 0 false 0 angle_100 [] [] (bytes "GOLD") (bytes "GOLD").

End Scenarios.

(* ===================================================================== *)
(** * The levers: the SEMAPHORE_SIGNAL branches and the two semaphores *)
(* ===================================================================== *)

Module Levers.

(** The three character processes game.c spawns. *)
Inductive role : Type := Barbarian | Wizard | Rogue.

(** [dungeon_lever_one] and [dungeon_lever_two]. *)
Inductive lever : Type := Lever1 | Lever2.

(** Where a process is in the SEMAPHORE_SIGNAL branch of its handler. *)
Inductive pc : Type :=
  | Idle                     (* in the main loop, between two signals *)
  | TryWaiting (l : lever)   (* calling sem_trywait(l) *)
  | Waiting (l : lever)      (* inside sem_wait(l) *)
  | Holding (l : lever)      (* in the while loop that follows a successful wait *)
  | Releasing (l : lever)    (* left the while loop, calling sem_post(l) *)
  | Collecting.              (* the Rogue's collection loop *)

(** The part of the system the lever protocol reads and writes: the values
    of the two semaphores, [running] and [spoils[3]] in the shared block,
    each process's [exit_flag] and its place in the handler. *)
Record World : Type := mkWorld {
  sem1 : nat;
  sem2 : nat;
  w_running : bool;
  spoils3 : Z;
  exit_barbarian : bool;
  exit_wizard : bool;
  exit_rogue : bool;
  pc_barbarian : pc;
  pc_wizard : pc;
  pc_rogue : pc
}.

Definition sem_value (w : World) (l : lever) : nat :=
  match l with Lever1 => sem1 w | Lever2 => sem2 w end.

Definition set_sem (w : World) (l : lever) (v : nat) : World :=
  match l with
  | Lever1 => mkWorld v (sem2 w) (w_running w) (spoils3 w) (exit_barbarian w)
                (exit_wizard w) (exit_rogue w) (pc_barbarian w) (pc_wizard w)
                (pc_rogue w)
  | Lever2 => mkWorld (sem1 w) v (w_running w) (spoils3 w) (exit_barbarian w)
                (exit_wizard w) (exit_rogue w) (pc_barbarian w) (pc_wizard w)
                (pc_rogue w)
  end.

Definition get_pc (w : World) (r : role) : pc :=
  match r with
  | Barbarian => pc_barbarian w
  | Wizard => pc_wizard w
  | Rogue => pc_rogue w
  end.

Definition set_pc (w : World) (r : role) (p : pc) : World :=
  match r with
  | Barbarian => mkWorld (sem1 w) (sem2 w) (w_running w) (spoils3 w)
                   (exit_barbarian w) (exit_wizard w) (exit_rogue w)
                   p (pc_wizard w) (pc_rogue w)
  | Wizard => mkWorld (sem1 w) (sem2 w) (w_running w) (spoils3 w)
                (exit_barbarian w) (exit_wizard w) (exit_rogue w)
                (pc_barbarian w) p (pc_rogue w)
  | Rogue => mkWorld (sem1 w) (sem2 w) (w_running w) (spoils3 w)
               (exit_barbarian w) (exit_wizard w) (exit_rogue w)
               (pc_barbarian w) (pc_wizard w) p
  end.

Definition exit_flag (w : World) (r : role) : bool :=
  match r with
  | Barbarian => exit_barbarian w
  | Wizard => exit_wizard w
  | Rogue => exit_rogue w
  end.

Definition set_exit_flag (w : World) (r : role) : World :=
  match r with
  | Barbarian => mkWorld (sem1 w) (sem2 w) (w_running w) (spoils3 w)
                   true (exit_wizard w) (exit_rogue w)
                   (pc_barbarian w) (pc_wizard w) (pc_rogue w)
  | Wizard => mkWorld (sem1 w) (sem2 w) (w_running w) (spoils3 w)
                (exit_barbarian w) true (exit_rogue w)
                (pc_barbarian w) (pc_wizard w) (pc_rogue w)
  | Rogue => mkWorld (sem1 w) (sem2 w) (w_running w) (spoils3 w)
               (exit_barbarian w) (exit_wizard w) true
               (pc_barbarian w) (pc_wizard w) (pc_rogue w)
  end.

Definition set_running (w : World) (v : bool) : World :=
  mkWorld (sem1 w) (sem2 w) v (spoils3 w) (exit_barbarian w) (exit_wizard w)
    (exit_rogue w) (pc_barbarian w) (pc_wizard w) (pc_rogue w).

Definition set_spoils3 (w : World) (v : Z) : World :=
  mkWorld (sem1 w) (sem2 w) (w_running w) v (exit_barbarian w) (exit_wizard w)
    (exit_rogue w) (pc_barbarian w) (pc_wizard w) (pc_rogue w).

(** game.c creates both semaphores with the value 1 and sets [running]; the
    block is zeroed and every character waits for a signal. *)
Definition initial_world : World :=
  mkWorld 1 1 true 0 false false false Idle Idle Idle.

(** What a step of the system does. *)
Inductive event : Type :=
  | Signalled (r : role)               (* SEMAPHORE_SIGNAL delivered to r *)
  | TryFailed (r : role) (l : lever)   (* sem_trywait(l) != 0 *)
  | Acquired (r : role) (l : lever)    (* sem_trywait(l) or sem_wait(l) == 0 *)
  | WaitFailed (r : role) (l : lever)  (* sem_wait(l) != 0 *)
  | Slept (r : role) (l : lever)       (* usleep(100000) in the while loop *)
  | LeftLoop (r : role) (l : lever)    (* the while condition was false *)
  | Released (r : role) (l : lever)    (* sem_post(l) *)
  | Outside.                           (* a write by the rest of the system *)

(** The first statement of the SEMAPHORE_SIGNAL branch of each handler:
    barbarian.c calls [sem_wait(lever1_sem)], wizard.c calls
    [sem_trywait(lever2_sem)], rogue.c starts collecting. *)
Definition branch_entry (r : role) : pc :=
  match r with
  | Barbarian => Waiting Lever1
  | Wizard => TryWaiting Lever2
  | Rogue => Collecting
  end.

(** Delivery of SEMAPHORE_SIGNAL to [r]: the handler returns at once when
    [exit_flag] is set or [running] is false, and enters its branch
    otherwise. *)
Definition lever_call (r : role) (w : World) : World :=
  if exit_flag w r then w
  else if negb (w_running w) then w
  else set_pc w r (branch_entry r).

(** [dungeon_ptr->running && (dungeon_ptr->spoils[3] == '\0') && exit_flag == 0] *)
Definition keep_holding (w : World) (r : role) : bool :=
  w_running w && (spoils3 w =? 0) && negb (exit_flag w r).

(** The next step of process [r] inside its handler; [None] when it cannot
    move (it is idle, or blocked in [sem_wait] on a semaphore that is 0). *)
Definition proc_step (r : role) (w : World) : option (event * World) :=
  match get_pc w r with
  | TryWaiting l =>
      match sem_value w l with
      | S v => Some (Acquired r l, set_pc (set_sem w l v) r (Holding l))
      | O => Some (TryFailed r l, set_pc w r (Waiting Lever1))
      end
  | Waiting l =>
      match sem_value w l with
      | S v => Some (Acquired r l, set_pc (set_sem w l v) r (Holding l))
      | O => None
      end
  | Holding l =>
      if keep_holding w r then Some (Slept r l, w)
      else Some (LeftLoop r l, set_pc w r (Releasing l))
  | Releasing l =>
      Some (Released r l, set_pc (set_sem w l (S (sem_value w l))) r Idle)
  | Idle | Collecting => None
  end.

(** The steps of the system: any process moves, a signal is delivered to an
    idle process, a [sem_wait] is interrupted and fails, the Rogue writes
    [spoils[3]] or ends its collection, the orchestrator ends the run, SIGINT
    reaches a process. *)
Inductive step : World -> event -> World -> Prop :=
  | step_proc : forall r w e w',
      proc_step r w = Some (e, w') -> step w e w'
  | step_signal : forall r w,
      get_pc w r = Idle -> step w (Signalled r) (lever_call r w)
  | step_wait_failed : forall r l w,
      get_pc w r = Waiting l -> step w (WaitFailed r l) (set_pc w r Idle)
  | step_rogue_write : forall v w,
      get_pc w Rogue = Collecting -> step w Outside (set_spoils3 w v)
  | step_rogue_done : forall w,
      get_pc w Rogue = Collecting -> step w Outside (set_pc w Rogue Idle)
  | step_shutdown : forall w,
      step w Outside (set_running w false)
  | step_sigint : forall r w,
      step w Outside (set_exit_flag w r).

(** The runs of the system from [w]: the events in the order they happen. *)
Inductive run : World -> list event -> World -> Prop :=
  | run_nil : forall w, run w [] w
  | run_snoc : forall w t w1 e w2,
      run w t w1 -> step w1 e w2 -> run w (t ++ [e]) w2.

(** A process at [p] holds [l]: it has acquired it and not yet posted it. *)
Definition holding (p : pc) (l : lever) : bool :=
  match p, l with
  | Holding Lever1, Lever1 | Releasing Lever1, Lever1 => true
  | Holding Lever2, Lever2 | Releasing Lever2, Lever2 => true
  | _, _ => false
  end.

Definition holds (w : World) (r : role) (l : lever) : bool :=
  holding (get_pc w r) l.

(** The number of processes that hold [l]. *)
Definition holders (w : World) (l : lever) : nat :=
  List.length (filter (fun r => holds w r l) [Barbarian; Wizard; Rogue]).

Definition role_eqb (r r' : role) : bool :=
  match r, r' with
  | Barbarian, Barbarian | Wizard, Wizard | Rogue, Rogue => true
  | _, _ => false
  end.

Definition lever_eqb (l l' : lever) : bool :=
  match l, l' with
  | Lever1, Lever1 | Lever2, Lever2 => true
  | _, _ => false
  end.

(** The number of times [r] acquired, respectively released, [l] in a run. *)
Definition is_acquire (r : role) (l : lever) (e : event) : bool :=
  match e with
  | Acquired r' l' => role_eqb r r' && lever_eqb l l'
  | _ => false
  end.

Definition is_release (r : role) (l : lever) (e : event) : bool :=
  match e with
  | Released r' l' => role_eqb r r' && lever_eqb l l'
  | _ => false
  end.

(** The number of events of a run that satisfy [f]. *)
Definition count (f : event -> bool) (t : list event) : nat :=
  List.length (filter f t).

Definition acquires (r : role) (l : lever) (t : list event) : nat :=
  count (is_acquire r l) t.

Definition releases (r : role) (l : lever) (t : list event) : nat :=
  count (is_release r l) t.

(** The Wizard's failed attempts on lever two, and its waits for lever one
    that failed. *)
Definition is_wizard_try_failure (e : event) : bool :=
  match e with
  | TryFailed Wizard Lever2 => true
  | _ => false
  end.

Definition is_wizard_wait_failure (e : event) : bool :=
  match e with
  | WaitFailed Wizard Lever1 => true
  | _ => false
  end.

(** The Wizard is inside [sem_wait(lever1_sem)]. *)
Definition wizard_waiting (w : World) : bool :=
  match pc_wizard w with
  | Waiting Lever1 => true
  | _ => false
  end.

(** The places of its handler a character can be at: the Barbarian only
    ever waits for, holds and posts lever one; the Wizard tries lever two and
    waits for lever one; the Rogue touches no lever. *)
Definition in_branch (r : role) (p : pc) : Prop :=
  match r, p with
  | _, Idle => True
  | Barbarian, (Waiting Lever1 | Holding Lever1 | Releasing Lever1) => True
  | Wizard, (TryWaiting Lever2 | Waiting Lever1) => True
  | Wizard, (Holding _ | Releasing _) => True
  | Rogue, Collecting => True
  | _, _ => False
  end.

(** Two runs used as examples.  In [both_held] the Barbarian holds lever one
    and the Wizard lever two.  In [interrupted] the Barbarian holds lever one
    with [running] true and [spoils[3]] zero when SIGINT sets its
    [exit_flag]. *)
Definition both_held : World :=
  mkWorld 0 0 true 0 false false false (Holding Lever1) (Holding Lever2) Idle.

Definition both_held_trace : list event :=
  [Signalled Barbarian; Acquired Barbarian Lever1;
   Signalled Wizard; Acquired Wizard Lever2].

Definition interrupted : World :=
  mkWorld 0 1 true 0 true false false (Holding Lever1) Idle Idle.

Definition interrupted_trace : list event :=
  [Signalled Barbarian; Acquired Barbarian Lever1; Outside].

(** A world in which the orchestrator has ended the run. *)
Definition stopped : World :=
  mkWorld 1 1 false 0 false false false Idle Idle Idle.

(** Each semaphore's value and the number of its holders add up to one;
    every character is at a place of its own branch; each character has
    acquired each lever once more than it has released it exactly when it
    holds it, and as often otherwise; and the Wizard's waits for lever one
    (ended by an acquisition, ended by a failure, or under way) are as many
    as its failed attempts on lever two. *)
Definition protocol_invariant (t : list event) (w : World) : Prop :=
  (sem1 w + holders w Lever1 = 1)%nat
  /\ (sem2 w + holders w Lever2 = 1)%nat
  /\ (forall r, in_branch r (get_pc w r))
  /\ (forall r l,
        acquires r l t = (releases r l t + Nat.b2n (holds w r l))%nat)
  /\ (count is_wizard_try_failure t
      = acquires Wizard Lever1 t + count is_wizard_wait_failure t
        + Nat.b2n (wizard_waiting w))%nat.

(** The characters are in their main loops and both levers are free. *)
Definition at_rest (w : World) : Prop :=
  (forall r, get_pc w r = Idle) /\ sem1 w = 1%nat /\ sem2 w = 1%nat.

(** A step the handlers take on their own: a move of a process inside its
    handler, or the end of the Rogue's collection.  No signal is delivered
    and nothing is written from outside. *)
Inductive handler_step : World -> event -> World -> Prop :=
  | handler_proc : forall r w e w',
      proc_step r w = Some (e, w') -> handler_step w e w'
  | handler_rogue_done : forall w,
      get_pc w Rogue = Collecting ->
      handler_step w Outside (set_pc w Rogue Idle).

Inductive handler_run : World -> list event -> World -> Prop :=
  | handler_run_nil : forall w, handler_run w [] w
  | handler_run_cons : forall w e w1 t w2,
      handler_step w e w1 -> handler_run w1 t w2 ->
      handler_run w (e :: t) w2.

(** The steps between a place of a handler and the main loop when nothing
    holds the process up: acquire, leave the loop, post; or end the
    collection. *)
Definition steps_left (p : pc) : nat :=
  match p with
  | Idle => 0
  | TryWaiting _ | Waiting _ => 3
  | Holding _ => 2
  | Releasing _ => 1
  | Collecting => 1
  end.

Definition work_left (w : World) : nat :=
  steps_left (pc_barbarian w) + steps_left (pc_wizard w)
  + steps_left (pc_rogue w).

End Levers.

(* ===================================================================== *)
(** * wizard.c: the barrier branch of the handler *)
(* ===================================================================== *)

Module WizardHandler.
Import CString Wizard Shared.

(** [data] written over the start of [buf]; what would fall past the end of
    the buffer is left out. *)
Definition overwrite (buf data : list Z) : list Z :=
  firstn (List.length buf) data ++ skipn (List.length data) buf.

(** [strncpy(dest, src, n)]: the first [n] bytes of [dest] become the string
    of [src], cut to [n] bytes and padded with NULs up to [n]. *)
Definition strncpy (dest src : list Z) (n : nat) : list Z :=
  let copied := firstn n (c_string src) in
  overwrite dest (copied ++ repeat 0 (n - List.length copied)).

Definition set_wizard_spell {F} (d : Dungeon F) (v : list Z) : Dungeon F :=
  mkDungeon (running d) (dungeonPID d) (barbarian_attack d) (enemy_health d)
    (trap_locked d) (trap_direction d) (rogue_pick d) (barrier_spell d)
    v (treasure d) (spoils d).

(** [wizard_signal_handler] up to the end of its DUNGEON_SIGNAL branch: the
    shared block when the handler returns.  [SPELL_BUFFER_SIZE] is a macro of
    dungeon_settings.h (not among the sources); [stack] is what the local
    array [decoded_spell], which is not initialized, happens to hold.  The
    SEMAPHORE_SIGNAL branch is the lever protocol of [Levers]; any other
    signal only sleeps. *)
Definition wizard_signal_handler {F} (char_signed : bool)
    (SPELL_BUFFER_SIZE : Z) (exit_flag : bool) (signum : signal)
    (stack : list Z) (d : Dungeon F) : Dungeon F :=
  if exit_flag then d
  else if negb (running d) then d
  else
    match signum with
    | DUNGEON_SIGNAL =>
        let decoded_spell :=
          decode_caesar_cipher char_signed (barrier_spell d) stack
            SPELL_BUFFER_SIZE in
        let spell :=
          strncpy (wizard_spell d) decoded_spell
            (Z.to_nat (SPELL_BUFFER_SIZE - 1)) in
        set_wizard_spell d (store spell (Z.to_nat (SPELL_BUFFER_SIZE - 1)) 0)
    | _ => d
    end.

End WizardHandler.

(* ===================================================================== *)
(** * The processes and the system calls of their [main] functions *)
(* ===================================================================== *)

Module Posix.
Import Shared Levers.

Definition EXIT_SUCCESS : Z := 0.
Definition EXIT_FAILURE : Z := 1.

(** The values of a [dungeon_ptr] and of a semaphore pointer. *)
Inductive pointer : Type := MAP_FAILED | NULL | Mapped.
Inductive sem : Type := SEM_FAILED | Opened.

Definition is_mapped (p : pointer) : bool :=
  match p with Mapped => true | _ => false end.

Definition is_opened (s : sem) : bool :=
  match s with Opened => true | SEM_FAILED => false end.

(** The calls of the four programs on the shared objects, on the children
    and on the signals, with the arguments that tell them apart ([printf]
    and [perror] are left out). *)
Inductive call : Type :=
  | Shm_open (o_creat : bool)             (* shm_open(dungeon_shm_name, [O_CREAT |] O_RDWR, 0666) *)
  | Ftruncate (fd : Z)
  | Mmap (fd : Z)
  | Init_block                            (* game.c: memset, running = true, dungeonPID = getpid() *)
  | Sem_open (l : lever) (initial : option Z)
                                          (* sem_open(name, O_CREAT, 0666, v), or sem_open(name, O_RDWR) *)
  | Fork (r : role)
  | Execvp (r : role)
  | Usleep (microseconds : Z)
  | RunDungeon (wizard_pid rogue_pid barbarian_pid : Z)
  | Kill (pid : Z) (s : signal)
  | Waitpid (pid : Z)
  | Munmap
  | Close (fd : Z)
  | Shm_unlink
  | Sem_close (l : lever)
  | Sem_unlink (l : lever)
  | Set_first_pick                        (* rogue.c: rogue.pick = MAX_PICK_ANGLE / 2.0, trap.direction = 't' *)
  | Sigaction (s : signal)
  | Serve_signals.                        (* a character's main loop, until it is left *)

(** How a process ends other than by returning from [main]. *)
Inductive ending : Type :=
  | Exit (status : Z)          (* exit(status) *)
  | Exit_now (status : Z)      (* _exit(status) *)
  | Replaced (r : role).       (* execvp succeeded: the process runs r's program *)

(** A piece of a program returns a value or ends the process. *)
Inductive result (A : Type) : Type :=
  | Returned (a : A)
  | Exited (e : ending).
Arguments Returned {A}.
Arguments Exited {A}.

(** The number of calls of a run that satisfy [f]. *)
Definition calls (f : call -> bool) (t : list call) : nat :=
  List.length (filter f t).

Definition is_sem_close (l : lever) (c : call) : bool :=
  match c with Sem_close l' => lever_eqb l l' | _ => false end.

Definition is_munmap (c : call) : bool :=
  match c with Munmap => true | _ => false end.

Definition is_close (fd : Z) (c : call) : bool :=
  match c with Close fd' => fd =? fd' | _ => false end.

Definition is_any_close (c : call) : bool :=
  match c with Close _ => true | _ => false end.

End Posix.

(* ===================================================================== *)
(** * game.c: setting up, spawning and cleaning up *)
(* ===================================================================== *)

Module Game.
Import Shared Levers Posix.

(** What the calls that can fail return.  [fork] returns a negative number
    on failure, 0 in the child and the child's pid in the parent; [execvp]
    returns only when it fails. *)
Record Outcomes : Type := mkOutcomes {
  shm_open_ret : Z;              (* a descriptor, or -1 *)
  ftruncate_fails : bool;        (* ftruncate(...) == -1 *)
  mmap_fails : bool;             (* mmap(...) == MAP_FAILED *)
  sem_open_fails : lever -> bool;  (* sem_open(...) == SEM_FAILED *)
  fork_ret : role -> Z;
  execvp_fails : role -> bool
}.

(** ** Calls in sequence, with an early exit *)

(** A piece of the program: the calls it makes, and its value or the way it
    ended the process. *)
Definition M (A : Type) : Type := list call * result A.

Definition ret {A} (a : A) : M A := ([], Returned a).

Definition bind {A B} (m : M A) (k : A -> M B) : M B :=
  match m with
  | (t, Returned a) => let (t', r) := k a in (t ++ t', r)
  | (t, Exited e) => (t, Exited e)
  end.

Definition call_ (c : call) : M unit := ([c], Returned tt).

Definition exit_ {A} (e : ending) : M A := ([], Exited e).

Definition when (b : bool) (m : M unit) : M unit := if b then m else ret tt.

Declare Scope game_scope.
Delimit Scope game_scope with game.
Notation "x <- m ;; k" := (bind m (fun x => k))
  (at level 61, m at next level, right associativity) : game_scope.
Notation "m ;; k" := (bind m (fun _ => k))
  (at level 61, right associativity) : game_scope.
Local Open Scope game_scope.

(** ** The functions of game.c *)

(** [cleanup_resources(dungeon_ptr, shm_fd, lever1, lever2, barbarian_pid,
    wizard_pid, rogue_pid)] *)
Definition cleanup_resources (dungeon_ptr : pointer) (shm_fd : Z)
    (lever1 lever2 : sem) (barbarian_pid wizard_pid rogue_pid : Z) : M unit :=
  when (0 <? barbarian_pid) (call_ (Kill barbarian_pid SIGINT)) ;;
  when (0 <? wizard_pid) (call_ (Kill wizard_pid SIGINT)) ;;
  when (0 <? rogue_pid) (call_ (Kill rogue_pid SIGINT)) ;;
  call_ (Usleep 10000) ;;
  when (0 <? barbarian_pid) (call_ (Waitpid barbarian_pid)) ;;
  when (0 <? wizard_pid) (call_ (Waitpid wizard_pid)) ;;
  when (0 <? rogue_pid) (call_ (Waitpid rogue_pid)) ;;
  when (is_mapped dungeon_ptr) (call_ Munmap) ;;
  when (negb (shm_fd =? -1)) (call_ (Close shm_fd)) ;;
  call_ Shm_unlink ;;
  when (is_opened lever1) (call_ (Sem_close Lever1)) ;;
  when (is_opened lever2) (call_ (Sem_close Lever2)) ;;
  call_ (Sem_unlink Lever1) ;;
  call_ (Sem_unlink Lever2).

(** [error_and_exit(msg, ...)] *)
Definition error_and_exit {A} (dungeon_ptr : pointer) (shm_fd : Z)
    (lever1 lever2 : sem) (barbarian_pid wizard_pid rogue_pid : Z) : M A :=
  cleanup_resources dungeon_ptr shm_fd lever1 lever2
    barbarian_pid wizard_pid rogue_pid ;;
  exit_ (Exit EXIT_FAILURE).

(** The child's side of a fork: [execvp], and [_exit(EXIT_FAILURE)] when it
    returns. *)
Definition child (o : Outcomes) (r : role) : M unit :=
  call_ (Execvp r) ;;
  if execvp_fails o r then exit_ (Exit_now EXIT_FAILURE)
  else exit_ (Replaced r).

(** [main()]: the calls of the process and the status it returns, or the
    way it ended before. *)
Definition main (o : Outcomes) : M Z :=
  let shm_fd := -1 in
  let dungeon_ptr := MAP_FAILED in
  let lever1 := SEM_FAILED in
  let lever2 := SEM_FAILED in
  let barbarian_pid := -1 in
  let wizard_pid := -1 in
  let rogue_pid := -1 in
  call_ (Shm_open true) ;;
  let shm_fd := shm_open_ret o in
  when (shm_fd =? -1)
    (error_and_exit dungeon_ptr shm_fd lever1 lever2
       barbarian_pid wizard_pid rogue_pid) ;;
  call_ (Ftruncate shm_fd) ;;
  when (ftruncate_fails o)
    (error_and_exit dungeon_ptr shm_fd lever1 lever2
       barbarian_pid wizard_pid rogue_pid) ;;
  call_ (Mmap shm_fd) ;;
  let dungeon_ptr := if mmap_fails o then MAP_FAILED else Mapped in
  when (mmap_fails o)
    (error_and_exit dungeon_ptr shm_fd lever1 lever2
       barbarian_pid wizard_pid rogue_pid) ;;
  call_ Init_block ;;
  call_ (Sem_open Lever1 (Some 1)) ;;
  let lever1 := if sem_open_fails o Lever1 then SEM_FAILED else Opened in
  when (sem_open_fails o Lever1)
    (error_and_exit dungeon_ptr shm_fd lever1 lever2
       barbarian_pid wizard_pid rogue_pid) ;;
  call_ (Sem_open Lever2 (Some 1)) ;;
  let lever2 := if sem_open_fails o Lever2 then SEM_FAILED else Opened in
  when (sem_open_fails o Lever2)
    (error_and_exit dungeon_ptr shm_fd lever1 lever2
       barbarian_pid wizard_pid rogue_pid) ;;
  call_ (Fork Barbarian) ;;
  let barbarian_pid := fork_ret o Barbarian in
  (if barbarian_pid <? 0 then
     error_and_exit dungeon_ptr shm_fd lever1 lever2
       barbarian_pid wizard_pid rogue_pid
   else if barbarian_pid =? 0 then child o Barbarian
   else ret tt) ;;
  call_ (Fork Wizard) ;;
  let wizard_pid := fork_ret o Wizard in
  (if wizard_pid <? 0 then
     error_and_exit dungeon_ptr shm_fd lever1 lever2
       barbarian_pid wizard_pid rogue_pid
   else if wizard_pid =? 0 then child o Wizard
   else ret tt) ;;
  call_ (Fork Rogue) ;;
  let rogue_pid := fork_ret o Rogue in
  (if rogue_pid <? 0 then
     error_and_exit dungeon_ptr shm_fd lever1 lever2
       barbarian_pid wizard_pid rogue_pid
   else if rogue_pid =? 0 then child o Rogue
   else ret tt) ;;
  call_ (Usleep 100000) ;;
  call_ (RunDungeon wizard_pid rogue_pid barbarian_pid) ;;
  cleanup_resources dungeon_ptr shm_fd lever1 lever2
    barbarian_pid wizard_pid rogue_pid ;;
  ret EXIT_SUCCESS.

(** ** Reading a run *)

Definition is_shm_unlink (c : call) : bool :=
  match c with Shm_unlink => true | _ => false end.

Definition is_sem_unlink (l : lever) (c : call) : bool :=
  match c with Sem_unlink l' => lever_eqb l l' | _ => false end.

Definition is_kill (pid : Z) (c : call) : bool :=
  match c with Kill pid' SIGINT => pid =? pid' | _ => false end.

Definition is_waitpid (pid : Z) (c : call) : bool :=
  match c with Waitpid pid' => pid =? pid' | _ => false end.

Definition is_run_dungeon (c : call) : bool :=
  match c with RunDungeon _ _ _ => true | _ => false end.

(** A call that tears the game down: it signals or reaps a child, or
    releases or removes a shared object. *)
Definition tears_down (c : call) : bool :=
  match c with
  | Kill _ _ | Waitpid _ | Munmap | Close _ | Shm_unlink
  | Sem_close _ | Sem_unlink _ => true
  | _ => false
  end.

(** The stage of the game a call belongs to: setting up and playing (0),
    signalling the children (1), the pause that follows (2), reaping them
    (3), releasing and removing the shared objects (4). *)
Definition stage (c : call) : nat :=
  match c with
  | Kill _ _ => 1
  | Usleep 10000 => 2
  | Waitpid _ => 3
  | Munmap | Close _ | Shm_unlink | Sem_close _ | Sem_unlink _ => 4
  | _ => 0
  end.

(** The numbers of [l] never go down. *)
Fixpoint ascending (l : list nat) : bool :=
  match l with
  | a :: (b :: _) as l' => (a <=? b)%nat && ascending l'
  | _ => true
  end.

Definition is_any_kill (c : call) : bool :=
  match c with Kill _ _ => true | _ => false end.

Definition is_any_waitpid (c : call) : bool :=
  match c with Waitpid _ => true | _ => false end.

(** What the process has got hold of when the set-up stops or ends: the
    descriptor, the mapped block, a lever; each step is reached only when
    the steps before it succeeded. *)
Definition has_fd (o : Outcomes) : bool := negb (shm_open_ret o =? -1).

Definition has_block (o : Outcomes) : bool :=
  has_fd o && negb (ftruncate_fails o) && negb (mmap_fails o).

Definition has_lever (o : Outcomes) (l : lever) : bool :=
  match l with
  | Lever1 => has_block o && negb (sem_open_fails o Lever1)
  | Lever2 => has_block o && negb (sem_open_fails o Lever1)
              && negb (sem_open_fails o Lever2)
  end.

(** The parent comes to the fork of [r], and has forked [r]: the children
    are forked in the order Barbarian, Wizard, Rogue. *)
Fixpoint forked_all (o : Outcomes) (rs : list role) : bool :=
  match rs with
  | [] => has_lever o Lever2
  | r :: rs' => forked_all o rs' && (0 <? fork_ret o r)
  end.

Definition comes_to_fork (o : Outcomes) (r : role) : bool :=
  match r with
  | Barbarian => forked_all o []
  | Wizard => forked_all o [Barbarian]
  | Rogue => forked_all o [Wizard; Barbarian]
  end.

Definition forked (o : Outcomes) (r : role) : bool :=
  comes_to_fork o r && (0 <? fork_ret o r).

(** The process is the parent at every fork it comes to. *)
Definition is_parent (o : Outcomes) : Prop :=
  forall r, fork_ret o r <> 0.

(** Every step of the set-up succeeds, as seen by the parent. *)
Definition set_up (o : Outcomes) : bool :=
  negb (shm_open_ret o =? -1) && negb (ftruncate_fails o)
  && negb (mmap_fails o)
  && negb (sem_open_fails o Lever1) && negb (sem_open_fails o Lever2)
  && (0 <? fork_ret o Barbarian) && (0 <? fork_ret o Wizard)
  && (0 <? fork_ret o Rogue).

End Game.

(* ===================================================================== *)
(** * barbarian.c, wizard.c, rogue.c: connecting and disconnecting *)
(* ===================================================================== *)

Module Workers.
Import Shared Levers Posix.

(** The globals of a character's program. *)
Record Globals : Type := mkGlobals {
  dungeon_ptr : pointer;
  lever1_sem : sem;
  lever2_sem : sem;
  shm_fd : Z
}.

(** [dungeon_ptr = NULL], [lever1_sem = SEM_FAILED], [lever2_sem =
    SEM_FAILED], [shm_fd = -1]: the initializers. *)
Definition initial_globals : Globals := mkGlobals NULL SEM_FAILED SEM_FAILED (-1).

(** What the calls of the set-up that can fail return. *)
Record Connection : Type := mkConnection {
  opened_fd : Z;                     (* shm_open: a descriptor, or -1 *)
  mapping_fails : bool;              (* mmap(...) == MAP_FAILED *)
  lever_fails : lever -> bool;       (* sem_open(...) == SEM_FAILED *)
  sigaction_fails : signal -> bool   (* sigaction(...) == -1 *)
}.

(** ** Calls in sequence, on the globals, with an early exit *)

(** A piece of the program: from the globals, the calls it makes, the
    globals it leaves, and its value or the way it ended the process. *)
Definition W (A : Type) : Type := Globals -> list call * Globals * result A.

Definition unit_ {A} (a : A) : W A := fun g => ([], g, Returned a).

Definition and_then {A B} (m : W A) (k : A -> W B) : W B :=
  fun g =>
    match m g with
    | (t, g', Returned a) =>
        match k a g' with (t', g'', r) => (t ++ t', g'', r) end
    | (t, g', Exited e) => (t, g', Exited e)
    end.

Definition do_call (c : call) : W unit := fun g => ([c], g, Returned tt).

Definition leave {A} (e : ending) : W A := fun g => ([], g, Exited e).

Definition globals : W Globals := fun g => ([], g, Returned g).

Definition set_dungeon_ptr (p : pointer) : W unit :=
  fun g => ([], mkGlobals p (lever1_sem g) (lever2_sem g) (shm_fd g), Returned tt).

Definition set_lever1_sem (s : sem) : W unit :=
  fun g => ([], mkGlobals (dungeon_ptr g) s (lever2_sem g) (shm_fd g), Returned tt).

Definition set_lever2_sem (s : sem) : W unit :=
  fun g => ([], mkGlobals (dungeon_ptr g) (lever1_sem g) s (shm_fd g), Returned tt).

Definition set_shm_fd (fd : Z) : W unit :=
  fun g => ([], mkGlobals (dungeon_ptr g) (lever1_sem g) (lever2_sem g) fd, Returned tt).

Definition if_ (b : bool) (m : W unit) : W unit := if b then m else unit_ tt.

Declare Scope worker_scope.
Delimit Scope worker_scope with worker.
Notation "x <- m ;; k" := (and_then m (fun x => k))
  (at level 61, m at next level, right associativity) : worker_scope.
Notation "m ;; k" := (and_then m (fun _ => k))
  (at level 61, right associativity) : worker_scope.
Local Open Scope worker_scope.

(** ** The functions of the three programs *)

(** [error_exit(msg)], the same in the three files. *)
Definition error_exit {A} : W A :=
  g <- globals ;;
  if_ (is_mapped (dungeon_ptr g))
    (do_call Munmap ;; set_dungeon_ptr NULL) ;;
  g <- globals ;;
  if_ (negb (shm_fd g =? -1))
    (do_call (Close (shm_fd g)) ;; set_shm_fd (-1)) ;;
  g <- globals ;;
  if_ (is_opened (lever1_sem g))
    (do_call (Sem_close Lever1) ;; set_lever1_sem SEM_FAILED) ;;
  g <- globals ;;
  if_ (is_opened (lever2_sem g))
    (do_call (Sem_close Lever2) ;; set_lever2_sem SEM_FAILED) ;;
  leave (Exit EXIT_FAILURE).

(** [shm_fd = -1;] after a [close(shm_fd)] of [main]: barbarian.c and
    wizard.c have it, rogue.c has not (it is commented out there). *)
Definition forget_fd (r : role) : W unit :=
  match r with
  | Rogue => unit_ tt
  | Barbarian | Wizard => set_shm_fd (-1)
  end.

(** The writes of rogue.c between the mapping and the semaphores. *)
Definition first_pick (r : role) : W unit :=
  match r with
  | Rogue => do_call Set_first_pick
  | Barbarian | Wizard => unit_ tt
  end.

(** [main()] of the program of [r]: the three files differ in the two
    places above (and in the handler they register). *)
Definition main (r : role) (o : Connection) : W Z :=
  do_call (Shm_open false) ;;
  set_shm_fd (opened_fd o) ;;
  g <- globals ;;
  if_ (shm_fd g =? -1) error_exit ;;
  g <- globals ;;
  do_call (Mmap (shm_fd g)) ;;
  set_dungeon_ptr (if mapping_fails o then MAP_FAILED else Mapped) ;;
  g <- globals ;;
  if_ (match dungeon_ptr g with MAP_FAILED => true | _ => false end)
    (do_call (Close (shm_fd g)) ;; forget_fd r ;; error_exit) ;;
  g <- globals ;;
  do_call (Close (shm_fd g)) ;; forget_fd r ;;
  first_pick r ;;
  do_call (Sem_open Lever1 None) ;;
  set_lever1_sem (if lever_fails o Lever1 then SEM_FAILED else Opened) ;;
  g <- globals ;;
  if_ (negb (is_opened (lever1_sem g)))
    (do_call Munmap ;; set_dungeon_ptr NULL ;; error_exit) ;;
  do_call (Sem_open Lever2 None) ;;
  set_lever2_sem (if lever_fails o Lever2 then SEM_FAILED else Opened) ;;
  g <- globals ;;
  if_ (negb (is_opened (lever2_sem g)))
    (do_call (Sem_close Lever1) ;; set_lever1_sem SEM_FAILED ;;
     do_call Munmap ;; set_dungeon_ptr NULL ;; error_exit) ;;
  do_call (Sigaction DUNGEON_SIGNAL) ;;
  if_ (sigaction_fails o DUNGEON_SIGNAL)
    (do_call (Sem_close Lever1) ;; do_call (Sem_close Lever2) ;;
     do_call Munmap ;; error_exit) ;;
  do_call (Sigaction SEMAPHORE_SIGNAL) ;;
  if_ (sigaction_fails o SEMAPHORE_SIGNAL)
    (do_call (Sem_close Lever1) ;; do_call (Sem_close Lever2) ;;
     do_call Munmap ;; error_exit) ;;
  do_call (Sigaction SIGINT) ;;
  do_call Serve_signals ;;
  g <- globals ;;
  if_ (is_mapped (dungeon_ptr g))
    (do_call Munmap ;; set_dungeon_ptr NULL) ;;
  g <- globals ;;
  if_ (is_opened (lever1_sem g))
    (do_call (Sem_close Lever1) ;; set_lever1_sem SEM_FAILED) ;;
  g <- globals ;;
  if_ (is_opened (lever2_sem g))
    (do_call (Sem_close Lever2) ;; set_lever2_sem SEM_FAILED) ;;
  unit_ EXIT_SUCCESS.

(** The run of the program from its initial globals. *)
Definition run_main (r : role) (o : Connection)
    : list call * Globals * result Z :=
  main r o initial_globals.

(** ** Reading a run *)

Definition is_serve (c : call) : bool :=
  match c with Serve_signals => true | _ => false end.

(** What the process has got hold of when the set-up stops or ends; each
    step is reached only when the steps before it succeeded. *)
Definition got_fd (o : Connection) : bool := negb (opened_fd o =? -1).

Definition got_block (o : Connection) : bool :=
  got_fd o && negb (mapping_fails o).

Definition got_lever (o : Connection) (l : lever) : bool :=
  match l with
  | Lever1 => got_block o && negb (lever_fails o Lever1)
  | Lever2 => got_block o && negb (lever_fails o Lever1)
              && negb (lever_fails o Lever2)
  end.

(** The set-up comes to the two [sigaction] calls that count, and one of
    them fails. *)
Definition handler_refused (o : Connection) : bool :=
  got_lever o Lever2
  && (sigaction_fails o DUNGEON_SIGNAL || sigaction_fails o SEMAPHORE_SIGNAL).

(** Every step of the set-up that counts succeeds. *)
Definition connected (o : Connection) : bool :=
  got_lever o Lever2 && negb (handler_refused o).

End Workers.

(* ===================================================================== *)
(** * Properties of the spell decoder *)
(* ===================================================================== *)

Module WizardSpec.
Import CString Wizard.

(** ** Buffers *)

Lemma store_app_at : forall (pre post : list Z) (x v : Z),
  store (pre ++ x :: post) (List.length pre) v = pre ++ v :: post.
Proof.
  induction pre as [|p pre IH]; intros post x v; simpl.
  - reflexivity.
  - now rewrite IH.
Qed.

Lemma Forall_firstn_of : forall (P : Z -> Prop) n l,
  Forall P l -> Forall P (firstn n l).
Proof.
  intros P n l Hl. rewrite <- (firstn_skipn n l) in Hl.
  now apply Forall_app in Hl.
Qed.

Lemma Forall_skipn_of : forall (P : Z -> Prop) n l,
  Forall P l -> Forall P (skipn n l).
Proof.
  intros P n l Hl. rewrite <- (firstn_skipn n l) in Hl.
  now apply Forall_app in Hl.
Qed.

Lemma memset_whole : forall (buf : list Z) (v : Z),
  memset buf v (List.length buf) = repeat v (List.length buf).
Proof.
  intros buf v. unfold memset.
  rewrite Nat.min_id, skipn_all. apply app_nil_r.
Qed.

Lemma strlen_no_nul : forall l, Forall (fun b => b <> 0) l ->
  strlen l = List.length l.
Proof.
  induction 1 as [|b l Hb _ IH]; simpl.
  - reflexivity.
  - destruct (Z.eqb_spec b 0); [contradiction | now rewrite IH].
Qed.

Lemma c_string_no_nul : forall l, Forall (fun b => b <> 0) l -> c_string l = l.
Proof.
  intros l Hl. unfold c_string. rewrite strlen_no_nul by assumption.
  apply firstn_all.
Qed.

Lemma c_string_terminated : forall l rest, Forall (fun b => b <> 0) l ->
  c_string (l ++ 0 :: rest) = l.
Proof.
  unfold c_string. induction 1 as [|b l Hb _ IH]; simpl.
  - reflexivity.
  - destruct (Z.eqb_spec b 0); [contradiction | simpl; now rewrite IH].
Qed.

Lemma c_string_nonzero : forall l, Forall (fun b => b <> 0) (c_string l).
Proof.
  unfold c_string. induction l as [|b l IH]; simpl.
  - constructor.
  - destruct (Z.eqb_spec b 0); simpl; constructor; assumption.
Qed.

Lemma c_string_bytes : forall l, is_bytes l -> no_nul (c_string l).
Proof.
  unfold is_bytes, no_nul, c_string. induction 1 as [|b l Hb _ IH]; simpl.
  - constructor.
  - destruct (Z.eqb_spec b 0); simpl; constructor; [lia | assumption].
Qed.

Lemma c_string_length : forall l, List.length (c_string l) = strlen l.
Proof.
  unfold c_string. induction l as [|b l IH]; simpl.
  - reflexivity.
  - destruct (Z.eqb_spec b 0); simpl; [reflexivity | now rewrite IH].
Qed.

(** ** One character *)

(** The C expression, with its truncating remainders and its bias of 26, is
    the shift backward by [key mod 26] within the letter's case. *)
Lemma rem_bias_mod : forall x key, 0 <= x < 26 ->
  Z.rem (x - Z.rem key 26 + 26) 26 = (x - key mod 26) mod 26.
Proof.
  intros x key Hx.
  assert (Hr : -26 < Z.rem key 26 < 26).
  { pose proof (Z.rem_bound_abs key 26 ltac:(lia)). lia. }
  rewrite Z.rem_mod_nonneg by lia.
  pose proof (Z.quot_rem' key 26) as Hq.
  rewrite Zminus_mod_idemp_r.
  set (q := Z.quot key 26) in Hq. set (r := Z.rem key 26) in *.
  replace (x - r + 26) with (x - key + (1 + q) * 26) by lia.
  apply Z_mod_plus_full.
Qed.

Lemma decode_byte : forall char_signed key b, 0 <= b < 256 ->
  store_char (decode_char key (char_val char_signed b))
  = shift_back (key mod 26) b.
Proof.
  intros sg key b Hb. unfold decode_char, shift_back, char_val, store_char.
  destruct (Z.leb_spec 128 b) as [Hhi|Hlo].
  - (* not ASCII: never a letter, whatever the sign of char *)
    assert (isupper b = false) as -> by (unfold isupper; lia).
    assert (islower b = false) as -> by (unfold islower; lia).
    destruct sg; cbn [andb].
    + assert (isalpha (b - 256) = false) as ->
        by (unfold isalpha, isupper, islower; lia).
      replace (b - 256) with (b + (-1) * 256) by lia.
      rewrite Z_mod_plus_full. apply Z.mod_small; lia.
    + assert (isalpha b = false) as ->
        by (unfold isalpha, isupper, islower; lia).
      apply Z.mod_small; lia.
  - rewrite andb_false_r. unfold isalpha.
    destruct (isupper b) eqn:Hu; cbn [orb].
    + assert (islower b = false) as -> by (unfold isupper, islower in *; lia).
      unfold isupper in Hu.
      rewrite rem_bias_mod by lia.
      pose proof (Z.mod_pos_bound (b - 65 - key mod 26) 26 ltac:(lia)).
      apply Z.mod_small; lia.
    + destruct (islower b) eqn:Hl.
      * unfold islower in Hl.
        rewrite rem_bias_mod by lia.
        pose proof (Z.mod_pos_bound (b - 97 - key mod 26) 26 ltac:(lia)).
        apply Z.mod_small; lia.
      * apply Z.mod_small; lia.
Qed.

Lemma shift_back_zero : forall k, shift_back k 0 = 0.
Proof. reflexivity. Qed.

Lemma shift_back_case : forall k b,
  isupper (shift_back k b) = isupper b /\ islower (shift_back k b) = islower b.
Proof.
  intros k b. unfold shift_back.
  destruct (isupper b) eqn:Hu.
  - pose proof (Z.mod_pos_bound (b - 65 - k) 26 ltac:(lia)).
    unfold isupper, islower in *. lia.
  - destruct (islower b) eqn:Hl.
    + pose proof (Z.mod_pos_bound (b - 97 - k) 26 ltac:(lia)).
      unfold isupper, islower in *. lia.
    + auto.
Qed.

Lemma shift_forward_case : forall k b,
  isupper (shift_forward k b) = isupper b
  /\ islower (shift_forward k b) = islower b.
Proof.
  intros k b. unfold shift_forward.
  destruct (isupper b) eqn:Hu.
  - pose proof (Z.mod_pos_bound (b - 65 + k) 26 ltac:(lia)).
    unfold isupper, islower in *. lia.
  - destruct (islower b) eqn:Hl.
    + pose proof (Z.mod_pos_bound (b - 97 + k) 26 ltac:(lia)).
      unfold isupper, islower in *. lia.
    + auto.
Qed.

Lemma shift_back_range : forall k b, 0 < b < 256 -> 0 < shift_back k b < 256.
Proof.
  intros k b Hb. unfold shift_back.
  destruct (isupper b) eqn:Hu.
  - pose proof (Z.mod_pos_bound (b - 65 - k) 26 ltac:(lia)). lia.
  - destruct (islower b) eqn:Hl.
    + pose proof (Z.mod_pos_bound (b - 97 - k) 26 ltac:(lia)). lia.
    + lia.
Qed.

Lemma shift_forward_range : forall k b, 0 < b < 256 ->
  0 < shift_forward k b < 256.
Proof.
  intros k b Hb. unfold shift_forward.
  destruct (isupper b) eqn:Hu.
  - pose proof (Z.mod_pos_bound (b - 65 + k) 26 ltac:(lia)). lia.
  - destruct (islower b) eqn:Hl.
    + pose proof (Z.mod_pos_bound (b - 97 + k) 26 ltac:(lia)). lia.
    + lia.
Qed.

Lemma shift_back_forward : forall k b, shift_back k (shift_forward k b) = b.
Proof.
  intros k b. destruct (shift_forward_case k b) as [Hu Hl].
  unfold shift_back. rewrite Hu, Hl. unfold shift_forward.
  destruct (isupper b) eqn:Eu.
  - replace (65 + (b - 65 + k) mod 26 - 65 - k) with ((b - 65 + k) mod 26 - k) by lia.
    rewrite Zminus_mod_idemp_l.
    replace (b - 65 + k - k) with (b - 65) by lia.
    unfold isupper in Eu. rewrite Z.mod_small; lia.
  - destruct (islower b) eqn:El.
    + replace (97 + (b - 97 + k) mod 26 - 97 - k) with ((b - 97 + k) mod 26 - k) by lia.
      rewrite Zminus_mod_idemp_l.
      replace (b - 97 + k - k) with (b - 97) by lia.
      unfold islower in El. rewrite Z.mod_small; lia.
    + reflexivity.
Qed.


(** ** The loop and the function *)

(** The loop writes the decoded characters one after the other from
    [decoded_index] on, as many as the string has and the buffer takes. *)
Lemma decode_loop_spec : forall char_signed key max_len rest pre zeros,
  Z.of_nat (List.length pre + zeros) = max_len ->
  let k := Nat.min (List.length rest)
             (Z.to_nat (max_len - 1) - List.length pre) in
  decode_loop char_signed key max_len rest (pre ++ repeat 0 zeros)
    (List.length pre)
  = (pre ++ map (fun b => store_char (decode_char key (char_val char_signed b)))
             (firstn k rest) ++ repeat 0 (zeros - k),
     (List.length pre + k)%nat).
Proof.
  intros sg key max_len rest. induction rest as [|b rest IH];
    intros pre zeros Hlen k; subst k.
  - simpl. now rewrite Nat.sub_0_r, Nat.add_0_r.
  - cbn [decode_loop].
    destruct (Z.ltb_spec (Z.of_nat (List.length pre)) (max_len - 1)) as [Hroom|Hfull].
    + destruct zeros as [|zeros]; [lia|].
      cbn [repeat]. rewrite store_app_at.
      specialize (IH (pre ++ [store_char (decode_char key (char_val sg b))]) zeros).
      rewrite length_app in IH. cbn [List.length] in IH.
      rewrite <- app_assoc in IH. cbn [app] in IH.
      replace (List.length pre + 1)%nat with (S (List.length pre)) in IH by lia.
      rewrite IH by lia. clear IH.
      replace (Nat.min (List.length (b :: rest))
                 (Z.to_nat (max_len - 1) - List.length pre))
        with (S (Nat.min (List.length rest)
                   (Z.to_nat (max_len - 1) - S (List.length pre))))
        by (cbn [List.length]; lia).
      cbn [firstn map]. rewrite <- app_assoc. cbn [app].
      rewrite Nat.sub_succ. f_equal. lia.
    + replace (Nat.min (List.length (b :: rest))
                 (Z.to_nat (max_len - 1) - List.length pre)) with O by lia.
      cbn [firstn map app]. now rewrite Nat.sub_0_r, Nat.add_0_r.
Qed.

(** The contents of the output buffer when the function returns. *)
Lemma decode_caesar_cipher_buffer : forall char_signed encoded decoded max_len,
  0 < max_len -> List.length decoded = Z.to_nat max_len ->
  let key := char_val char_signed (nth 0 encoded 0) in
  let k := Nat.min (strlen encoded - 1) (Z.to_nat (max_len - 1)) in
  decode_caesar_cipher char_signed encoded decoded max_len
  = map (fun b => store_char (decode_char key (char_val char_signed b)))
      (firstn k (skipn 1 (c_string encoded)))
    ++ repeat 0 (Z.to_nat max_len - k).
Proof.
  intros sg encoded decoded max_len Hpos Hlen key k.
  unfold decode_caesar_cipher.
  destruct (Z.leb_spec max_len 0) as [|_]; [lia|].
  rewrite <- Hlen, memset_whole, Hlen.
  assert (Hn : exists n, Z.to_nat max_len = S n) by (exists (Z.to_nat max_len - 1)%nat; lia).
  destruct Hn as [n Hn].
  destruct (Nat.ltb_spec 0 (strlen encoded)) as [Hne|He].
  - pose proof (decode_loop_spec sg key max_len
                  (skipn 1 (firstn (strlen encoded) encoded)) [] (Z.to_nat max_len)) as L.
    cbn [List.length app Nat.add] in L. rewrite Nat.sub_0_r in L.
    fold key. rewrite L by lia. clear L.
    assert (Hk : Nat.min (List.length (skipn 1 (firstn (strlen encoded) encoded)))
                   (Z.to_nat (max_len - 1)) = k).
    { subst k. rewrite length_skipn. fold (c_string encoded).
      now rewrite c_string_length. }
    rewrite Hk. fold (c_string encoded).
    set (out := map _ (firstn k (skipn 1 (c_string encoded)))).
    assert (Hout : List.length out = k).
    { subst out. rewrite length_map, length_firstn, length_skipn, c_string_length.
      subst k. lia. }
    assert (Hz : exists z, (Z.to_nat max_len - k)%nat = S z)
      by (exists (Z.to_nat max_len - k - 1)%nat; subst k; lia).
    destruct Hz as [z Hz]. rewrite Hz. cbn [repeat].
    rewrite <- Hout at 1. now rewrite store_app_at.
  - assert (Hs : strlen encoded = O) by lia.
    subst k. rewrite Hs. cbn [Nat.sub Nat.min firstn map app].
    rewrite Nat.sub_0_r, Hn. reflexivity.
Qed.

(** The decoded string, for an input of bytes and a buffer of [max_len]
    bytes: the message, cut to [max_len - 1] bytes, shifted back. *)
Lemma decoded_spell_spec : forall char_signed encoded decoded max_len,
  is_bytes encoded -> 0 < max_len -> List.length decoded = Z.to_nat max_len ->
  let key := char_val char_signed (nth 0 encoded 0) in
  decoded_spell char_signed encoded decoded max_len
  = map (shift_back (key mod 26))
      (firstn (Z.to_nat (max_len - 1)) (skipn 1 (c_string encoded))).
Proof.
  intros sg encoded decoded max_len Hb Hpos Hlen key.
  unfold decoded_spell. rewrite decode_caesar_cipher_buffer by assumption.
  fold key.
  set (k := Nat.min (strlen encoded - 1) (Z.to_nat (max_len - 1))).
  assert (Hcut : firstn k (skipn 1 (c_string encoded))
                 = firstn (Z.to_nat (max_len - 1)) (skipn 1 (c_string encoded))).
  { subst k. rewrite <- (c_string_length encoded), <- (length_skipn 1).
    rewrite Nat.min_comm, <- firstn_firstn.
    now rewrite (firstn_all (skipn 1 (c_string encoded))). }
  rewrite Hcut.
  assert (Hmsg : no_nul (firstn (Z.to_nat (max_len - 1)) (skipn 1 (c_string encoded)))).
  { apply Forall_firstn_of, Forall_skipn_of, c_string_bytes, Hb. }
  clear Hcut.
  set (msg := firstn (Z.to_nat (max_len - 1)) (skipn 1 (c_string encoded))) in *.
  assert (Hmap : map (fun b => store_char (decode_char key (char_val sg b))) msg
                 = map (shift_back (key mod 26)) msg).
  { apply map_ext_in. intros b Hin. apply decode_byte.
    pose proof (proj1 (Forall_forall _ _) Hmsg b Hin). simpl in *. lia. }
  rewrite Hmap.
  assert (Hz : exists z, (Z.to_nat max_len - k)%nat = S z)
    by (exists (Z.to_nat max_len - k - 1)%nat; subst k; lia).
  destruct Hz as [z ->]. cbn [repeat].
  apply c_string_terminated.
  apply Forall_forall. intros c Hin. apply in_map_iff in Hin.
  destruct Hin as [b [<- Hin]].
  pose proof (proj1 (Forall_forall _ _) Hmsg b Hin) as Hr. simpl in Hr.
  pose proof (shift_back_range (key mod 26) b Hr). lia.
Qed.


(** ** The contract of the decoder *)

(** C2, as the code has it.  The input is the string the buffer [encoded]
    holds (its bytes up to the first NUL) and the output buffer has [max_len]
    bytes.  The key is the first byte read as a [char]: the byte itself
    when it is below 128 or [char] is unsigned, the byte minus 256 when
    [char] is signed and the byte is 128 or more.  The decoded string has
    the length of the message (the input string without its key byte) cut
    to [max_len - 1]; its byte [i] is byte [i] of the message, shifted
    backward by [key mod 26] (the remainder in 0..25) within its case's
    alphabet when it is a letter and copied when it is not; an empty input
    string gives an empty output. *)
Theorem decode_caesar_cipher_correct :
  forall char_signed encoded decoded max_len,
  is_bytes encoded -> 0 < max_len -> List.length decoded = Z.to_nat max_len ->
  let key := char_val char_signed (nth 0 encoded 0) in
  let message := skipn 1 (c_string encoded) in
  let output := decoded_spell char_signed encoded decoded max_len in
  List.length output = Nat.min (strlen encoded - 1) (Z.to_nat (max_len - 1))
  /\ (forall i, (i < List.length output)%nat ->
        nth i output 0 = shift_back (key mod 26) (nth i message 0))
  /\ (forall b, isupper b = true ->
        shift_back (key mod 26) b = 65 + (b - 65 - key mod 26) mod 26
        /\ isupper (shift_back (key mod 26) b) = true)
  /\ (forall b, islower b = true ->
        shift_back (key mod 26) b = 97 + (b - 97 - key mod 26) mod 26
        /\ islower (shift_back (key mod 26) b) = true)
  /\ (forall b, isalpha b = false -> shift_back (key mod 26) b = b)
  /\ (strlen encoded = O -> output = [])
  /\ key = (if char_signed && (128 <=? nth 0 encoded 0)
            then nth 0 encoded 0 - 256 else nth 0 encoded 0)
  /\ 0 <= key mod 26 < 26.
Proof.
  intros sg encoded decoded max_len Hb Hpos Hlen key message output.
  assert (Hout : output = map (shift_back (key mod 26))
                            (firstn (Z.to_nat (max_len - 1)) message))
    by (apply decoded_spell_spec; assumption).
  assert (Hmlen : List.length message = (strlen encoded - 1)%nat)
    by (subst message; now rewrite length_skipn, c_string_length).
  assert (Holen : List.length output
                  = Nat.min (strlen encoded - 1) (Z.to_nat (max_len - 1)))
    by (rewrite Hout, length_map, length_firstn, Hmlen; lia).
  split; [exact Holen|]. split; [|split; [|split; [|split; [|split; [|split]]]]].
  - intros i Hi. rewrite Hout.
    rewrite <- (shift_back_zero (key mod 26)) at 1.
    rewrite map_nth. f_equal.
    rewrite <- (firstn_skipn (Z.to_nat (max_len - 1)) message) at 2.
    rewrite app_nth1; [reflexivity|].
    rewrite length_firstn, Hmlen. lia.
  - intros b Hu. destruct (shift_back_case (key mod 26) b) as [E _].
    rewrite E. split; [|exact Hu]. unfold shift_back. now rewrite Hu.
  - intros b Hl. destruct (shift_back_case (key mod 26) b) as [_ E].
    rewrite E. split; [|exact Hl]. unfold shift_back. rewrite Hl.
    assert (isupper b = false) as -> by (unfold isupper, islower in *; lia).
    reflexivity.
  - intros b Ha. unfold isalpha in Ha. apply orb_false_iff in Ha.
    destruct Ha as [Hu Hl]. unfold shift_back. now rewrite Hu, Hl.
  - intros He. apply length_zero_iff_nil. rewrite Holen, He. reflexivity.
  - reflexivity.
  - apply Z.mod_pos_bound. lia.
Qed.

Lemma decode_caesar_cipher_correct_witness :
  List.length (decoded_spell true (3 :: bytes "Dhoo" ++ [0]) (repeat 0 8) 8)
  = 4%nat.
Proof.
  refine (proj1 (decode_caesar_cipher_correct true
                   (3 :: bytes "Dhoo" ++ [0]) (repeat 0 8) 8 _ _ _)).
  - unfold is_bytes. repeat constructor; simpl; lia.
  - lia.
  - reflexivity.
Defined.

(** C2 as stated fails: the output is not always one byte shorter than the
    input byte sequence.  A key byte 0 ends the string at once, a NUL inside
    the message ends it there, and a message of [max_len] bytes or more is
    cut.  Nor is the shift always the key byte modulo 26: where [char] is
    signed the key byte 200 is read as -56, and "Dhoo" is shifted back by
    22 to "Hlss", not by 200 mod 26 = 18 to "Lpww". *)
Lemma decode_length_counterexample :
  List.length (decoded_spell true (0 :: bytes "Dhoo") (repeat 0 16) 16)
    <> Nat.pred (List.length (0 :: bytes "Dhoo"))
  /\ List.length (decoded_spell true (3 :: 68 :: 0 :: bytes "oo") (repeat 0 16) 16)
    <> Nat.pred (List.length (3 :: 68 :: 0 :: bytes "oo"))
  /\ List.length (decoded_spell true (3 :: bytes "Dhoo") (repeat 0 4) 4)
    <> Nat.pred (List.length (3 :: bytes "Dhoo"))
  /\ decoded_spell true (200 :: bytes "Dhoo") (repeat 0 16) 16
     <> map (shift_back (200 mod 26)) (bytes "Dhoo")
  /\ decoded_spell true (200 :: bytes "Dhoo") (repeat 0 16) 16 = bytes "Hlss"
  /\ map (shift_back (200 mod 26)) (bytes "Dhoo") = bytes "Lpww".
Proof.
  repeat split; vm_compute; (discriminate || reflexivity).
Qed.

(** C1, as the code has it.  For a key byte whose value as a [char] is
    positive (1..127, and up to 255 where [char] is unsigned), a message
    without NUL and an output buffer that takes it: decoding the encoded
    message gives the message back, and encoding that again gives the encoded
    message; a byte that is not a letter is copied by the decoder and by the
    encoder; an empty input gives an empty output. *)
Theorem decode_encode_roundtrip :
  forall char_signed K M decoded max_len,
  0 < K < 256 -> 0 < char_val char_signed K -> no_nul M ->
  Z.of_nat (List.length M) < max_len ->
  List.length decoded = Z.to_nat max_len ->
  decoded_spell char_signed (encode_caesar_cipher K M) decoded max_len = M
  /\ encode_caesar_cipher K
       (decoded_spell char_signed (encode_caesar_cipher K M) decoded max_len)
     = encode_caesar_cipher K M
  /\ (forall key b, 0 <= b < 256 -> isalpha b = false ->
        store_char (decode_char key (char_val char_signed b)) = b
        /\ shift_forward (K mod 26) b = b)
  /\ decoded_spell char_signed [] decoded max_len = [].
Proof.
  intros sg K M decoded max_len HK Hkey HM Hroom Hlen.
  assert (Hdec : decoded_spell sg (encode_caesar_cipher K M) decoded max_len = M).
  { assert (Hfwd : no_nul (map (shift_forward (K mod 26)) M)).
    { unfold no_nul in *. apply Forall_map.
      eapply Forall_impl; [|exact HM]. intros b Hb.
      now apply shift_forward_range. }
    assert (Hnz : Forall (fun b => b <> 0) (encode_caesar_cipher K M)).
    { unfold encode_caesar_cipher. constructor; [lia|].
      eapply Forall_impl; [|exact Hfwd]. simpl. intros; lia. }
    rewrite decoded_spell_spec; try lia.
    - rewrite (c_string_no_nul _ Hnz). unfold encode_caesar_cipher.
      cbn [skipn nth].
      assert (char_val sg K = K) as ->.
      { unfold char_val in *. destruct (sg && (128 <=? K)); lia. }
      rewrite firstn_all2 by (rewrite length_map; lia).
      rewrite map_map. rewrite <- (map_id M) at 2.
      apply map_ext. intros b. apply shift_back_forward.
    - unfold is_bytes, encode_caesar_cipher. constructor; [lia|].
      eapply Forall_impl; [|exact Hfwd]. simpl. intros; lia. }
  split; [exact Hdec|]. split; [now rewrite Hdec|]. split.
  - intros key b Hb Ha. split.
    + rewrite decode_byte by assumption.
      unfold isalpha in Ha. apply orb_false_iff in Ha. destruct Ha as [Hu Hl].
      unfold shift_back. now rewrite Hu, Hl.
    + unfold isalpha in Ha. apply orb_false_iff in Ha. destruct Ha as [Hu Hl].
      unfold shift_forward. now rewrite Hu, Hl.
  - rewrite decoded_spell_spec; try lia; [|constructor].
    unfold c_string. cbn [strlen firstn skipn]. now rewrite firstn_nil.
Qed.

Lemma decode_encode_roundtrip_witness :
  decoded_spell true (encode_caesar_cipher 3 (bytes "Open, Sesame!"))
    (repeat 0 32) 32
  = bytes "Open, Sesame!".
Proof.
  refine (proj1 (decode_encode_roundtrip true 3 (bytes "Open, Sesame!")
                   (repeat 0 32) 32 _ _ _ _ _)).
  - lia.
  - reflexivity.
  - unfold no_nul. repeat constructor; simpl; lia.
  - reflexivity.
  - reflexivity.
Defined.

(** C1 as stated fails for some keys and messages: with the key 0 the
    encoded sequence is an empty string for [strlen]; a NUL in the message
    ends the decoding; where [char] is signed a key byte of 128 or more is
    read as a negative number, whose remainder is another shift. *)
Lemma decode_encode_counterexample :
  decoded_spell true (encode_caesar_cipher 0 (bytes "Dhoo")) (repeat 0 16) 16
    <> bytes "Dhoo"
  /\ decoded_spell false (encode_caesar_cipher 0 (bytes "Dhoo")) (repeat 0 16) 16
    <> bytes "Dhoo"
  /\ decoded_spell true (encode_caesar_cipher 3 [68; 0; 111]) (repeat 0 16) 16
    <> [68; 0; 111]
  /\ decoded_spell true (encode_caesar_cipher 200 (bytes "Dhoo")) (repeat 0 16) 16
    <> bytes "Dhoo".
Proof.
  repeat split; vm_compute; discriminate.
Qed.

(** C9, as the code has it.  For the key byte 3 followed by "Dhoo" the
    decoded spell is "Aell": each letter three places back, 'h' to 'e'. *)
Theorem decode_scenario_A :
  forall char_signed decoded max_len,
  5 <= max_len -> List.length decoded = Z.to_nat max_len ->
  decoded_spell char_signed (3 :: bytes "Dhoo") decoded max_len = bytes "Aell".
Proof.
  intros sg decoded max_len Hmax Hlen.
  rewrite decoded_spell_spec; try lia.
  - assert (char_val sg (nth 0 (3 :: bytes "Dhoo") 0) = 3) as ->
      by (destruct sg; reflexivity).
    assert (skipn 1 (c_string (3 :: bytes "Dhoo")) = bytes "Dhoo") as ->
      by reflexivity.
    rewrite firstn_all2 by (simpl; lia).
    reflexivity.
  - unfold is_bytes. repeat constructor; simpl; lia.
Qed.

Lemma decode_scenario_A_witness :
  decoded_spell true (3 :: bytes "Dhoo") (repeat 0 100) 100 = bytes "Aell".
Proof.
  apply (decode_scenario_A true (repeat 0 100) 100).
  - lia.
  - reflexivity.
Defined.

(** C9 as stated fails: the decoded spell is not "Agll", whether [char] is
    signed or not, and not for the digit '3' as key byte either. *)
Lemma decode_scenario_A_counterexample :
  decoded_spell true (3 :: bytes "Dhoo") (repeat 0 100) 100 <> bytes "Agll"
  /\ decoded_spell false (3 :: bytes "Dhoo") (repeat 0 100) 100 <> bytes "Agll"
  /\ decoded_spell true (bytes "3Dhoo") (repeat 0 100) 100 <> bytes "Agll".
Proof.
  repeat split; vm_compute; discriminate.
Qed.

End WizardSpec.

(* ===================================================================== *)
(** * Properties of the Barbarian's attack *)
(* ===================================================================== *)

Module BarbarianSpec.
Import Shared Barbarian.

(** C10.  On DUNGEON_SIGNAL, with [running] true and [exit_flag] unset, the
    handler leaves in [barbarian.attack] the value of [enemy.health], and
    every other field of the shared block as it was. *)
Theorem barbarian_attack_is_enemy_health :
  forall (F : Type) (exit_flag : bool) (d : Dungeon F),
  exit_flag = false -> running d = true ->
  let d' := barbarian_signal_handler exit_flag DUNGEON_SIGNAL d in
  barbarian_attack d' = enemy_health d
  /\ running d' = running d
  /\ dungeonPID d' = dungeonPID d
  /\ enemy_health d' = enemy_health d
  /\ trap_locked d' = trap_locked d
  /\ trap_direction d' = trap_direction d
  /\ rogue_pick d' = rogue_pick d
  /\ barrier_spell d' = barrier_spell d
  /\ wizard_spell d' = wizard_spell d
  /\ treasure d' = treasure d
  /\ spoils d' = spoils d.
Proof.
  intros F exit_flag d Hexit Hrun d'. subst d'.
  unfold barbarian_signal_handler. rewrite Hexit, Hrun.
  cbn [negb]. destruct d; cbn. intuition reflexivity.
Qed.

Lemma barbarian_attack_is_enemy_health_witness :
  barbarian_attack
    (barbarian_signal_handler false DUNGEON_SIGNAL
       (mkDungeon true 4242 0 37 false 0 tt [] [] [0; 0; 0; 0] [0; 0; 0; 0]))
  = 37.
Proof.
  refine (proj1 (barbarian_attack_is_enemy_health unit false
                   (mkDungeon true 4242 0 37 false 0 tt [] []
                      [0; 0; 0; 0] [0; 0; 0; 0]) _ _)).
  - reflexivity.
  - reflexivity.
Defined.

(** With [exit_flag] set or [running] false the handler writes nothing, and
    no other signal reaches the attack. *)
Lemma barbarian_handler_guards :
  forall (F : Type) (exit_flag : bool) (signum : signal) (d : Dungeon F),
  exit_flag = true \/ running d = false \/ signum <> DUNGEON_SIGNAL ->
  barbarian_signal_handler exit_flag signum d = d.
Proof.
  intros F exit_flag signum d H. unfold barbarian_signal_handler.
  destruct exit_flag; [reflexivity|].
  destruct (running d); cbn; [|reflexivity].
  destruct signum; try reflexivity.
  destruct H as [H|[H|H]]; try discriminate. now elim H.
Qed.

End BarbarianSpec.

(* ===================================================================== *)
(** * Properties of the floating-point operations *)
(* ===================================================================== *)

(** What the search needs of [SpecFloat]'s operations: they round the exact
    result to nearest, within one part in [2^prec] of it, and the
    comparison of two values of a format is the comparison of the numbers
    they stand for. *)

Module FloatSpec.
Import CFloat.

(** ** Powers of two *)

Lemma bpow_pos : forall e, (0 < bpow e)%Q.
Proof. intros e. apply Qpower_0_lt. reflexivity. Qed.

Lemma bpow_add : forall a b, (bpow (a + b) == bpow a * bpow b)%Q.
Proof. intros a b. apply Qpower_plus. discriminate. Qed.

Lemma bpow_le : forall a b, a <= b -> (bpow a <= bpow b)%Q.
Proof. intros a b H. apply Qpower_le_compat_l; [exact H | discriminate]. Qed.

Lemma bpow_lt : forall a b, a < b -> (bpow a < bpow b)%Q.
Proof. intros a b H. apply Qpower_lt_compat_l; [exact H | reflexivity]. Qed.

Lemma bpow_Z : forall n, 0 <= n -> (bpow n == inject_Z (2 ^ n))%Q.
Proof. intros n H. unfold bpow. now rewrite Zpower_Qpower. Qed.

Lemma bpow_succ : forall e, (bpow (e + 1) == 2 * bpow e)%Q.
Proof. intros e. rewrite bpow_add. unfold bpow at 2. simpl. ring. Qed.

Lemma bpow_pred : forall e, (2 * bpow (e - 1) == bpow e)%Q.
Proof.
  intros e. rewrite <- bpow_succ. now replace (e - 1 + 1) with e by lia.
Qed.

Lemma F2Q_shift : forall m e d, 0 <= d ->
  (F2Q (m * 2 ^ d) (e - d) == F2Q m e)%Q.
Proof.
  intros m e d Hd. unfold F2Q. rewrite inject_Z_mult, <- (bpow_Z d Hd).
  rewrite <- Qmult_assoc, <- bpow_add. now replace (d + (e - d)) with e by lia.
Qed.

Lemma F2Q_le : forall m1 m2 e, m1 <= m2 -> (F2Q m1 e <= F2Q m2 e)%Q.
Proof.
  intros m1 m2 e H. unfold F2Q. apply Qmult_le_compat_r.
  - now rewrite <- Zle_Qle.
  - apply Qlt_le_weak, bpow_pos.
Qed.

Lemma F2Q_lt : forall m1 m2 e, m1 < m2 -> (F2Q m1 e < F2Q m2 e)%Q.
Proof.
  intros m1 m2 e H. unfold F2Q. apply Qmult_lt_compat_r.
  - apply bpow_pos.
  - now rewrite <- Zlt_Qlt.
Qed.

Lemma F2Q_add : forall m1 m2 e, (F2Q (m1 + m2) e == F2Q m1 e + F2Q m2 e)%Q.
Proof. intros. unfold F2Q. rewrite inject_Z_plus. ring. Qed.

Lemma F2Q_sub : forall m1 m2 e, (F2Q (m1 - m2) e == F2Q m1 e - F2Q m2 e)%Q.
Proof.
  intros. unfold F2Q, Z.sub. rewrite inject_Z_plus, inject_Z_opp. ring.
Qed.

Lemma F2Q_opp : forall m e, (F2Q (- m) e == - F2Q m e)%Q.
Proof. intros. unfold F2Q. rewrite inject_Z_opp. ring. Qed.

Lemma F2Q_pow : forall n e, 0 <= n -> (F2Q (2 ^ n) e == bpow (n + e))%Q.
Proof. intros n e H. unfold F2Q. now rewrite <- bpow_Z, bpow_add. Qed.

(** ** Mantissas *)

Lemma pos_iter_xO : forall d m, Zpos (Pos.iter xO m d) = Zpos m * 2 ^ Zpos d.
Proof.
  intros d m. revert m. induction d using Pos.peano_ind; intros m.
  - simpl. lia.
  - rewrite Pos.iter_succ, Pos2Z.inj_succ, Z.pow_succ_r by lia.
    rewrite Pos2Z.inj_xO, IHd. lia.
Qed.

Lemma digits2_size : forall m, digits2_pos m = Pos.size m.
Proof. induction m; simpl; congruence. Qed.

Lemma digits2_log2 : forall m, Zpos (digits2_pos m) = Z.log2 (Zpos m) + 1.
Proof.
  intros m. rewrite digits2_size. destruct m; simpl; try lia.
Qed.

Lemma digits2_bounds : forall m,
  2 ^ (Zpos (digits2_pos m) - 1) <= Zpos m < 2 ^ Zpos (digits2_pos m).
Proof.
  intros m. rewrite digits2_log2.
  replace (Z.log2 (Zpos m) + 1 - 1) with (Z.log2 (Zpos m)) by lia.
  apply Z.log2_spec. lia.
Qed.

Lemma digits2_unique : forall m d,
  2 ^ (d - 1) <= Zpos m < 2 ^ d -> Zpos (digits2_pos m) = d.
Proof.
  intros m d H. rewrite digits2_log2.
  assert (Hd : 0 < d).
  { destruct (Z.lt_ge_cases 0 d) as [|Hd]; [assumption|].
    assert (2 ^ d <= 2 ^ 0) by (apply Z.pow_le_mono_r; lia). simpl in *. lia. }
  rewrite (Z.log2_unique (Zpos m) (d - 1)); [lia | lia |].
  now replace (Z.succ (d - 1)) with d by lia.
Qed.

Lemma Zdigits2_pos : forall m, Zdigits2 (Zpos m) = Zpos (digits2_pos m).
Proof. reflexivity. Qed.

Lemma digits2_shift : forall m d,
  Zpos (digits2_pos (Pos.iter xO m d)) = Zpos (digits2_pos m) + Zpos d.
Proof.
  intros m d. apply digits2_unique. rewrite pos_iter_xO.
  pose proof (digits2_bounds m) as [H1 H2].
  replace (Zpos (digits2_pos m) + Zpos d - 1)
    with ((Zpos (digits2_pos m) - 1) + Zpos d) by lia.
  rewrite !Z.pow_add_r by lia.
  assert (0 < 2 ^ Zpos d) by (apply Z.pow_pos_nonneg; lia).
  split; nia.
Qed.

(** ** Shifts to the right and rounding *)

Lemma iter_pos_nat : forall (A : Type) (f : A -> A) p x,
  iter_pos f p x = Nat.iter (Pos.to_nat p) f x.
Proof.
  intros A f. induction p as [p IH|p IH|]; intros x; cbn [iter_pos].
  - rewrite !IH, Pos2Nat.inj_xI.
    replace (S (2 * Pos.to_nat p)) with (Pos.to_nat p + S (Pos.to_nat p))%nat
      by lia.
    rewrite Nat.iter_add. f_equal. now rewrite Nat.iter_succ_r.
  - rewrite !IH, Pos2Nat.inj_xO.
    replace (2 * Pos.to_nat p)%nat with (Pos.to_nat p + Pos.to_nat p)%nat by lia.
    now rewrite Nat.iter_add.
  - reflexivity.
Qed.

Lemma shr_1_spec : forall q r s, 0 <= q ->
  let mrs := shr_1 (Build_shr_record q r s) in
  0 <= shr_m mrs
  /\ q = 2 * shr_m mrs + (if shr_r mrs then 1 else 0)
  /\ shr_s mrs = r || s.
Proof.
  intros q r s Hq. destruct q as [|[p|p|]|p]; cbn; try lia; repeat split; lia.
Qed.

Lemma shr_n_spec : forall n m, 0 <= m ->
  let mrs := Nat.iter n shr_1 (Build_shr_record m false false) in
  0 <= shr_m mrs
  /\ exists rem,
       m = shr_m mrs * 2 ^ Z.of_nat n + rem
       /\ located (2 ^ Z.of_nat n) rem (shr_r mrs) (shr_s mrs).
Proof.
  induction n as [|n IH]; intros m Hm.
  - cbn. split; [exact Hm|]. exists 0. unfold located. lia.
  - cbv zeta. rewrite Nat.iter_succ. specialize (IH m Hm). cbv zeta in IH.
    destruct (Nat.iter n shr_1 (Build_shr_record m false false)) as [q r s].
    cbn [shr_m shr_r shr_s] in IH. destruct IH as (Hq & rem & Hrem & Hloc).
    destruct (shr_1_spec q r s Hq) as (Hq2 & Hqb & Hs).
    destruct (shr_1 (Build_shr_record q r s)) as [q2 b s2].
    cbn [shr_m shr_r shr_s] in *. subst s2. split; [exact Hq2|].
    rewrite Nat2Z.inj_succ, Z.pow_succ_r by lia.
    set (P := 2 ^ Z.of_nat n) in *.
    assert (HP : 0 < P) by (apply Z.pow_pos_nonneg; lia).
    exists (rem + P * (if b then 1 else 0)).
    unfold located in *. destruct Hloc as [Hr Hloc].
    destruct b, r, s; cbn [orb]; nia.
Qed.

Lemma round_nearest_even_spec : forall P q rem r s,
  0 < P -> located P rem r s ->
  let R := round_nearest_even q (loc_of_shr_record (Build_shr_record q r s)) in
  q <= R <= q + 1
  /\ 2 * Z.abs (R * P - (q * P + rem)) <= P
  /\ (rem = 0 -> R = q).
Proof.
  intros P q rem r s HP [Hr Hloc]. cbv zeta.
  destruct r, s; cbn [loc_of_shr_record round_nearest_even];
    try destruct (Z.even q); repeat split; try lia; nia.
Qed.

(** ** Values *)

Lemma sf_value_finite : forall s m e,
  (sf_value (S754_finite s m e) == F2Q (cond_Zopp s (Zpos m)) e)%Q.
Proof.
  intros s m e. unfold sf_value, F2Q.
  set (z := cond_Zopp s (Zpos m)). destruct e as [|p|p].
  - unfold bpow. cbn. rewrite Z.mul_1_r. ring.
  - rewrite inject_Z_mult, bpow_Z by lia. reflexivity.
  - change (Pos.shiftl 1 (Npos p)) with (Pos.iter xO 1%positive p).
    rewrite Qmake_Qdiv, pos_iter_xO, Z.mul_1_l.
    rewrite <- bpow_Z by lia. unfold Qdiv, bpow.
    change (Zneg p) with (- Zpos p). now rewrite Qpower_opp.
Qed.

Lemma sf_value_zero : forall s, sf_value (S754_zero s) = 0%Q.
Proof. reflexivity. Qed.

Lemma F2Q_abs : forall m e, (Qabs (F2Q m e) == F2Q (Z.abs m) e)%Q.
Proof.
  intros m e. unfold F2Q. rewrite Qabs_Qmult.
  rewrite (Qabs_pos (bpow e)) by (apply Qlt_le_weak, bpow_pos).
  apply Qmult_comp; [|reflexivity].
  destruct m; reflexivity.
Qed.

Lemma F2Q_digits : forall m e,
  (bpow (Zpos (digits2_pos m) - 1 + e) <= F2Q (Zpos m) e
   /\ F2Q (Zpos m) e < bpow (Zpos (digits2_pos m) + e))%Q.
Proof.
  intros m e. pose proof (digits2_bounds m) as [H1 H2].
  rewrite <- !F2Q_pow by lia. split; [apply F2Q_le | apply F2Q_lt]; lia.
Qed.

Lemma bpow_lt_inv : forall a b, (bpow a < bpow b)%Q -> a < b.
Proof.
  intros a b H. apply Qpower_lt_compat_l_inv with (q := 2%Q);
    [exact H | reflexivity].
Qed.

Lemma F2Q_pos : forall m e, (0 < F2Q (Zpos m) e)%Q.
Proof.
  intros m e. setoid_replace 0%Q with (F2Q 0 e) by (unfold F2Q; ring).
  apply F2Q_lt. lia.
Qed.

Lemma sf_value_pos : forall m e, (0 < sf_value (S754_finite false m e))%Q.
Proof. intros. rewrite sf_value_finite. apply F2Q_pos. Qed.

Lemma sf_value_neg : forall m e, (sf_value (S754_finite true m e) < 0)%Q.
Proof.
  intros. rewrite sf_value_finite. cbn [cond_Zopp].
  change (- Zpos m) with (Z.opp (Zpos m)). rewrite F2Q_opp.
  pose proof (F2Q_pos m e). lra.
Qed.

Section Rounding.
Variables prec emax : Z.
Hypothesis Hprec : 0 < prec.
Hypothesis Hemax : prec < emax.

Local Abbreviation fexp := (SpecFloat.fexp prec emax).
Local Abbreviation emin := (SpecFloat.emin prec emax).

Lemma shl_align_spec : forall mx ex ex',
  snd (shl_align mx ex ex') = Z.min ex ex'
  /\ Zpos (fst (shl_align mx ex ex'))
     = Zpos mx * 2 ^ (ex - snd (shl_align mx ex ex')).
Proof.
  intros mx ex ex'. unfold shl_align.
  destruct (ex' - ex) as [|d|d] eqn:Hd; cbn [fst snd].
  - split; [lia|]. rewrite Z.sub_diag. cbn. lia.
  - split; [lia|]. rewrite Z.sub_diag. cbn. lia.
  - split; [lia|]. rewrite pos_iter_xO. f_equal. f_equal. lia.
Qed.

Lemma binary_round_aux_canonical : forall sx m e,
  fexp (Zpos (digits2_pos m) + e) = e ->
  binary_round_aux prec emax sx (Zpos m) e loc_Exact
  = if e <=? emax - prec then S754_finite sx m e else S754_infinity sx.
Proof.
  intros sx m e H. unfold binary_round_aux, shr_fexp.
  rewrite Zdigits2_pos, H, Z.sub_diag.
  cbn [shr shr_record_of_loc shr_m shr_r shr_s loc_of_shr_record
       round_nearest_even Zdigits2].
  rewrite H, Z.sub_diag.
  cbn [shr shr_record_of_loc shr_m]. reflexivity.
Qed.

Lemma shr_fexp_rest : forall R E,
  0 <= R -> fexp (Zdigits2 R + E) = E ->
  shr_fexp prec emax R E loc_Exact = (Build_shr_record R false false, E).
Proof.
  intros R E HR H. unfold shr_fexp. rewrite H, Z.sub_diag. reflexivity.
Qed.

Lemma Zdigits2_small : forall R d,
  0 <= d -> 0 <= R < 2 ^ d -> Zdigits2 R <= d.
Proof.
  intros R d Hd [H0 H1]. destruct R as [|p|p]; cbn; try lia.
  pose proof (digits2_bounds p) as [Hp _].
  destruct (Z.le_gt_cases (Zpos (digits2_pos p)) d) as [|Hgt]; [assumption|].
  assert (2 ^ d <= 2 ^ (Zpos (digits2_pos p) - 1))
    by (apply Z.pow_le_mono_r; lia).
  lia.
Qed.

Lemma binary_round_correct : forall sx mx ex,
  Zpos (digits2_pos mx) + ex < emax ->
  let E := fexp (Zpos (digits2_pos mx) + ex) in
  exists m' e',
    binary_round prec emax sx mx ex
    = match m' with Zpos p => S754_finite sx p e' | _ => S754_zero sx end
    /\ 0 <= m'
    /\ match m' with Zpos p => bounded prec emax p e' = true | _ => True end
    /\ (E <= ex -> m' = Zpos mx * 2 ^ (ex - E) /\ e' = E)
    /\ (ex < E ->
        2 * Z.abs (m' * 2 ^ (e' - ex) - Zpos mx) <= 2 ^ (E - ex) /\ E <= e')
    /\ (ex < E -> (2 ^ (E - ex) | Zpos mx) -> m' * 2 ^ (e' - ex) = Zpos mx).
Proof.
  intros sx mx ex Hsmall E.
  pose proof (digits2_bounds mx) as [Hlo Hhi].
  set (dg := Zpos (digits2_pos mx)) in *.
  assert (Hdg : 0 < dg) by (unfold dg; lia).
  assert (HE : E <= emax - prec - 1)
    by (unfold E, SpecFloat.fexp, SpecFloat.emin; lia).
  unfold binary_round. fold dg. fold E.
  destruct (shl_align_spec mx ex E) as [Hez Hmz].
  destruct (shl_align mx ex E) as [mz ez]. cbn [fst snd] in Hez, Hmz.
  destruct (Z.le_gt_cases E ex) as [Hle|Hgt].
  - (* enough room: the mantissa is shifted to the left *)
    assert (Hez' : ez = E) by lia. clear Hez. subst ez.
    assert (Hdz : Zpos (digits2_pos mz) = dg + (ex - E)).
    { apply digits2_unique. rewrite Hmz.
      replace (dg + (ex - E) - 1) with ((dg - 1) + (ex - E)) by lia.
      rewrite !Z.pow_add_r by lia.
      assert (0 < 2 ^ (ex - E)) by (apply Z.pow_pos_nonneg; lia).
      split; [apply Z.mul_le_mono_nonneg_r; lia
             | apply Z.mul_lt_mono_pos_r; lia]. }
    rewrite binary_round_aux_canonical
      by (rewrite Hdz; replace (dg + (ex - E) + E) with (dg + ex) by lia;
          reflexivity).
    replace (E <=? emax - prec) with true by (symmetry; apply Z.leb_le; lia).
    exists (Zpos mz), E. repeat split; try lia.
    unfold bounded, canonical_mantissa. rewrite Hdz.
    replace (dg + (ex - E) + E) with (dg + ex) by lia. fold E.
    rewrite Z.eqb_refl. apply Z.leb_le. lia.
  - (* the mantissa is shifted to the right and rounded *)
    assert (Hez' : ez = ex) by lia. clear Hez. subst ez.
    assert (mz = mx).
    { replace (ex - ex) with 0 in Hmz by lia. cbn in Hmz. lia. }
    subst mz.
    unfold binary_round_aux. unfold shr_fexp at 1.
    rewrite Zdigits2_pos. fold dg. fold E.
    destruct (E - ex) as [|p|p] eqn:Hp; try lia.
    unfold shr. rewrite iter_pos_nat. cbn [shr_record_of_loc].
    destruct (shr_n_spec (Pos.to_nat p) (Zpos mx) ltac:(lia))
      as (Hq & rem & Hrem & Hloc).
    rewrite positive_nat_Z in Hrem, Hloc.
    destruct (Nat.iter (Pos.to_nat p) shr_1
                (Build_shr_record (Zpos mx) false false)) as [q r s].
    cbn [shr_m shr_r shr_s] in *.
    set (P := 2 ^ Zpos p) in *.
    assert (HP : 0 < P) by (apply Z.pow_pos_nonneg; lia).
    destruct (round_nearest_even_spec P q rem r s HP Hloc)
      as (HR & Herr & Hrem0).
    set (R := round_nearest_even q
                (loc_of_shr_record (Build_shr_record q r s))) in *.
    replace (ex + Zpos p) with E by lia.
    assert (HlocR : 0 <= rem < P) by (destruct Hloc; assumption).
    assert (Hdiv : (P | Zpos mx) -> rem = 0 /\ R = q).
    { intros [c Hc].
      assert (Hcq : rem = (c - q) * P) by lia.
      assert (rem = 0)
        by (destruct (Z.lt_trichotomy c q) as [Hlt|[Heq|Hlt]];
            [nia | subst c; lia | nia]).
      split; [assumption | now apply Hrem0]. }
    assert (Hprec1 : 0 < 2 ^ (prec - 1)) by (apply Z.pow_pos_nonneg; lia).
    assert (Hpp : 2 ^ prec = 2 * 2 ^ (prec - 1)).
    { rewrite <- Z.pow_succ_r by lia. f_equal. lia. }
    destruct (Z.le_gt_cases emin (dg + ex - prec)) as [Hnorm|Hsub].
    + (* normal range *)
      assert (HEn : E = dg + ex - prec)
        by (unfold E, SpecFloat.fexp; fold emin; lia).
      assert (Hdgp : dg = prec + Zpos p) by lia.
      assert (Hq1 : 2 ^ (prec - 1) <= q < 2 ^ prec).
      { replace (dg - 1) with ((prec - 1) + Zpos p) in Hlo by lia.
        rewrite Hdgp in Hhi. rewrite Z.pow_add_r in Hlo, Hhi by lia.
        fold P in Hlo, Hhi. split; nia. }
      destruct (Z.eq_dec R (2 ^ prec)) as [Hcarry|Hno].
      * (* the rounding carries into one more digit *)
        assert (HdR : Zdigits2 R = prec + 1).
        { destruct R as [|pR|pR] eqn:ER; try lia.
          cbn. apply digits2_unique.
          replace (prec + 1 - 1) with prec by lia.
          rewrite Z.pow_add_r by lia. cbn. lia. }
        unfold shr_fexp. rewrite HdR.
        replace (fexp (prec + 1 + E) - E) with 1
          by (unfold SpecFloat.fexp; fold emin; lia).
        unfold shr. cbn [iter_pos]. cbn [shr_record_of_loc].
        destruct (shr_1_spec R false false ltac:(lia)) as (Hh0 & Hh & _).
        destruct (shr_1 (Build_shr_record R false false)) as [h hb hs].
        cbn [shr_m shr_r] in *.
        assert (Hhv : h = 2 ^ (prec - 1)) by (destruct hb; lia).
        destruct h as [|ph|ph]; try lia.
        replace (E + 1 <=? emax - prec) with true
          by (symmetry; apply Z.leb_le; lia).
        exists (Zpos ph), (E + 1). repeat split; try lia.
        -- unfold bounded, canonical_mantissa.
           rewrite (digits2_unique ph prec) by lia.
           replace (fexp (prec + (E + 1))) with (E + 1)
             by (unfold SpecFloat.fexp; fold emin; lia).
           rewrite Z.eqb_refl. apply Z.leb_le. lia.
        -- replace (E + 1 - ex) with (Z.succ (Zpos p)) by lia.
           rewrite Z.pow_succ_r by lia. fold P.
           rewrite Hhv. replace (2 ^ (prec - 1) * (2 * P)) with (R * P) by lia.
           rewrite Hrem. lia.
        -- intros _ Hd. destruct (Hdiv Hd). lia.
      * assert (HR1 : 2 ^ (prec - 1) <= R < 2 ^ prec) by lia.
        destruct R as [|pR|pR] eqn:ER; try lia.
        assert (HdR : Zpos (digits2_pos pR) = prec)
          by (apply digits2_unique; lia).
        rewrite shr_fexp_rest;
          [| lia | rewrite Zdigits2_pos, HdR; unfold SpecFloat.fexp;
                   fold emin; lia].
        cbn [shr_m].
        replace (E <=? emax - prec) with true
          by (symmetry; apply Z.leb_le; lia).
        exists (Zpos pR), E. repeat split; try lia.
        -- unfold bounded, canonical_mantissa. rewrite HdR.
           replace (fexp (prec + E)) with E
             by (unfold SpecFloat.fexp; fold emin; lia).
           rewrite Z.eqb_refl. apply Z.leb_le. lia.
        -- replace (E - ex) with (Zpos p) by lia. fold P. rewrite Hrem. lia.
        -- intros _ Hd. destruct (Hdiv Hd).
           replace (E - ex) with (Zpos p) by lia. fold P. lia.
    + (* subnormal range *)
      assert (HEs : E = emin) by (unfold E, SpecFloat.fexp; fold emin; lia).
      assert (Hq1 : 0 <= q < 2 ^ (prec - 1)).
      { split; [lia|].
        destruct (Z.le_gt_cases dg (Zpos p)) as [Hs|Hl].
        - assert (2 ^ dg <= P) by (apply Z.pow_le_mono_r; lia). nia.
        - assert (2 ^ dg <= 2 ^ (prec - 1) * P).
          { unfold P. rewrite <- Z.pow_add_r by lia.
            apply Z.pow_le_mono_r; lia. }
          nia. }
      assert (HR1 : 0 <= R < 2 ^ prec) by lia.
      assert (HdR : Zdigits2 R <= prec) by (apply Zdigits2_small; lia).
      assert (HdR0 : 0 <= Zdigits2 R) by (destruct R; cbn; lia).
      rewrite shr_fexp_rest;
        [| lia | unfold SpecFloat.fexp; fold emin; lia].
      cbn [shr_m].
      replace (E <=? emax - prec) with true
        by (symmetry; apply Z.leb_le; lia).
      exists R, E. destruct R as [|pR|pR] eqn:ER; try lia.
      * repeat split; try lia.
        intros _ Hd. destruct (Hdiv Hd).
        replace (E - ex) with (Zpos p) by lia. fold P. lia.
      * repeat split; try lia.
        -- unfold bounded, canonical_mantissa.
           cbn [Zdigits2] in HdR.
           replace (fexp (Zpos (digits2_pos pR) + E)) with E
             by (unfold SpecFloat.fexp; fold emin; lia).
           rewrite Z.eqb_refl. apply Z.leb_le. lia.
        -- replace (E - ex) with (Zpos p) by lia. fold P. rewrite Hrem. lia.
        -- intros _ Hd. destruct (Hdiv Hd).
           replace (E - ex) with (Zpos p) by lia. fold P. lia.
Qed.

End Rounding.

Section Normalize.
Variables prec emax : Z.
Hypothesis Hprec : 0 < prec.
Hypothesis Hemax : prec < emax.

Local Abbreviation fexp := (SpecFloat.fexp prec emax).
Local Abbreviation emin := (SpecFloat.emin prec emax).

(** [binary_round] rounds the magnitude [m * 2^ez] to nearest and gives it
    the sign [sx]. *)
Lemma binary_round_value : forall sx m ez,
  (F2Q (Zpos m) ez < bpow (emax - 1))%Q ->
  exists y : Q,
    finite_in prec emax (binary_round prec emax sx m ez) = true
    /\ (sf_value (binary_round prec emax sx m ez) == if sx then - y else y)%Q
    /\ (Qabs (y - F2Q (Zpos m) ez)
        <= bpow (- prec) * F2Q (Zpos m) ez + bpow (emin - 1))%Q
    /\ (emin <= ez ->
        (Qabs (y - F2Q (Zpos m) ez) <= bpow (- prec) * F2Q (Zpos m) ez)%Q)
    /\ (forall k, 0 <= k -> fexp (Zpos (digits2_pos m) + ez) <= ez + k ->
        (2 ^ k | Zpos m) -> (y == F2Q (Zpos m) ez)%Q).
Proof.
  intros sx m ez Hsmall.
  pose proof (bpow_pos (emin - 1)) as Hpe.
  pose proof (bpow_pos (- prec)) as Hpp.
  pose proof (F2Q_digits m ez) as [Hd1 Hd2].
  assert (Hs : Zpos (digits2_pos m) + ez < emax).
  { assert (Hlt : (bpow (Zpos (digits2_pos m) - 1 + ez) < bpow (emax - 1))%Q)
      by lra.
    apply bpow_lt_inv in Hlt. lia. }
  destruct (binary_round_correct prec emax Hprec Hemax sx m ez Hs)
    as (m' & e' & -> & Hm' & Hb & Hex & Hrnd & Hdiv).
  set (E := fexp (Zpos (digits2_pos m) + ez)) in *.
  exists (F2Q m' e').
  assert (Hnn : (0 <= bpow (- prec) * F2Q (Zpos m) ez)%Q).
  { pose proof (bpow_pos (Zpos (digits2_pos m) - 1 + ez)).
    apply Qmult_le_0_compat; lra. }
  assert (Herr : ez < E ->
                 (2 * Qabs (F2Q m' e' - F2Q (Zpos m) ez) <= bpow E)%Q).
  { intros Hlt. destruct (Hrnd Hlt) as [Hz He'].
    rewrite <- (F2Q_shift m' e' (e' - ez)) by lia.
    replace (e' - (e' - ez)) with ez by lia.
    rewrite <- F2Q_sub, F2Q_abs.
    replace E with ((E - ez) + ez) at 1 by lia.
    rewrite <- F2Q_pow by lia.
    setoid_replace (2 * F2Q (Z.abs (m' * 2 ^ (e' - ez) - Zpos m)) ez)%Q
      with (F2Q (2 * Z.abs (m' * 2 ^ (e' - ez) - Zpos m)) ez)
      by (unfold F2Q; rewrite inject_Z_mult; ring).
    apply F2Q_le. exact Hz. }
  assert (Hexact : E <= ez -> (F2Q m' e' == F2Q (Zpos m) ez)%Q).
  { intros Hle. destruct (Hex Hle) as [-> ->].
    rewrite <- (F2Q_shift (Zpos m) ez (ez - E)) by lia.
    now replace (ez - (ez - E)) with E by lia. }
  assert (Hrel : E = Zpos (digits2_pos m) + ez - prec ->
                 (bpow E <= 2 * (bpow (- prec) * F2Q (Zpos m) ez))%Q).
  { intros HE. rewrite HE.
    replace (Zpos (digits2_pos m) + ez - prec)
      with ((- prec) + ((Zpos (digits2_pos m) - 1 + ez) + 1)) by lia.
    rewrite bpow_add, bpow_succ.
    assert (bpow (- prec) * (2 * bpow (Zpos (digits2_pos m) - 1 + ez))
            <= bpow (- prec) * (2 * F2Q (Zpos m) ez))%Q.
    { apply Qmult_le_l; [exact Hpp|]. lra. }
    lra. }
  assert (Hself : (Qabs (F2Q (Zpos m) ez - F2Q (Zpos m) ez) == 0)%Q).
  { setoid_replace (F2Q (Zpos m) ez - F2Q (Zpos m) ez)%Q with 0%Q by ring.
    reflexivity. }
  split; [|split; [|split; [|split]]].
  - destruct m' as [|p|p]; try lia; [destruct sx; reflexivity | exact Hb].
  - destruct m' as [|p|p]; try lia.
    + unfold F2Q. destruct sx; cbn; ring.
    + rewrite sf_value_finite. destruct sx; cbn [cond_Zopp].
      * change (- Zpos p) with (Z.opp (Zpos p)). now rewrite F2Q_opp.
      * reflexivity.
  - destruct (Z.le_gt_cases E ez) as [Hle|Hgt].
    + rewrite (Hexact Hle), Hself. lra.
    + specialize (Herr Hgt).
      destruct (Z.le_gt_cases emin (Zpos (digits2_pos m) + ez - prec))
        as [Hn|Hsub].
      * assert (HE : E = Zpos (digits2_pos m) + ez - prec)
          by (unfold E, SpecFloat.fexp; fold emin; lia).
        pose proof (Hrel HE). lra.
      * assert (HE : E = emin)
          by (unfold E, SpecFloat.fexp; fold emin; lia).
        rewrite HE in Herr. rewrite <- (bpow_pred emin) in Herr. lra.
  - intros Hez. destruct (Z.le_gt_cases E ez) as [Hle|Hgt].
    + rewrite (Hexact Hle), Hself. lra.
    + specialize (Herr Hgt).
      assert (HE : E = Zpos (digits2_pos m) + ez - prec)
        by (unfold E, SpecFloat.fexp in *; fold emin in *; lia).
      pose proof (Hrel HE). lra.
  - intros k Hk HEk Hd. destruct (Z.le_gt_cases E ez) as [Hle|Hgt].
    + exact (Hexact Hle).
    + destruct (Hrnd Hgt) as [_ He'].
      assert (Hd' : (2 ^ (E - ez) | Zpos m)).
      { apply Z.divide_trans with (2 ^ k); [|exact Hd].
        exists (2 ^ (k - (E - ez))). rewrite <- Z.pow_add_r by lia.
        f_equal. lia. }
      rewrite <- (F2Q_shift m' e' (e' - ez)) by lia.
      replace (e' - (e' - ez)) with ez by lia.
      now rewrite (Hdiv Hgt Hd').
Qed.

(** [binary_normalize] rounds to nearest: the result is in the format, off
    by at most one part in [2^prec] of the number and half the smallest
    positive value; by no more than the first when the number is a multiple
    of the smallest positive value; and it is the number itself when that
    has few enough digits. *)
Lemma binary_normalize_correct : forall z ez szero,
  (Qabs (F2Q z ez) < bpow (emax - 1))%Q ->
  let r := binary_normalize prec emax z ez szero in
  finite_in prec emax r = true
  /\ (Qabs (sf_value r - F2Q z ez)
      <= bpow (- prec) * Qabs (F2Q z ez) + bpow (emin - 1))%Q
  /\ (emin <= ez ->
      (Qabs (sf_value r - F2Q z ez) <= bpow (- prec) * Qabs (F2Q z ez))%Q)
  /\ (forall k, 0 <= k -> fexp (Zdigits2 z + ez) <= ez + k -> (2 ^ k | z) ->
      (sf_value r == F2Q z ez)%Q).
Proof.
  intros z ez szero Hsmall r.
  pose proof (bpow_pos (emin - 1)) as Hpe.
  pose proof (bpow_pos (- prec)) as Hpp.
  destruct z as [|m|m]; subst r; cbn [binary_normalize].
  - assert (Hzero : (F2Q 0 ez == 0)%Q) by (unfold F2Q; ring).
    rewrite sf_value_zero, Hzero. cbn [finite_in].
    repeat split; try reflexivity; intros;
      setoid_replace (0 - 0)%Q with 0%Q by ring; change (Qabs 0) with 0%Q; lra.
  - rewrite F2Q_abs in *. cbn [Z.abs] in *.
    destruct (binary_round_value false m ez Hsmall)
      as (y & Hfin & Hv & Hgen & Hrel & Hexact).
    rewrite Hv. split; [exact Hfin|]. split; [exact Hgen|].
    split; [exact Hrel|].
    intros k Hk HE Hd. rewrite Hv. exact (Hexact k Hk HE Hd).
  - rewrite F2Q_abs in *. cbn [Z.abs] in *.
    destruct (binary_round_value true m ez Hsmall)
      as (y & Hfin & Hv & Hgen & Hrel & Hexact).
    rewrite Hv. change (Zneg m) with (Z.opp (Zpos m)). rewrite F2Q_opp.
    setoid_replace (- y - - F2Q (Zpos m) ez)%Q
      with (- (y - F2Q (Zpos m) ez))%Q by ring.
    rewrite Qabs_opp. split; [exact Hfin|]. split; [exact Hgen|].
    split; [exact Hrel|].
    intros k Hk HE Hd. rewrite Hv, F2Q_opp, (Hexact k Hk HE); [reflexivity|].
    now apply Z.divide_opp_r in Hd.
Qed.

End Normalize.

Section Operations.
Variables prec emax : Z.
Hypothesis Hprec : 0 < prec.
Hypothesis Hemax : prec < emax.

Local Abbreviation fexp := (SpecFloat.fexp prec emax).
Local Abbreviation emin := (SpecFloat.emin prec emax).

Lemma bounded_spec : forall m e,
  bounded prec emax m e = true ->
  fexp (Zpos (digits2_pos m) + e) = e
  /\ emin <= e <= emax - prec
  /\ Zpos (digits2_pos m) <= prec.
Proof.
  intros m e H. unfold bounded, canonical_mantissa in H.
  apply andb_true_iff in H. destruct H as [Hc He].
  apply Z.eqb_eq in Hc. apply Z.leb_le in He.
  split; [exact Hc|]. unfold SpecFloat.fexp in Hc. fold emin in Hc. lia.
Qed.

Lemma bounded_value : forall m e,
  bounded prec emax m e = true -> (F2Q (Zpos m) e < bpow emax)%Q.
Proof.
  intros m e H. destruct (bounded_spec m e H) as (_ & He & Hd).
  pose proof (F2Q_digits m e) as [_ Hlt].
  apply Qlt_le_trans with (1 := Hlt). apply bpow_le. lia.
Qed.

(** A wider exponent means a larger magnitude, for mantissas in canonical
    form. *)
Lemma canonical_lt : forall m1 e1 m2 e2,
  bounded prec emax m1 e1 = true -> bounded prec emax m2 e2 = true ->
  e1 < e2 -> (F2Q (Zpos m1) e1 < F2Q (Zpos m2) e2)%Q.
Proof.
  intros m1 e1 m2 e2 H1 H2 He.
  destruct (bounded_spec m1 e1 H1) as (Hc1 & Hr1 & Hd1).
  destruct (bounded_spec m2 e2 H2) as (Hc2 & Hr2 & Hd2).
  assert (Hd : Zpos (digits2_pos m2) = prec)
    by (unfold SpecFloat.fexp in Hc2; fold emin in Hc2; lia).
  pose proof (F2Q_digits m1 e1) as [_ Hu].
  pose proof (F2Q_digits m2 e2) as [Hl _].
  apply Qlt_le_trans with (1 := Hu).
  apply Qle_trans with (2 := Hl). apply bpow_le. lia.
Qed.

(** The comparison of two values of the format is the comparison of the
    numbers they stand for. *)
Lemma SFltb_correct : forall x y,
  finite_in prec emax x = true -> finite_in prec emax y = true ->
  (SFltb x y = true <-> (sf_value x < sf_value y)%Q).
Proof.
  intros x y Hx Hy.
  destruct x as [sx| | |sx mx ex]; try discriminate;
    destruct y as [sy| | |sy my ey]; try discriminate;
    cbn [finite_in] in Hx, Hy; unfold SFltb, SFcompare.
  - rewrite !sf_value_zero. split; [discriminate | intros; lra].
  - rewrite sf_value_zero. destruct sy.
    + pose proof (sf_value_neg my ey). split; [discriminate | intros; lra].
    + pose proof (sf_value_pos my ey). split; [intros; lra | reflexivity].
  - rewrite sf_value_zero. destruct sx.
    + pose proof (sf_value_neg mx ex). split; [intros; lra | reflexivity].
    + pose proof (sf_value_pos mx ex). split; [discriminate | intros; lra].
  - destruct sx, sy.
    + (* both negative *)
      rewrite !sf_value_finite. cbn [cond_Zopp].
      change (- Zpos mx) with (Z.opp (Zpos mx)).
      change (- Zpos my) with (Z.opp (Zpos my)). rewrite !F2Q_opp.
      destruct (Z.compare_spec ex ey) as [He|He|He].
      * subst ey. change (Pos.compare_cont Eq mx my) with (Pos.compare mx my).
        destruct (Pos.compare_spec mx my) as [Hm|Hm|Hm]; cbn [CompOpp].
        -- subst my. split; [discriminate | intros; lra].
        -- assert (F2Q (Zpos mx) ex < F2Q (Zpos my) ex)%Q
             by (apply F2Q_lt; lia).
           split; [discriminate | intros; lra].
        -- assert (F2Q (Zpos my) ex < F2Q (Zpos mx) ex)%Q
             by (apply F2Q_lt; lia).
           split; [intros; lra | reflexivity].
      * pose proof (canonical_lt mx ex my ey Hx Hy He).
        split; [discriminate | intros; lra].
      * pose proof (canonical_lt my ey mx ex Hy Hx He).
        split; [intros; lra | reflexivity].
    + pose proof (sf_value_neg mx ex). pose proof (sf_value_pos my ey).
      split; [intros; lra | reflexivity].
    + pose proof (sf_value_pos mx ex). pose proof (sf_value_neg my ey).
      split; [discriminate | intros; lra].
    + (* both positive *)
      rewrite !sf_value_finite. cbn [cond_Zopp].
      destruct (Z.compare_spec ex ey) as [He|He|He].
      * subst ey. change (Pos.compare_cont Eq mx my) with (Pos.compare mx my).
        destruct (Pos.compare_spec mx my) as [Hm|Hm|Hm].
        -- subst my. split; [discriminate | intros; lra].
        -- assert (F2Q (Zpos mx) ex < F2Q (Zpos my) ex)%Q
             by (apply F2Q_lt; lia).
           split; [intros; lra | reflexivity].
        -- assert (F2Q (Zpos my) ex < F2Q (Zpos mx) ex)%Q
             by (apply F2Q_lt; lia).
           split; [discriminate | intros; lra].
      * pose proof (canonical_lt mx ex my ey Hx Hy He).
        split; [intros; lra | reflexivity].
      * pose proof (canonical_lt my ey mx ex Hy Hx He).
        split; [discriminate | intros; lra].
Qed.

(** The mantissas brought to the smaller exponent. *)
Lemma aligned_value : forall s m e e',
  (F2Q (cond_Zopp s (Zpos (fst (shl_align m e (Z.min e e'))))) (Z.min e e')
   == sf_value (S754_finite s m e))%Q.
Proof.
  intros s m e e'. rewrite sf_value_finite.
  destruct (shl_align_spec m e (Z.min e e')) as [Hs Hf].
  rewrite Hf, Hs. replace (Z.min e (Z.min e e')) with (Z.min e e') by lia.
  destruct s; cbn [cond_Zopp].
  - rewrite <- Z.mul_opp_l.
    rewrite <- (F2Q_shift (- Zpos m) e (e - Z.min e e')) by lia.
    now replace (e - (e - Z.min e e')) with (Z.min e e') by lia.
  - rewrite <- (F2Q_shift (Zpos m) e (e - Z.min e e')) by lia.
    now replace (e - (e - Z.min e e')) with (Z.min e e') by lia.
Qed.

(** Subtraction and addition round the exact result to nearest. *)
Lemma SFsub_correct : forall x y,
  finite_in prec emax x = true -> finite_in prec emax y = true ->
  (Qabs (sf_value x - sf_value y) < bpow (emax - 1))%Q ->
  finite_in prec emax (SFsub prec emax x y) = true
  /\ (Qabs (sf_value (SFsub prec emax x y) - (sf_value x - sf_value y))
      <= bpow (- prec) * Qabs (sf_value x - sf_value y))%Q.
Proof.
  intros x y Hx Hy Hsmall.
  pose proof (bpow_pos (- prec)) as Hpp.
  assert (Hnn : forall q : Q, (0 <= bpow (- prec) * Qabs q)%Q).
  { intros q. apply Qmult_le_0_compat; [lra | apply Qabs_nonneg]. }
  assert (Hsame : forall q : Q,
            (Qabs (q - q) <= bpow (- prec) * Qabs q)%Q).
  { intros q. setoid_replace (q - q)%Q with 0%Q by ring.
    change (Qabs 0) with 0%Q. apply Hnn. }
  destruct x as [sx| | |sx mx ex]; try discriminate;
    destruct y as [sy| | |sy my ey]; try discriminate;
    cbn [finite_in] in Hx, Hy; cbn [SFsub].
  - split; [destruct sx, sy; reflexivity|].
    assert (Hz : sf_value (match sx, sy with
                           | true, false | false, true => S754_zero sx
                           | _, _ => S754_zero false
                           end) = 0%Q) by (destruct sx, sy; reflexivity).
    rewrite Hz, !sf_value_zero. apply (Hsame 0%Q).
  - split; [exact Hy|]. rewrite sf_value_zero.
    assert (Hv : (sf_value (S754_finite (negb sy) my ey)
                  == 0 - sf_value (S754_finite sy my ey))%Q).
    { rewrite !sf_value_finite. destruct sy; cbn [negb cond_Zopp].
      - change (- Zpos my) with (Z.opp (Zpos my)). rewrite F2Q_opp. ring.
      - change (- Zpos my) with (Z.opp (Zpos my)). rewrite F2Q_opp. ring. }
    rewrite Hv. apply Hsame.
  - split; [exact Hx|]. rewrite sf_value_zero.
    setoid_replace (sf_value (S754_finite sx mx ex) - 0)%Q
      with (sf_value (S754_finite sx mx ex)) by ring.
    apply Hsame.
  - set (ez := Z.min ex ey).
    set (zx := cond_Zopp sx (Zpos (fst (shl_align mx ex ez)))).
    set (zy := cond_Zopp sy (Zpos (fst (shl_align my ey ez)))).
    assert (Hzx : (F2Q zx ez == sf_value (S754_finite sx mx ex))%Q)
      by apply aligned_value.
    assert (Hzy : (F2Q zy ez == sf_value (S754_finite sy my ey))%Q).
    { unfold zy, ez. rewrite Z.min_comm. apply aligned_value. }
    assert (Hz : (F2Q (zx - zy) ez
                  == sf_value (S754_finite sx mx ex)
                     - sf_value (S754_finite sy my ey))%Q)
      by (rewrite F2Q_sub, Hzx, Hzy; reflexivity).
    rewrite <- Hz in Hsmall |- *.
    destruct (binary_normalize_correct prec emax Hprec Hemax (zx - zy) ez
                false Hsmall) as (Hfin & _ & Hrel & _).
    split; [exact Hfin|]. apply Hrel.
    destruct (bounded_spec mx ex Hx) as (_ & ? & _).
    destruct (bounded_spec my ey Hy) as (_ & ? & _). unfold ez. lia.
Qed.

Lemma SFadd_correct : forall x y,
  finite_in prec emax x = true -> finite_in prec emax y = true ->
  (Qabs (sf_value x + sf_value y) < bpow (emax - 1))%Q ->
  finite_in prec emax (SFadd prec emax x y) = true
  /\ (Qabs (sf_value (SFadd prec emax x y) - (sf_value x + sf_value y))
      <= bpow (- prec) * Qabs (sf_value x + sf_value y))%Q.
Proof.
  intros x y Hx Hy Hsmall.
  pose proof (bpow_pos (- prec)) as Hpp.
  assert (Hnn : forall q : Q, (0 <= bpow (- prec) * Qabs q)%Q).
  { intros q. apply Qmult_le_0_compat; [lra | apply Qabs_nonneg]. }
  assert (Hsame : forall q : Q,
            (Qabs (q - q) <= bpow (- prec) * Qabs q)%Q).
  { intros q. setoid_replace (q - q)%Q with 0%Q by ring.
    change (Qabs 0) with 0%Q. apply Hnn. }
  destruct x as [sx| | |sx mx ex]; try discriminate;
    destruct y as [sy| | |sy my ey]; try discriminate;
    cbn [finite_in] in Hx, Hy; cbn [SFadd].
  - split; [destruct sx, sy; reflexivity|].
    assert (Hz : sf_value (match sx, sy with
                           | true, true | false, false => S754_zero sx
                           | _, _ => S754_zero false
                           end) = 0%Q) by (destruct sx, sy; reflexivity).
    rewrite Hz, !sf_value_zero. apply (Hsame 0%Q).
  - split; [exact Hy|]. rewrite sf_value_zero.
    setoid_replace (0 + sf_value (S754_finite sy my ey))%Q
      with (sf_value (S754_finite sy my ey)) by ring.
    apply Hsame.
  - split; [exact Hx|]. rewrite sf_value_zero.
    setoid_replace (sf_value (S754_finite sx mx ex) + 0)%Q
      with (sf_value (S754_finite sx mx ex)) by ring.
    apply Hsame.
  - set (ez := Z.min ex ey).
    set (zx := cond_Zopp sx (Zpos (fst (shl_align mx ex ez)))).
    set (zy := cond_Zopp sy (Zpos (fst (shl_align my ey ez)))).
    assert (Hzx : (F2Q zx ez == sf_value (S754_finite sx mx ex))%Q)
      by apply aligned_value.
    assert (Hzy : (F2Q zy ez == sf_value (S754_finite sy my ey))%Q).
    { unfold zy, ez. rewrite Z.min_comm. apply aligned_value. }
    assert (Hz : (F2Q (zx + zy) ez
                  == sf_value (S754_finite sx mx ex)
                     + sf_value (S754_finite sy my ey))%Q)
      by (rewrite F2Q_add, Hzx, Hzy; reflexivity).
    rewrite <- Hz in Hsmall |- *.
    destruct (binary_normalize_correct prec emax Hprec Hemax (zx + zy) ez
                false Hsmall) as (Hfin & _ & Hrel & _).
    split; [exact Hfin|]. apply Hrel.
    destruct (bounded_spec mx ex Hx) as (_ & ? & _).
    destruct (bounded_spec my ey Hy) as (_ & ? & _). unfold ez. lia.
Qed.

End Operations.

Lemma prec32_pos : 0 < prec32. Proof. reflexivity. Qed.
Lemma emax32_big : prec32 < emax32. Proof. reflexivity. Qed.
Lemma prec64_pos : 0 < prec64. Proof. reflexivity. Qed.
Lemma emax64_big : prec64 < emax64. Proof. reflexivity. Qed.

Lemma binary_round_noshift : forall prec emax sx mx ex,
  ex <= SpecFloat.fexp prec emax (Zpos (digits2_pos mx) + ex) ->
  binary_round_aux prec emax sx (Zpos mx) ex loc_Exact
  = binary_round prec emax sx mx ex.
Proof.
  intros prec emax sx mx ex H. unfold binary_round, shl_align.
  destruct (SpecFloat.fexp prec emax (Zpos (digits2_pos mx) + ex) - ex)
    as [|p|p] eqn:E; try reflexivity. lia.
Qed.

Lemma binary_normalize_round : forall prec emax s m e szero,
  binary_normalize prec emax (cond_Zopp s (Zpos m)) e szero
  = binary_round prec emax s m e.
Proof. intros. destruct s; reflexivity. Qed.

(** ** Conversions *)

Lemma float_magnitude : forall s m e,
  bounded prec32 emax32 m e = true ->
  (Qabs (F2Q (cond_Zopp s (Zpos m)) e) < bpow 128)%Q.
Proof.
  intros s m e H. rewrite F2Q_abs.
  replace (Z.abs (cond_Zopp s (Zpos m))) with (Zpos m) by (destruct s; reflexivity).
  exact (bounded_value prec32 emax32 m e H).
Qed.

(** The conversion of a [float] to [double] is exact. *)
Lemma to_double_correct : forall x,
  is_float x = true ->
  is_double (to_double x) = true /\ (sf_value (to_double x) == sf_value x)%Q.
Proof.
  intros x Hx. destruct x as [s| | |s m e]; try discriminate.
  - split; reflexivity.
  - cbn [is_float finite_in] in Hx. cbn [to_double].
    destruct (bounded_spec prec32 emax32 m e Hx)
      as (_ & He & Hd).
    assert (Hsmall : (Qabs (F2Q (cond_Zopp s (Zpos m)) e)
                      < bpow (emax64 - 1))%Q).
    { apply Qlt_trans with (1 := float_magnitude s m e Hx).
      apply bpow_lt. reflexivity. }
    destruct (binary_normalize_correct prec64 emax64 prec64_pos emax64_big
                (cond_Zopp s (Zpos m)) e s Hsmall) as (Hfin & _ & _ & Hex).
    split; [exact Hfin|]. rewrite sf_value_finite.
    apply (Hex 0); [lia | | apply Z.divide_1_l].
    replace (Zdigits2 (cond_Zopp s (Zpos m))) with (Zpos (digits2_pos m))
      by (destruct s; reflexivity).
    unfold SpecFloat.fexp, SpecFloat.emin, prec32, emax32, prec64, emax64 in *.
    lia.
Qed.

(** The [double] a [float] is converted to has a mantissa of 53 digits. *)
Lemma to_double_shape : forall s m e,
  bounded prec32 emax32 m e = true ->
  exists m1 e1,
    to_double (S754_finite s m e) = S754_finite s m1 e1
    /\ Zpos (digits2_pos m1) = 53 /\ -201 <= e1 <= 75
    /\ (F2Q (Zpos m1) e1 == F2Q (Zpos m) e)%Q.
Proof.
  intros s m e H. cbn [to_double]. rewrite binary_normalize_round.
  destruct (bounded_spec prec32 emax32 m e H)
    as (_ & He & Hd).
  unfold SpecFloat.emin, prec32, emax32 in He, Hd.
  pose proof (digits2_bounds m) as [Hlo Hhi].
  set (dg := Zpos (digits2_pos m)) in *.
  assert (Hdg : 0 < dg) by (unfold dg; lia).
  assert (Hs : dg + e < emax64)
    by (unfold SpecFloat.emin, prec32, emax32, emax64 in *; lia).
  destruct (binary_round_correct prec64 emax64 prec64_pos emax64_big s m e Hs)
    as (m' & e' & -> & Hm' & _ & Hex & _).
  fold dg in Hex.
  assert (HE : SpecFloat.fexp prec64 emax64 (dg + e) = dg + e - 53)
    by (unfold SpecFloat.fexp, SpecFloat.emin, prec32, emax32, prec64,
          emax64 in *; lia).
  rewrite HE in Hex. destruct Hex as [Hm He']; [lia|]. subst e'.
  assert (Hp2 : 0 < 2 ^ (e - (dg + e - 53)))
    by (apply Z.pow_pos_nonneg; unfold prec32 in *; lia).
  destruct m' as [|m1|m1]; try lia.
  exists m1, (dg + e - 53). split; [reflexivity|]. split; [|split].
  - apply digits2_unique. rewrite Hm.
    replace (e - (dg + e - 53)) with (53 - dg) by lia.
    replace (2 ^ (53 - 1)) with (2 ^ (dg - 1) * 2 ^ (53 - dg))
      by (rewrite <- Z.pow_add_r by (unfold prec32 in *; lia); f_equal; lia).
    replace (2 ^ 53) with (2 ^ dg * 2 ^ (53 - dg))
      by (rewrite <- Z.pow_add_r by (unfold prec32 in *; lia); f_equal; lia).
    replace (e - (dg + e - 53)) with (53 - dg) in Hp2 by lia.
    split; [apply Z.mul_le_mono_nonneg_r; lia
           | apply Z.mul_lt_mono_pos_r; lia].
  - unfold SpecFloat.emin, prec32, emax32 in *. lia.
  - rewrite Hm. rewrite <- (F2Q_shift (Zpos m) e (e - (dg + e - 53)))
      by (unfold prec32 in *; lia).
    now replace (e - (e - (dg + e - 53))) with (dg + e - 53) by lia.
Qed.

(** The conversion of a [double] to [float] rounds to nearest. *)
Lemma to_float_correct : forall x,
  is_double x = true ->
  (Qabs (sf_value x) < bpow 127)%Q ->
  is_float (to_float x) = true
  /\ (Qabs (sf_value (to_float x) - sf_value x)
      <= bpow (-24) * Qabs (sf_value x) + bpow (-150))%Q.
Proof.
  intros x Hx Hsmall. destruct x as [s| | |s m e]; try discriminate.
  - split; [reflexivity|]. cbn [to_float]. rewrite sf_value_zero.
    setoid_replace (0 - 0)%Q with 0%Q by ring. change (Qabs 0) with 0%Q.
    pose proof (bpow_pos (-150)). lra.
  - cbn [to_float]. rewrite sf_value_finite in Hsmall |- *.
    destruct (binary_normalize_correct prec32 emax32 prec32_pos emax32_big
                (cond_Zopp s (Zpos m)) e s Hsmall) as (Hfin & Hgen & _).
    split; [exact Hfin | exact Hgen].
Qed.

(** ** Halving in double precision *)

Lemma d_two_eq : d_two = S754_finite false 4503599627370496 (-51).
Proof. reflexivity. Qed.

Lemma SFdiv_core_two : forall m1 e1,
  Zpos (digits2_pos m1) = 53 -> -1072 <= e1 ->
  SFdiv_core_binary prec64 emax64 (Zpos m1) e1 4503599627370496 (-51)
  = (Zpos m1~0, e1 - 2, loc_Exact).
Proof.
  intros m1 e1 Hd He. unfold SFdiv_core_binary.
  rewrite Zdigits2_pos, Hd.
  change (Zdigits2 4503599627370496) with 53.
  replace (Z.min (SpecFloat.fexp prec64 emax64 (53 + e1 - (53 + -51)))
             (e1 - -51)) with (e1 - 2)
    by (unfold SpecFloat.fexp, SpecFloat.emin, prec64, emax64; lia).
  replace (e1 - -51 - (e1 - 2)) with 53 by lia.
  rewrite Z.shiftl_mul_pow2 by lia.
  replace (Zpos m1 * 2 ^ 53) with (Zpos m1~0 * 4503599627370496) by lia.
  pose proof (Z.div_mul (Zpos m1~0) 4503599627370496 ltac:(lia)) as Hq.
  pose proof (Z.mod_mul (Zpos m1~0) 4503599627370496 ltac:(lia)) as Hr.
  unfold Z.div, Z.modulo in Hq, Hr.
  destruct (Z.div_eucl (Zpos m1~0 * 4503599627370496) 4503599627370496)
    as [q r].
  subst q r. reflexivity.
Qed.

Lemma half_correct : forall d,
  is_float d = true ->
  is_double (SFdiv prec64 emax64 (to_double d) d_two) = true
  /\ (sf_value (SFdiv prec64 emax64 (to_double d) d_two)
      == sf_value d / 2)%Q.
Proof.
  intros d Hd. destruct d as [s| | |s m e]; try discriminate.
  - split; [reflexivity|]. cbn. destruct s; reflexivity.
  - cbn [is_float finite_in] in Hd.
    destruct (to_double_shape s m e Hd) as (m1 & e1 & -> & Hdg & He1 & Hv).
    rewrite d_two_eq. cbn [SFdiv].
    rewrite SFdiv_core_two by lia. rewrite xorb_false_r.
    assert (Hdg2 : Zpos (digits2_pos m1~0) = 54) by (cbn; lia).
    rewrite binary_round_noshift
      by (rewrite Hdg2; unfold SpecFloat.fexp, SpecFloat.emin, prec64,
            emax64; lia).
    assert (Hsmall : (F2Q (Zpos m1~0) (e1 - 2) < bpow (emax64 - 1))%Q).
    { pose proof (F2Q_digits m1~0 (e1 - 2)) as [_ Hlt].
      apply Qlt_le_trans with (1 := Hlt). apply bpow_le.
      rewrite Hdg2. unfold emax64. lia. }
    destruct (binary_round_value prec64 emax64 prec64_pos emax64_big s
                m1~0 (e1 - 2) Hsmall) as (y & Hfin & Hval & _ & _ & Hex).
    split; [exact Hfin|].
    assert (Hy : (y == F2Q (Zpos m1~0) (e1 - 2))%Q).
    { apply (Hex 1); [lia | |].
      - rewrite Hdg2. unfold SpecFloat.fexp, SpecFloat.emin, prec64, emax64.
        lia.
      - exists (Zpos m1). lia. }
    assert (Hh : (F2Q (Zpos m1~0) (e1 - 2) == F2Q (Zpos m) e / 2)%Q).
    { rewrite <- Hv. unfold F2Q.
      replace e1 with ((e1 - 2) + 1 + 1) at 2 by lia.
      rewrite !bpow_succ.
      change (Zpos m1~0) with (2 * Zpos m1). rewrite inject_Z_mult.
      field. }
    rewrite Hval, sf_value_finite. destruct s; cbn [cond_Zopp].
    + change (- Zpos m) with (Z.opp (Zpos m)). rewrite F2Q_opp, Hy, Hh. field.
    + rewrite Hy. exact Hh.
Qed.

End FloatSpec.

(* ===================================================================== *)
(** * Properties of the trap solver and of the treasure collector *)
(* ===================================================================== *)

Module RogueSpec.
Import CString Shared CFloat Rogue Scenarios.

Section TrapSolver.
Context {F : Type} `{FloatOps F}.
Variable MAX_PICK_ANGLE : F.
Variable SECONDS_TO_PICK : Z.
Variable TIME_TREASURE_AVAILABLE : Z.

(** ** The loop body *)

Lemma update_bounds_up : forall (b : Bounds F) pick,
  update_bounds b dir_up pick
  = mkBounds (f_max (current_low b) pick) (current_high b).
Proof.
  intros [lo hi] pick. unfold update_bounds, f_max. cbn.
  now destruct (f_gt pick lo).
Qed.

Lemma update_bounds_down : forall (b : Bounds F) pick,
  update_bounds b dir_down pick
  = mkBounds (current_low b) (f_min (current_high b) pick).
Proof.
  intros [lo hi] pick. unfold update_bounds, f_min. cbn.
  now destruct (f_lt pick hi).
Qed.

(** C3, as the code has it.  One run of the loop body, entered while the
    trap is locked and the process running, first tests the deadline and
    leaves the loop when it has passed.  Otherwise: on ['-'] it leaves the
    loop; on ['u'] the low bound becomes the maximum of the low bound and
    the pick, on ['d'] the high bound becomes the minimum of the high bound
    and the pick, and then, when the new range is wider than 0.000001, the
    midpoint [low + (high - low) / 2] is written as the pick with the
    direction ['t'], and else the loop is left with nothing written; on any
    other direction nothing is read further or written and the loop goes
    on. *)
Theorem search_iteration_cases :
  forall (b : Bounds F) (d : Dungeon F) (timed_out : bool),
  let direction := trap_direction d in
  let pick := rogue_pick d in
  let raised := mkBounds (f_max (current_low b) pick) (current_high b) in
  let lowered := mkBounds (current_low b) (f_min (current_high b) pick) in
  let submit (b' : Bounds F) :=
    set_direction
      (set_pick d (f_add_half (current_low b')
                     (f_sub (current_high b') (current_low b'))))
      dir_guess in
  (timed_out = true -> search_iteration b d timed_out = (b, d, Break))
  /\ (timed_out = false -> direction = dir_unlocked ->
        search_iteration b d timed_out = (b, d, Break))
  /\ (timed_out = false -> direction = dir_up ->
        search_iteration b d timed_out
        = if range_open raised then (raised, submit raised, Continue)
          else (raised, d, Break))
  /\ (timed_out = false -> direction = dir_down ->
        search_iteration b d timed_out
        = if range_open lowered then (lowered, submit lowered, Continue)
          else (lowered, d, Break))
  /\ (timed_out = false -> direction <> dir_unlocked ->
        direction <> dir_up -> direction <> dir_down ->
        search_iteration b d timed_out = (b, d, Continue)).
Proof.
  intros b d timed_out direction pick raised lowered submit.
  unfold search_iteration. fold direction pick.
  repeat split.
  - now intros ->.
  - intros -> ->. reflexivity.
  - intros -> E. rewrite E. cbn [Z.eqb dir_up dir_unlocked Pos.eqb orb].
    rewrite update_bounds_up. reflexivity.
  - intros -> E. rewrite E. cbn [Z.eqb dir_up dir_down dir_unlocked Pos.eqb orb].
    rewrite update_bounds_down. reflexivity.
  - intros -> N1 N2 N3.
    destruct (Z.eqb_spec direction dir_unlocked); [contradiction|].
    destruct (Z.eqb_spec direction dir_up); [contradiction|].
    destruct (Z.eqb_spec direction dir_down); [contradiction|].
    reflexivity.
Qed.

(** ** The bounds across a call *)

Lemma fresh_direction_iff : forall direction,
  fresh_direction direction = true
  <-> direction <> dir_up /\ direction <> dir_down /\ direction <> dir_unlocked.
Proof.
  intros direction. unfold fresh_direction.
  destruct (Z.eqb_spec direction dir_up), (Z.eqb_spec direction dir_down),
    (Z.eqb_spec direction dir_unlocked); cbn; intuition congruence.
Qed.

(** The loop is left at the latest by the iteration that finds the deadline
    passed. *)
Lemma search_loop_deadline : forall n env start k (b : Bounds F) d,
  pick_timed_out SECONDS_TO_PICK start (env_time env (k + n)) = true ->
  exists r, search_loop SECONDS_TO_PICK (S n) env start k b d = Some r.
Proof.
  induction n as [|n IH]; intros env start k b d Hout.
  - cbn [search_loop]. rewrite Nat.add_0_r in Hout.
    destruct (search_guard env k (env_write env k d)); [|eauto].
    rewrite Hout. unfold search_iteration. eauto.
  - cbn [search_loop].
    destruct (search_guard env k (env_write env k d)); [|eauto].
    destruct (search_iteration b (env_write env k d) _) as [[b' d'] [|]];
      [|eauto].
    apply IH. now replace (S k + n)%nat with (k + S n)%nat by lia.
Qed.

(** The handler: SIGINT only sets [exit_flag]; with [exit_flag] set or
    [running] false nothing is done; otherwise DUNGEON_SIGNAL runs the trap
    solver on the statics and SEMAPHORE_SIGNAL the collection. *)
Lemma rogue_signal_handler_branches :
  forall (fuel : nat) (env : Env F) (p : Process F) (d : Dungeon F),
  rogue_signal_handler MAX_PICK_ANGLE SECONDS_TO_PICK TIME_TREASURE_AVAILABLE
    fuel env SIGINT p d = Some (mkProcess (bounds p) true, d, [])
  /\ (forall signum, signum <> SIGINT ->
        exit_flag p = true \/ running d = false ->
        rogue_signal_handler MAX_PICK_ANGLE SECONDS_TO_PICK
          TIME_TREASURE_AVAILABLE fuel env signum p d = Some (p, d, []))
  /\ (exit_flag p = false -> running d = true ->
      rogue_signal_handler MAX_PICK_ANGLE SECONDS_TO_PICK
        TIME_TREASURE_AVAILABLE fuel env DUNGEON_SIGNAL p d
      = match disarm_trap MAX_PICK_ANGLE SECONDS_TO_PICK fuel env (bounds p) d with
        | None => None
        | Some (b, d') =>
            Some (mkProcess b
                    (flag_after env false
                       (last_trap_poll MAX_PICK_ANGLE SECONDS_TO_PICK fuel env
                          (bounds p) d)),
                  d', [])
        end)
  /\ (exit_flag p = false -> running d = true ->
      rogue_signal_handler MAX_PICK_ANGLE SECONDS_TO_PICK
        TIME_TREASURE_AVAILABLE fuel env SEMAPHORE_SIGNAL p d
      = match collect_treasure TIME_TREASURE_AVAILABLE fuel env d with
        | None => None
        | Some (d', _, log, n) =>
            Some (mkProcess (bounds p) (flag_after env false (Some n)), d', log)
        end).
Proof.
  intros fuel env p d. unfold rogue_signal_handler.
  split; [reflexivity|]. split; [|split].
  - intros signum Hs [He|Hr]; destruct signum; try contradiction;
      try (rewrite He; reflexivity);
      destruct (exit_flag p); try reflexivity; rewrite Hr; reflexivity.
  - intros -> ->. reflexivity.
  - intros -> ->. reflexivity.
Qed.

(** C4, as the code has it.  A DUNGEON_SIGNAL that finds [exit_flag] set
    or [running] false changes nothing, the bounds included.  Otherwise,
    when the trap is not locked the call leaves the bounds
    (0, MAX_PICK_ANGLE); when it is locked the search loop starts from
    (0, MAX_PICK_ANGLE) if the direction read is none of ['u'], ['d'], ['-']
    and from the bounds the last call left if it is one of them, and when
    the loop is left the bounds become (0, MAX_PICK_ANGLE) if the trap is
    then read unlocked and stay what the loop made them if it is still
    locked.  The call returns at the latest when the deadline has passed. *)
Theorem bounds_reset_rule :
  forall (fuel : nat) (env : Env F) (p : Process F) (d : Dungeon F),
  (exit_flag p = true \/ running d = false ->
   rogue_signal_handler MAX_PICK_ANGLE SECONDS_TO_PICK TIME_TREASURE_AVAILABLE
     fuel env DUNGEON_SIGNAL p d = Some (p, d, []))
  /\ (exit_flag p = false -> running d = true -> trap_locked d = false ->
      rogue_signal_handler MAX_PICK_ANGLE SECONDS_TO_PICK
        TIME_TREASURE_AVAILABLE fuel env DUNGEON_SIGNAL p d
      = Some (mkProcess (mkBounds f_zero MAX_PICK_ANGLE) false, d, []))
  /\ (exit_flag p = false -> running d = true -> trap_locked d = true ->
      exists start : Bounds F,
        (trap_direction d <> dir_up -> trap_direction d <> dir_down ->
         trap_direction d <> dir_unlocked ->
         start = mkBounds f_zero MAX_PICK_ANGLE)
        /\ (trap_direction d = dir_up \/ trap_direction d = dir_down
            \/ trap_direction d = dir_unlocked -> start = bounds p)
        /\ rogue_signal_handler MAX_PICK_ANGLE SECONDS_TO_PICK
             TIME_TREASURE_AVAILABLE fuel env DUNGEON_SIGNAL p d
           = match search_loop SECONDS_TO_PICK fuel env (env_time env O) O
                     start d with
             | None => None
             | Some (b1, d1, n) =>
                 Some (mkProcess
                         (if trap_locked (env_write env (S n) d1) then b1
                          else mkBounds f_zero MAX_PICK_ANGLE)
                         (env_exit_flag env n),
                       env_write env (S n) d1, [])
             end)
  /\ (forall n,
        pick_timed_out SECONDS_TO_PICK (env_time env O) (env_time env n) = true ->
        exists r,
          rogue_signal_handler MAX_PICK_ANGLE SECONDS_TO_PICK
            TIME_TREASURE_AVAILABLE (S n) env DUNGEON_SIGNAL p d = Some r).
Proof.
  intros fuel env p d. split; [|split; [|split]].
  - intros [He|Hr]; unfold rogue_signal_handler.
    + now rewrite He.
    + destruct (exit_flag p); [reflexivity|]. now rewrite Hr.
  - intros He Hr Hl. unfold rogue_signal_handler, disarm_trap, last_trap_poll.
    rewrite He, Hr, Hl. reflexivity.
  - intros He Hr Hl.
    exists (reset_on_entry MAX_PICK_ANGLE (bounds p) (trap_direction d)).
    split; [|split].
    + intros Hu Hd Hm. unfold reset_on_entry.
      destruct (fresh_direction (trap_direction d)) eqn:E; [reflexivity|].
      exfalso. assert (Hf : fresh_direction (trap_direction d) = true)
        by (apply fresh_direction_iff; auto).
      congruence.
    + intros Hdir. unfold reset_on_entry.
      destruct (fresh_direction (trap_direction d)) eqn:E; [|reflexivity].
      apply fresh_direction_iff in E. intuition congruence.
    + unfold rogue_signal_handler, disarm_trap, last_trap_poll.
      rewrite He, Hr, Hl. cbn [negb].
      destruct (search_loop _ fuel env (env_time env O) O _ d)
        as [[[b1 d1] n]|]; [|reflexivity].
      unfold reset_on_exit, flag_after, full_range. cbn [orb].
      destruct (trap_locked (env_write env (S n) d1)); reflexivity.
  - intros n Hout. unfold rogue_signal_handler.
    destruct (exit_flag p); [eauto|]. destruct (negb (running d)); [eauto|].
    unfold disarm_trap. destruct (trap_locked d); [|eauto].
    destruct (search_loop_deadline n env (env_time env O) O
                (reset_on_entry MAX_PICK_ANGLE (bounds p) (trap_direction d))
                d Hout) as [[[b1 d1] m] ->].
    eauto.
Qed.

End TrapSolver.


(** ** The single-precision instance at work *)

(** C3 as stated fails on a direction that is none of ['-'], ['u'], ['d']
    (here ['t'], the Rogue's own mark): with a range wider than 0.000001 the
    midpoint is not written, and with a range that is not the loop is not
    left. *)
Lemma search_iteration_counterexample :
  let wide := mkBounds (float_of_Z 0) angle_100 in
  let narrow := mkBounds (float_of_Z 10) (float_of_Z 10) in
  let d := trap_block dir_guess (float_of_Z 10) in
  (range_open wide = true
   /\ fst (fst (search_iteration wide d false)) = wide
   /\ rogue_pick (snd (fst (search_iteration wide d false))) <> next_pick wide)
  /\ (range_open narrow = false
      /\ snd (search_iteration narrow d false) = Continue).
Proof.
  vm_compute. repeat split; discriminate.
Qed.

(** The run of [unlocking_env]: the call submits 55, reads the trap
    unlocked and leaves the full range behind. *)
Example disarm_trap_unlocked :
  exists d',
    disarm_trap angle_100 5 3 unlocking_env
      (mkBounds (float_of_Z 20) (float_of_Z 60))
      (trap_block dir_up (float_of_Z 50))
    = Some (full_range angle_100, d')
    /\ rogue_pick d' = float_of_Z 55 /\ trap_locked d' = false.
Proof.
  eexists. split; [vm_compute; reflexivity|]. split; reflexivity.
Qed.


(** A SIGINT delivered while a loop of the handler runs ends the loop, and
    the call returns with [exit_flag] set: the search after the pick 75 is
    submitted, the collection with nothing copied. *)
Example sigint_inside_the_handler :
  rogue_signal_handler angle_100 5 10 8 sigint_env DUNGEON_SIGNAL
    (mkProcess (mkBounds f_zero angle_100) false)
    (trap_block dir_up (float_of_Z 50))
  = Some (mkProcess (mkBounds (float_of_Z 50) angle_100) true,
          trap_block dir_guess (float_of_Z 75), [])
  /\ rogue_signal_handler angle_100 5 10 8 sigint_env SEMAPHORE_SIGNAL
       (mkProcess (mkBounds f_zero angle_100) false)
       (trap_block dir_guess (float_of_Z 50))
     = Some (mkProcess (mkBounds f_zero angle_100) true,
             trap_block dir_guess (float_of_Z 50), [Clear]).
Proof.
  split; vm_compute; reflexivity.
Qed.

Lemma bounds_reset_rule_witness :
  exists d',
    rogue_signal_handler angle_100 5 10 3 unlocking_env DUNGEON_SIGNAL
      (mkProcess (mkBounds (float_of_Z 20) (float_of_Z 60)) false)
      (trap_block dir_up (float_of_Z 50))
    = Some (mkProcess (mkBounds f_zero angle_100) false, d', [])
    /\ trap_locked d' = false.
Proof.
  destruct (proj1 (proj2 (proj2
              (bounds_reset_rule angle_100 5 10 3 unlocking_env
                 (mkProcess (mkBounds (float_of_Z 20) (float_of_Z 60)) false)
                 (trap_block dir_up (float_of_Z 50)))))
              eq_refl eq_refl eq_refl) as (start & _ & Hkeep & Hrun).
  rewrite (Hkeep (or_introl eq_refl)) in Hrun.
  eexists. split; [rewrite Hrun; vm_compute; reflexivity | reflexivity].
Defined.

(** C4 as stated fails twice.  An event that finds [exit_flag] set returns
    before the reset: with the trap locked and the direction ['t'] the
    bounds (20, 60) stay.  And an episode does not always start from the
    full range: a call left by the deadline with the trap still locked
    keeps its bounds, here (50, 100), and the next event, which reads the
    direction ['d'], searches on from them, to (50, 75) and the pick 62.5. *)
Lemma bounds_reset_counterexample :
  (trap_locked (trap_block dir_guess (float_of_Z 50)) = true
   /\ trap_direction (trap_block dir_guess (float_of_Z 50)) = dir_guess
   /\ rogue_signal_handler angle_100 5 10 8 ticking_env DUNGEON_SIGNAL
        (mkProcess (mkBounds (float_of_Z 20) (float_of_Z 60)) true)
        (trap_block dir_guess (float_of_Z 50))
      = Some (mkProcess (mkBounds (float_of_Z 20) (float_of_Z 60)) true,
              trap_block dir_guess (float_of_Z 50), []))
  /\ (rogue_signal_handler angle_100 5 10 8 ticking_env DUNGEON_SIGNAL
        (mkProcess (mkBounds f_zero angle_100) false)
        (trap_block dir_up (float_of_Z 50))
      = Some (mkProcess (mkBounds (float_of_Z 50) angle_100) false,
              trap_block dir_guess (float_of_Z 75), [])
      /\ trap_locked (trap_block dir_guess (float_of_Z 75)) = true
      /\ rogue_signal_handler angle_100 5 10 8 ticking_env DUNGEON_SIGNAL
           (mkProcess (mkBounds (float_of_Z 50) angle_100) false)
           (trap_block dir_down (float_of_Z 75))
         = Some (mkProcess (mkBounds (float_of_Z 50) (float_of_Z 75)) false,
                 trap_block dir_guess (to_float (SFdiv 53 1024
                                                   (double_of_Z 125) d_two)),
                 [])
      /\ mkBounds (float_of_Z 50) (float_of_Z 75)
         <> mkBounds f_zero angle_100).
Proof.
  repeat apply conj; try (vm_compute; reflexivity).
  vm_compute. discriminate.
Qed.

(** ** No convergence in single precision *)

Lemma solver_run_add : forall {F : Type} `{FloatOps F} T j m
    (s : Bounds F * Dungeon F * flow),
  solver_run T (j + m) s = solver_run T j (solver_run T m s).
Proof.
  intros F ops T j m s. induction j as [|j IH]; cbn [Nat.add solver_run].
  - reflexivity.
  - now rewrite IH.
Qed.

Lemma solver_run_fixed : forall {F : Type} `{FloatOps F} T j
    (s : Bounds F * Dungeon F * flow),
  solver_step T s = s -> solver_run T j s = s.
Proof.
  intros F ops T j s Hs. induction j as [|j IH]; cbn [solver_run].
  - reflexivity.
  - now rewrite IH.
Qed.

(** After 24 steps the bounds are two neighbouring [float]s, 3.8e-6 apart:
    the midpoint rounds to the upper one, the feedback on it changes nothing,
    and the search repeats the same step. *)
Lemma float_search_stuck :
  solver_step hidden_threshold (solver_run hidden_threshold 24 float_start)
  = solver_run hidden_threshold 24 float_start.
Proof. vm_compute. reflexivity. Qed.

(** For the threshold 42.300001, strictly inside the range 0..100, with
    consistent feedback, no pick ever comes within 0.000001 of the
    threshold, however many the steps, and the search never stops by
    itself. *)
Lemma float_search_never_close :
  (0 < hidden_threshold /\ hidden_threshold < f_value angle_100)%Q
  /\ ~ (exists k,
          (Qabs (f_value (guess_after hidden_threshold k float_start)
                 - hidden_threshold) <= q_eps)%Q)
  /\ ~ (exists k, snd (solver_run hidden_threshold k float_start) = Break).
Proof.
  assert (Hrun : forall k, (24 <= k)%nat ->
            solver_run hidden_threshold k float_start
            = solver_run hidden_threshold 24 float_start).
  { intros k Hk. replace k with ((k - 24) + 24)%nat by lia.
    rewrite solver_run_add. apply solver_run_fixed, float_search_stuck. }
  assert (Hearly : forall k, (k < 24)%nat ->
            Qle_bool (Qabs (f_value (guess_after hidden_threshold k float_start)
                            - hidden_threshold)) q_eps = false
            /\ snd (solver_run hidden_threshold k float_start) = Continue).
  { intros k Hk.
    assert (Hall : forallb (fun k =>
              negb (Qle_bool (Qabs (f_value (guess_after hidden_threshold k float_start)
                                    - hidden_threshold)) q_eps)
              && match snd (solver_run hidden_threshold k float_start) with
                 | Continue => true
                 | Break => false
                 end) (seq 0 24) = true) by (vm_compute; reflexivity).
    rewrite forallb_forall in Hall.
    specialize (Hall k ltac:(apply in_seq; lia)).
    apply andb_true_iff in Hall. destruct Hall as [Ha Hb].
    apply negb_true_iff in Ha. split; [exact Ha|].
    destruct (snd (solver_run hidden_threshold k float_start));
      [reflexivity | discriminate]. }
  split; [split; vm_compute; reflexivity|]. split.
  - intros [k Hk]. apply Qle_bool_iff in Hk.
    destruct (Nat.lt_ge_cases k 24) as [Hlt|Hge].
    + destruct (Hearly k Hlt) as [E _]. congruence.
    + unfold guess_after in Hk. rewrite (Hrun k Hge) in Hk.
      revert Hk. vm_compute. discriminate.
  - intros [k Hk].
    destruct (Nat.lt_ge_cases k 24) as [Hlt|Hge].
    + destruct (Hearly k Hlt) as [_ E]. congruence.
    + rewrite (Hrun k Hge) in Hk. revert Hk. vm_compute. discriminate.
Qed.

(** The threshold 42.3 of the specification's scenario is met within
    0.000001 by the pick of step 22 alone: the next pick is the other
    neighbour, 3.05e-6 away, and the search stays there. *)
Example float_search_scenario_B :
  close_picks (423 # 10) 40 = [22%nat].
Proof. vm_compute. reflexivity. Qed.


(** Nor is a threshold that is a [float] always approached within 0.000001.
    The loop is left when the difference of the bounds, rounded to [float],
    is not above 0.000001, and the difference itself can still be above it.
    In the range of [fine_start], less than 2 * 0.000001 wide, one step
    submits the midpoint 9844670 * 2^-43; the feedback on it makes it the
    upper bound, the difference to the lower bound rounds to the [float]
    below 0.000001 and the search stops, with the pick 1.2e-14 further than
    0.000001 from the threshold. *)
Lemma float_search_stops_early :
  let T := f_value fine_threshold in
  (f_value fine_low < T /\ T < f_value fine_high)%Q
  /\ (f_value fine_high - f_value fine_low <= q_eps * 2)%Q
  /\ guess_after T 1 fine_start = S754_finite false 9844670 (-43)
  /\ snd (solver_run T 2 fine_start) = Break
  /\ forall k, (1 <= k)%nat ->
       ~ (Qabs (f_value (guess_after T k fine_start) - T) <= q_eps)%Q.
Proof.
  cbv zeta.
  assert (Hrun : forall k, (2 <= k)%nat ->
            solver_run (f_value fine_threshold) k fine_start
            = solver_run (f_value fine_threshold) 2 fine_start).
  { intros k Hk. replace k with ((k - 2) + 2)%nat by lia.
    rewrite solver_run_add. apply solver_run_fixed.
    vm_compute. reflexivity. }
  split; [split; vm_compute; reflexivity|].
  split; [vm_compute; discriminate|].
  split; [vm_compute; reflexivity|].
  split; [vm_compute; reflexivity|].
  intros k Hk Hc. apply Qle_bool_iff in Hc.
  destruct (Nat.eq_dec k 1) as [->|Hne].
  - revert Hc. vm_compute. discriminate.
  - unfold guess_after in Hc. rewrite (Hrun k ltac:(lia)) in Hc.
    revert Hc. vm_compute. discriminate.
Qed.

(** ** Convergence in single precision, up to rounding *)

Import FloatSpec.

(** [lra] reads a division by two as a product by one half. *)
Ltac halves := unfold Qdiv in *; change (/ 2)%Q with (1 # 2)%Q in *.

Lemma Qabs_bounds : forall x : Q, (0 <= Qabs x /\ x <= Qabs x /\ - x <= Qabs x)%Q.
Proof.
  intros x. split; [apply Qabs_nonneg|]. split; [apply Qle_Qabs|].
  rewrite <- Qabs_opp. apply Qle_Qabs.
Qed.

Lemma Qabs_le_intro : forall x y : Q, (- y <= x -> x <= y -> Qabs x <= y)%Q.
Proof. intros x y H1 H2. apply Qabs_Qle_condition. split; assumption. Qed.

Lemma Qabs_le_elim : forall x y : Q, (Qabs x <= y -> - y <= x /\ x <= y)%Q.
Proof. intros x y H. now apply Qabs_Qle_condition. Qed.

Lemma bpow_m24 : (bpow (-24) == 1 # 16777216)%Q.
Proof. reflexivity. Qed.
Lemma bpow_m53 : (bpow (-53) == 1 # 9007199254740992)%Q.
Proof. reflexivity. Qed.
Lemma bpow_126_127 : (2 * bpow 126 == bpow 127)%Q.
Proof. reflexivity. Qed.
Lemma bpow_125_126 : (2 * bpow 125 == bpow 126)%Q.
Proof. reflexivity. Qed.

(** ** The operations of the search *)

(** [a > b] on [float]s is the comparison of their values. *)
Lemma f_gt_correct : forall a b,
  is_float a = true -> is_float b = true ->
  (f_gt a b = true <-> (f_value b < f_value a)%Q).
Proof.
  intros a b Ha Hb. change (f_gt a b) with (SFltb b a).
  exact (SFltb_correct prec32 emax32 b a Hb Ha).
Qed.

(** [a - b] on [float]s is a [float] within one part in [2^24] of the
    exact difference, as long as that is below [2^127]. *)
Lemma f_sub_correct : forall a b,
  is_float a = true -> is_float b = true ->
  (Qabs (f_value a - f_value b) < bpow 127)%Q ->
  is_float (f_sub a b) = true
  /\ (Qabs (f_value (f_sub a b) - (f_value a - f_value b))
      <= bpow (-24) * Qabs (f_value a - f_value b))%Q.
Proof.
  intros a b Ha Hb Hs.
  exact (SFsub_correct prec32 emax32 prec32_pos emax32_big a b Ha Hb Hs).
Qed.

(** The constant 0.000001 of the source is a [double], no more than one
    part in [2^53] above the number 0.000001. *)
Lemma d_eps_double : is_double d_eps = true.
Proof. reflexivity. Qed.

Lemma d_eps_close :
  (sf_value d_eps <= q_eps * (1 + (1 # 9007199254740992)))%Q.
Proof. vm_compute. discriminate. Qed.

(** The test [d > 0.000001], on a [float] converted to [double]. *)
Lemma f_gt_eps_correct : forall d,
  is_float d = true ->
  (f_gt_eps d = true <-> (sf_value d_eps < f_value d)%Q).
Proof.
  intros d Hd. change (f_gt_eps d) with (SFltb d_eps (to_double d)).
  destruct (to_double_correct d Hd) as [Hdd Hv].
  rewrite (SFltb_correct prec64 emax64 d_eps (to_double d) d_eps_double Hdd).
  change (f_value d) with (sf_value d). now rewrite Hv.
Qed.

(** [a + d / 2.0], computed in [double] and stored in a [float]: off the
    exact sum by the rounding of the addition and of the store. *)
Lemma f_add_half_correct : forall a d,
  is_float a = true -> is_float d = true ->
  (Qabs (f_value a + f_value d / 2) < bpow 126)%Q ->
  is_float (f_add_half a d) = true
  /\ (Qabs (f_value (f_add_half a d) - (f_value a + f_value d / 2))
      <= (bpow (-24) + 2 * bpow (-53)) * Qabs (f_value a + f_value d / 2)
         + bpow (-150))%Q.
Proof.
  intros a d Ha Hd Hsmall.
  change (f_add_half a d)
    with (to_float (SFadd prec64 emax64 (to_double a)
                      (SFdiv prec64 emax64 (to_double d) d_two))).
  change (@f_value spec_float binary32_ops) with sf_value in *.
  destruct (to_double_correct a Ha) as [Ha1 Ha2].
  destruct (half_correct d Hd) as [Hh1 Hh2].
  set (s := (sf_value a + sf_value d / 2)%Q) in *.
  assert (Hs : (sf_value (to_double a)
                + sf_value (SFdiv prec64 emax64 (to_double d) d_two) == s)%Q)
    by (rewrite Ha2, Hh2; reflexivity).
  destruct (Qabs_bounds s) as (Hs0 & Hs1 & Hs2).
  assert (Hbig : (bpow 126 < bpow (emax64 - 1))%Q)
    by (apply bpow_lt; reflexivity).
  destruct (SFadd_correct prec64 emax64 prec64_pos emax64_big
              (to_double a) (SFdiv prec64 emax64 (to_double d) d_two)
              Ha1 Hh1) as [Hσ1 Hσ2].
  { rewrite Hs. lra. }
  set (σ := SFadd prec64 emax64 (to_double a)
              (SFdiv prec64 emax64 (to_double d) d_two)) in *.
  rewrite Hs in Hσ2. rewrite bpow_m53 in Hσ2.
  apply Qabs_le_elim in Hσ2. destruct Hσ2 as [Hσl Hσu].
  assert (Hσabs : (Qabs (sf_value σ)
                   <= (1 + (1 # 9007199254740992)) * Qabs s)%Q)
    by (apply Qabs_le_intro; lra).
  pose proof bpow_126_127 as H127.
  destruct (to_float_correct σ Hσ1) as [Hg1 Hg2]; [lra|].
  split; [exact Hg1|].
  rewrite bpow_m24 in Hg2 |- *. rewrite bpow_m53.
  apply Qabs_le_elim in Hg2. destruct Hg2 as [Hgl Hgu].
  pose proof (bpow_pos (-150)) as Heta.
  apply Qabs_le_intro; lra.
Qed.

(** The difference of two bounds is a [float], off the exact difference by
    at most one part in [2^24] of it. *)
Lemma width_correct : forall lo hi,
  is_float lo = true -> is_float hi = true ->
  (f_value lo < f_value hi)%Q ->
  (Qabs (f_value lo) <= bpow 125)%Q -> (Qabs (f_value hi) <= bpow 125)%Q ->
  is_float (f_sub hi lo) = true
  /\ (Qabs (f_value (f_sub hi lo) - (f_value hi - f_value lo))
      <= (1 # 16777216) * (f_value hi - f_value lo))%Q.
Proof.
  intros lo hi Hlo Hhi Hlt HMlo HMhi.
  apply Qabs_le_elim in HMlo, HMhi.
  pose proof bpow_125_126 as H126. pose proof bpow_126_127 as H127.
  assert (Hx : (Qabs (f_value hi - f_value lo) == f_value hi - f_value lo)%Q)
    by (apply Qabs_pos; lra).
  destruct (f_sub_correct hi lo Hhi Hlo) as [Hd1 Hd2].
  { rewrite Hx. lra. }
  rewrite Hx, bpow_m24 in Hd2. split; assumption.
Qed.

(** The midpoint the loop computes from bounds that have [T] between them
    is a [float], off the exact midpoint by at most the rounding of [T] and
    one part in [2^23] of the distance of the bounds. *)
Lemma next_pick_correct : forall lo hi T,
  is_float lo = true -> is_float hi = true ->
  (f_value lo < T)%Q -> (T < f_value hi)%Q ->
  (Qabs (f_value lo) <= bpow 125)%Q -> (Qabs (f_value hi) <= bpow 125)%Q ->
  is_float (next_pick (mkBounds lo hi)) = true
  /\ (Qabs (f_value (next_pick (mkBounds lo hi))
            - (f_value lo + f_value hi) / 2)
      <= pick_error T (f_value hi - f_value lo))%Q.
Proof.
  intros lo hi T Hlo Hhi HloT HThi HMlo HMhi.
  assert (Hlt : (f_value lo < f_value hi)%Q) by lra.
  destruct (width_correct lo hi Hlo Hhi Hlt HMlo HMhi) as [Hd1 Hd2].
  apply Qabs_le_elim in HMlo, HMhi.
  pose proof bpow_125_126 as H126.
  apply Qabs_le_elim in Hd2. destruct Hd2 as [Hdl Hdu].
  unfold next_pick. cbn [current_low current_high].
  set (d := f_sub hi lo) in *.
  set (s := (f_value lo + f_value d / 2)%Q).
  destruct (Qabs_bounds T) as (HT0 & HT1 & HT2).
  assert (Hsabs : (Qabs s <= Qabs T + (f_value hi - f_value lo))%Q)
    by (apply Qabs_le_intro; unfold s; halves; lra).
  assert (Hsbig : (Qabs s <= (1 + (1 # 16777216)) * bpow 125)%Q)
    by (apply Qabs_le_intro; unfold s; halves; lra).
  destruct (Qabs_bounds s) as (Hs0 & Hs1 & Hs2).
  destruct (f_add_half_correct lo d Hlo Hd1) as [Hg1 Hg2].
  { fold s. lra. }
  fold s in Hg2. split; [exact Hg1|].
  rewrite bpow_m24, bpow_m53 in Hg2.
  apply Qabs_le_elim in Hg2. destruct Hg2 as [Hgl Hgu].
  unfold pick_error, rounding_of. pose proof (bpow_pos (-150)) as Heta.
  apply Qabs_le_intro; unfold s in *; halves; lra.
Qed.

(** ** The shrinking of the bounds *)

Lemma two_pow_pos : forall k, (0 < two_pow k)%Q.
Proof. induction k; cbn [two_pow]; lra. Qed.

Lemma shrink_pos : forall k, (0 < shrink k)%Q.
Proof. induction k; cbn [shrink]; unfold shrink_rate; lra. Qed.

Lemma shrink_le : forall j k, (shrink (j + k) <= shrink k)%Q.
Proof.
  induction j as [|j IH]; intros k; cbn [Nat.add shrink].
  - lra.
  - specialize (IH k). pose proof (shrink_pos (j + k)).
    unfold shrink_rate. lra.
Qed.

(** While a step halves what [two_pow] doubles, up to one part in [2^22]. *)
Lemma shrink_two_pow : forall j k,
  (shrink k * two_pow k <= shrink (j + k) * two_pow (j + k))%Q.
Proof.
  induction j as [|j IH]; intros k; cbn [Nat.add shrink two_pow].
  - lra.
  - specialize (IH k). pose proof (shrink_pos (j + k)) as Hs.
    pose proof (two_pow_pos (j + k)) as Ht.
    assert (Hp : (0 < shrink (j + k) * two_pow (j + k))%Q)
      by (apply Qmult_lt_0_compat; assumption).
    unfold shrink_rate. lra.
Qed.

(** Two hundred steps: [shrink] is then [2^-200] up to one part in ten
    thousand, and brings the widest range of the theorem below 0.000001. *)
Lemma shrink_200 :
  (shrink 200 * two_pow 200 <= 10001 # 10000)%Q
  /\ (shrink 200 * bpow 126 <= q_eps)%Q.
Proof. split; vm_compute; discriminate. Qed.

(** After [k] steps from bounds [W] apart, with [W <= 0.000001 * 2^k], what
    is left of [W] is 0.000001, up to one part in ten thousand. *)
Lemma shrink_bound : forall k W,
  (0 <= W)%Q -> (W <= q_eps * two_pow k)%Q -> (W <= bpow 126)%Q ->
  (shrink k * W <= q_eps * (10001 # 10000))%Q.
Proof.
  intros k W HW0 HW Hbig. destruct shrink_200 as [H1 H2].
  pose proof (shrink_pos k) as Hs.
  destruct (Nat.le_gt_cases k 200) as [Hk|Hk].
  - pose proof (shrink_two_pow (200 - k) k) as Hm.
    replace (200 - k + k)%nat with 200%nat in Hm by lia.
    assert (Ha : (shrink k * W <= shrink k * (q_eps * two_pow k))%Q)
      by (apply Qmult_le_l; assumption).
    unfold q_eps in *. lra.
  - pose proof (shrink_le (k - 200) 200) as Hm.
    replace (k - 200 + 200)%nat with k in Hm by lia.
    assert (Ha : (shrink k * W <= shrink k * bpow 126)%Q)
      by (apply Qmult_le_l; assumption).
    assert (Hb : (shrink k * bpow 126 <= shrink 200 * bpow 126)%Q)
      by (apply Qmult_le_compat_r; [assumption | apply Qlt_le_weak, bpow_pos]).
    unfold q_eps in *. lra.
Qed.

Lemma rounding_of_pos : forall T, (0 < rounding_of T)%Q.
Proof.
  intros T. unfold rounding_of. pose proof (bpow_pos (-150)).
  pose proof (Qabs_nonneg T). lra.
Qed.

(** When the loop finds the range closed, the bounds are no further apart
    than 0.000001 and one part in [2^23] of it. *)
Lemma range_closed_width : forall lo hi,
  is_float lo = true -> is_float hi = true ->
  (f_value lo < f_value hi)%Q ->
  (Qabs (f_value lo) <= bpow 125)%Q -> (Qabs (f_value hi) <= bpow 125)%Q ->
  range_open (mkBounds lo hi) = false ->
  (f_value hi - f_value lo <= q_eps + (1 # 8388608) * q_eps)%Q.
Proof.
  intros lo hi Hlo Hhi Hlt HMlo HMhi Hro.
  unfold range_open in Hro. cbn [current_low current_high] in Hro.
  assert (Hg : f_gt hi lo = true) by (apply f_gt_correct; assumption).
  rewrite Hg in Hro. cbn [andb] in Hro.
  destruct (width_correct lo hi Hlo Hhi Hlt HMlo HMhi) as (Hd1 & Hd2).
  assert (Hle : (f_value (f_sub hi lo) <= sf_value d_eps)%Q).
  { apply Qnot_lt_le. intros Hc.
    apply (f_gt_eps_correct _ Hd1) in Hc. congruence. }
  pose proof d_eps_close as Hc. apply Qabs_le_elim in Hd2.
  unfold q_eps in *. lra.
Qed.

(** ** The invariant of the search *)

(** One step of the search, for a pending pick no further than [c] outside
    the bounds and no further than [wn] from either. *)
Lemma iteration_step : forall T wn c lo hi d,
  trap_direction d = dir_guess ->
  is_float lo = true -> is_float hi = true -> is_float (rogue_pick d) = true ->
  (f_value lo < T)%Q -> (T < f_value hi)%Q ->
  (Qabs (f_value lo) <= bpow 125)%Q -> (Qabs (f_value hi) <= bpow 125)%Q ->
  (0 <= c)%Q ->
  (f_value hi - f_value (rogue_pick d) <= wn)%Q ->
  (f_value (rogue_pick d) - f_value lo <= wn)%Q ->
  (f_value lo - c <= f_value (rogue_pick d))%Q ->
  (f_value (rogue_pick d) <= f_value hi + c)%Q ->
  match solver_step T (mkBounds lo hi, d, Continue) with
  | (b', d', Continue) =>
      trap_direction d' = dir_guess
      /\ is_float (current_low b') = true
      /\ is_float (current_high b') = true
      /\ is_float (rogue_pick d') = true
      /\ (f_value (current_low b') < T /\ T < f_value (current_high b')
          /\ Qabs (f_value (current_low b')) <= bpow 125
          /\ Qabs (f_value (current_high b')) <= bpow 125
          /\ Qabs (f_value (rogue_pick d')
                   - (f_value (current_low b') + f_value (current_high b')) / 2)
             <= pick_error T (f_value (current_high b')
                              - f_value (current_low b'))
          /\ f_value (current_high b') - f_value (current_low b') <= wn)%Q
  | (b', d', Break) =>
      (Qabs (f_value (rogue_pick d') - T)
       <= q_eps + (1 # 8388608) * q_eps + c
       /\ Qabs (f_value (rogue_pick d') - T)
          <= f_value hi - f_value lo + c)%Q
  end.
Proof.
  intros T wn c lo hi d Hdir Hlo Hhi Hp HloT HThi HMlo HMhi Hc
    Hw1 Hw2 Hc1 Hc2.
  set (p := rogue_pick d) in *.
  pose proof (Qabs_le_elim _ _ HMlo) as [HMlo1 HMlo2].
  pose proof (Qabs_le_elim _ _ HMhi) as [HMhi1 HMhi2].
  assert (Hfin : forall lo' hi',
            is_float lo' = true -> is_float hi' = true ->
            (f_value lo' < T)%Q -> (T < f_value hi')%Q ->
            (Qabs (f_value lo') <= bpow 125)%Q ->
            (Qabs (f_value hi') <= bpow 125)%Q ->
            (f_value hi' - f_value lo' <= wn)%Q ->
            (f_value hi' - f_value lo' <= f_value hi - f_value lo)%Q ->
            (Qabs (f_value p - T) <= f_value hi' - f_value lo' + c)%Q ->
            forall d1, rogue_pick d1 = p ->
            match (if range_open (mkBounds lo' hi')
                   then (mkBounds lo' hi',
                         set_direction
                           (set_pick d1 (next_pick (mkBounds lo' hi')))
                           dir_guess, Continue)
                   else (mkBounds lo' hi', d1, Break)) with
            | (b', d', Continue) =>
                trap_direction d' = dir_guess
                /\ is_float (current_low b') = true
                /\ is_float (current_high b') = true
                /\ is_float (rogue_pick d') = true
                /\ (f_value (current_low b') < T
                    /\ T < f_value (current_high b')
                    /\ Qabs (f_value (current_low b')) <= bpow 125
                    /\ Qabs (f_value (current_high b')) <= bpow 125
                    /\ Qabs (f_value (rogue_pick d')
                             - (f_value (current_low b')
                                + f_value (current_high b')) / 2)
                       <= pick_error T (f_value (current_high b')
                                        - f_value (current_low b'))
                    /\ f_value (current_high b') - f_value (current_low b')
                       <= wn)%Q
            | (b', d', Break) =>
                (Qabs (f_value (rogue_pick d') - T)
                 <= q_eps + (1 # 8388608) * q_eps + c
                 /\ Qabs (f_value (rogue_pick d') - T)
                    <= f_value hi - f_value lo + c)%Q
            end).
  { intros lo' hi' Hlo' Hhi' HloT' HThi' HMlo' HMhi' Hwn Hww Hdist d1 Hd1.
    assert (Hlt' : (f_value lo' < f_value hi')%Q) by lra.
    destruct (range_open (mkBounds lo' hi')) eqn:Hro.
    - destruct (next_pick_correct lo' hi' T Hlo' Hhi' HloT' HThi' HMlo' HMhi')
        as (Hn1 & Hn2).
      cbn [trap_direction rogue_pick set_direction set_pick
           current_low current_high].
      repeat split; assumption.
    - pose proof (range_closed_width lo' hi' Hlo' Hhi' Hlt' HMlo' HMhi' Hro)
        as Hcl.
      rewrite Hd1. split; lra. }
  unfold solver_step, feedback. fold p. rewrite Hdir, Z.eqb_refl.
  destruct (Qcompare_spec (f_value p) T) as [Heq|Hlt|Hgt].
  - (* the pick is the threshold *)
    unfold search_iteration.
    cbn [trap_direction rogue_pick set_direction].
    change (dir_unlocked =? dir_unlocked) with true. cbv iota.
    cbn [rogue_pick set_direction]. fold p.
    split; apply Qabs_le_intro; unfold q_eps; lra.
  - (* too low *)
    unfold search_iteration.
    cbn [trap_direction rogue_pick set_direction].
    change (dir_up =? dir_unlocked) with false.
    change (dir_up =? dir_up) with true. cbv iota. cbn [orb]. cbv iota.
    unfold update_bounds. change (dir_up =? dir_up) with true. cbv iota.
    cbn [current_low current_high]. fold p.
    destruct (f_gt p lo) eqn:Hg.
    + apply (f_gt_correct p lo Hp Hlo) in Hg.
      apply Hfin; try assumption; try reflexivity; try lra.
      * apply Qabs_le_intro; lra.
      * apply Qabs_le_intro; lra.
    + assert (Hle : (f_value p <= f_value lo)%Q).
      { apply Qnot_lt_le. intros Hc'.
        apply (f_gt_correct p lo Hp Hlo) in Hc'. congruence. }
      apply Hfin; try assumption; try reflexivity; try lra.
      apply Qabs_le_intro; lra.
  - (* too high *)
    unfold search_iteration.
    cbn [trap_direction rogue_pick set_direction].
    change (dir_down =? dir_unlocked) with false.
    change (dir_down =? dir_up) with false.
    change (dir_down =? dir_down) with true. cbv iota. cbn [orb]. cbv iota.
    unfold update_bounds. change (dir_down =? dir_up) with false. cbv iota.
    cbn [current_low current_high]. fold p. unfold f_lt.
    destruct (f_gt hi p) eqn:Hg.
    + apply (f_gt_correct hi p Hhi Hp) in Hg.
      apply Hfin; try assumption; try reflexivity; try lra.
      * apply Qabs_le_intro; lra.
      * apply Qabs_le_intro; lra.
    + assert (Hle : (f_value hi <= f_value p)%Q).
      { apply Qnot_lt_le. intros Hc'.
        apply (f_gt_correct hi p Hhi Hp) in Hc'. congruence. }
      apply Hfin; try assumption; try reflexivity; try lra.
      apply Qabs_le_intro; lra.
Qed.

(** The first step, on a pending pick within the bounds. *)
Lemma float_invariant_first : forall T lo hi d,
  trap_direction d = dir_guess ->
  is_float lo = true -> is_float hi = true -> is_float (rogue_pick d) = true ->
  (f_value lo < T)%Q -> (T < f_value hi)%Q ->
  (Qabs (f_value lo) <= bpow 125)%Q -> (Qabs (f_value hi) <= bpow 125)%Q ->
  (f_value lo <= f_value (rogue_pick d))%Q ->
  (f_value (rogue_pick d) <= f_value hi)%Q ->
  float_invariant T (f_value hi - f_value lo) 0
    (solver_step T (mkBounds lo hi, d, Continue)).
Proof.
  intros T lo hi d Hdir Hlo Hhi Hp HloT HThi HMlo HMhi Hp1 Hp2.
  pose proof (rounding_of_pos T) as He.
  pose proof (iteration_step T (f_value hi - f_value lo) 0 lo hi d
                Hdir Hlo Hhi Hp HloT HThi HMlo HMhi) as Hstep.
  destruct (solver_step T (mkBounds lo hi, d, Continue)) as [[b' d'] [|]];
    unfold float_invariant.
  - destruct Hstep as (H1 & H2 & H3 & H4 & H5 & H6 & H7 & H8 & H9 & H10);
      try lra.
    repeat split; try assumption. cbn [shrink]. unfold search_slack. lra.
  - destruct Hstep as [Hb _]; try lra. unfold search_slack. lra.
Qed.

(** Every further step shortens the distance of the bounds by
    [shrink_rate], up to the rounding of the threshold. *)
Lemma float_invariant_step : forall T W n s,
  float_invariant T W n s ->
  float_invariant T W (S n) (solver_step T s).
Proof.
  intros T W n [[[lo hi] d] [|]] Hinv; [|exact Hinv].
  unfold float_invariant in Hinv. cbn [current_low current_high] in Hinv.
  destruct Hinv as (Hdir & Hlo & Hhi & Hp & HloT & HThi & HMlo & HMhi
                    & Hmid & Hw).
  pose proof (rounding_of_pos T) as He.
  pose proof (Qabs_le_elim _ _ Hmid) as [Hm1 Hm2].
  set (w := (f_value hi - f_value lo)%Q) in *.
  set (e := pick_error T w) in *.
  assert (He' : (e == rounding_of T + (1 # 8388608) * w)%Q) by reflexivity.
  assert (Hwn : forall w', (w' <= w * (1 # 2) + e ->
                 w' <= shrink (S n) * W + search_slack T)%Q).
  { intros w' Hw'. cbn [shrink]. unfold shrink_rate, search_slack in *.
    lra. }
  destruct (Qlt_le_dec (w * (1 # 2)) e) as [Hout|Hin].
  - (* the pick may be outside the bounds: they are within the slack *)
    assert (Hc : (0 <= e - w * (1 # 2))%Q) by lra.
    pose proof (iteration_step T (w * (1 # 2) + e) (e - w * (1 # 2)) lo hi d
                  Hdir Hlo Hhi Hp HloT HThi HMlo HMhi Hc) as Hstep.
    destruct (solver_step T (mkBounds lo hi, d, Continue)) as [[b' d'] [|]];
      unfold float_invariant.
    + destruct Hstep as (H1 & H2 & H3 & H4 & H5 & H6 & H7 & H8 & H9 & H10);
        try (unfold w in *; halves; lra).
      repeat split; try assumption. apply Hwn. exact H10.
    + destruct Hstep as [_ Hb]; try (unfold w in *; halves; lra).
      fold w in Hb. unfold search_slack, q_eps in *. lra.
  - (* the pick is within the bounds *)
    pose proof (iteration_step T (w * (1 # 2) + e) 0 lo hi d
                  Hdir Hlo Hhi Hp HloT HThi HMlo HMhi ltac:(lra)) as Hstep.
    destruct (solver_step T (mkBounds lo hi, d, Continue)) as [[b' d'] [|]];
      unfold float_invariant.
    + destruct Hstep as (H1 & H2 & H3 & H4 & H5 & H6 & H7 & H8 & H9 & H10);
        try (unfold w in *; halves; lra).
      repeat split; try assumption. apply Hwn. exact H10.
    + destruct Hstep as [Hb _]; try (unfold w in *; halves; lra).
      unfold search_slack, q_eps in *. lra.
Qed.

(** So the invariant holds after every step. *)
Lemma float_invariant_run : forall T lo hi d n,
  trap_direction d = dir_guess ->
  is_float lo = true -> is_float hi = true -> is_float (rogue_pick d) = true ->
  (f_value lo < T)%Q -> (T < f_value hi)%Q ->
  (Qabs (f_value lo) <= bpow 125)%Q -> (Qabs (f_value hi) <= bpow 125)%Q ->
  (f_value lo <= f_value (rogue_pick d))%Q ->
  (f_value (rogue_pick d) <= f_value hi)%Q ->
  float_invariant T (f_value hi - f_value lo) n
    (solver_run T (S n) (mkBounds lo hi, d, Continue)).
Proof.
  intros T lo hi d n Hdir Hlo Hhi Hp HloT HThi HMlo HMhi Hp1 Hp2.
  induction n as [|n IH].
  - cbn [solver_run]. now apply float_invariant_first.
  - change (solver_run T (S (S n)) (mkBounds lo hi, d, Continue))
      with (solver_step T (solver_run T (S n) (mkBounds lo hi, d, Continue))).
    now apply float_invariant_step.
Qed.

(** C5, in the arithmetic of the code.  The bounds and the pending pick are
    finite [float]s, the bounds of absolute value at most [2^125]; the
    threshold [T] is any number strictly between the bounds and the pick is
    within them; the feedback is too low exactly below the threshold, too
    high exactly above it, unlocked on it.  After any number [k] of steps
    with [high - low <= 0.000001 * 2^k], that is from
    [ceil (log2 ((high - low) / 0.000001))] steps on, the pick is within
    [1.0001 * 0.000001 + |T| / 2^22 + 2^-148] of the threshold: 0.000001 up
    to one part in ten thousand, and four times the rounding of a [float]
    of the size of the threshold. *)
Theorem trap_search_converges :
  forall (lo hi : spec_float) (T : Q) (d : Dungeon spec_float) (k : nat),
  is_float lo = true -> is_float hi = true ->
  is_float (rogue_pick d) = true ->
  (Qabs (f_value lo) <= bpow 125)%Q -> (Qabs (f_value hi) <= bpow 125)%Q ->
  (f_value lo < T)%Q -> (T < f_value hi)%Q ->
  (f_value lo <= f_value (rogue_pick d))%Q ->
  (f_value (rogue_pick d) <= f_value hi)%Q ->
  trap_direction d = dir_guess ->
  (f_value hi - f_value lo <= q_eps * two_pow k)%Q ->
  (Qabs (f_value (guess_after T k (mkBounds lo hi, d, Continue)) - T)
   <= q_eps * (10001 # 10000) + (1 # 4194304) * Qabs T + bpow (-148))%Q.
Proof.
  intros lo hi T d k Hlo Hhi Hp HMlo HMhi HloT HThi Hp1 Hp2 Hdir Hk.
  pose proof (Qabs_nonneg T) as HT0.
  pose proof (bpow_pos (-148)) as H148.
  assert (Heta : (4 * bpow (-150) == bpow (-148))%Q) by reflexivity.
  unfold guess_after. destruct k as [|n].
  - cbn [solver_run fst snd two_pow] in *.
    apply Qabs_le_intro; unfold q_eps in *; lra.
  - pose proof (float_invariant_run T lo hi d n Hdir Hlo Hhi Hp HloT HThi
                  HMlo HMhi Hp1 Hp2) as Hinv.
    assert (HW : (shrink (S n) * (f_value hi - f_value lo)
                  <= q_eps * (10001 # 10000))%Q).
    { apply shrink_bound; [lra | exact Hk |].
      apply Qabs_le_elim in HMlo, HMhi. pose proof bpow_125_126. lra. }
    destruct (solver_run T (S n) (mkBounds lo hi, d, Continue))
      as [[[lo' hi'] d'] [|]]; cbn [fst snd];
      unfold float_invariant in Hinv; cbn [current_low current_high] in Hinv.
    + destruct Hinv as (_ & _ & _ & _ & HloT' & HThi' & _ & _ & Hmid & Hw).
      apply Qabs_le_elim in Hmid. destruct Hmid as [Hm1 Hm2].
      cbn [shrink] in HW.
      unfold pick_error, search_slack, rounding_of, shrink_rate, q_eps in *.
      apply Qabs_le_intro; halves; lra.
    + unfold search_slack, rounding_of, q_eps in *.
      apply Qabs_le_elim in Hinv. destruct Hinv as [Hi1 Hi2].
      apply Qabs_le_intro; lra.
Qed.

Lemma trap_search_converges_witness :
  (Qabs (f_value (guess_after hidden_threshold 27 float_start)
         - hidden_threshold)
   <= q_eps * (10001 # 10000) + (1 # 4194304) * Qabs hidden_threshold
      + bpow (-148))%Q.
Proof.
  apply (trap_search_converges (S754_zero false) angle_100 hidden_threshold
           (trap_block dir_guess (f_half angle_100)) 27);
    first [reflexivity | vm_compute; reflexivity | vm_compute; discriminate].
Defined.

(** C5 as stated fails in the arithmetic of the code, in two ways.  A
    threshold between two neighbouring [float]s can be further than
    0.000001 from both: for 42.300001 in the range 0..100 no pick ever
    comes within 0.000001, however many the steps, and the search never
    stops by itself.  And a threshold that is a [float] can be missed too:
    the loop is left on the rounded difference of the bounds, and in the
    range of [fine_start], less than 2 * 0.000001 wide, the search stops
    after one step with its pick further than 0.000001 from the
    threshold. *)
Lemma trap_search_float_counterexample :
  ((0 < hidden_threshold /\ hidden_threshold < f_value angle_100)%Q
   /\ ~ (exists k,
           (Qabs (f_value (guess_after hidden_threshold k float_start)
                  - hidden_threshold) <= q_eps)%Q)
   /\ ~ (exists k, snd (solver_run hidden_threshold k float_start) = Break))
  /\ (let T := f_value fine_threshold in
      (f_value fine_low < T /\ T < f_value fine_high)%Q
      /\ (f_value fine_high - f_value fine_low <= q_eps * 2)%Q
      /\ guess_after T 1 fine_start = S754_finite false 9844670 (-43)
      /\ snd (solver_run T 2 fine_start) = Break
      /\ forall k, (1 <= k)%nat ->
           ~ (Qabs (f_value (guess_after T k fine_start) - T) <= q_eps)%Q).
Proof.
  split; [exact float_search_never_close | exact float_search_stops_early].
Qed.


(** ** The treasure collector *)

Section TreasureCollector.
Context {F : Type}.
Variable TIME_TREASURE_AVAILABLE : Z.

Lemma nth_store : forall (buf : list Z) (i j : nat) (v : Z),
  nth i (store buf j v) 0
  = if (i =? j)%nat && (j <? List.length buf)%nat then v else nth i buf 0.
Proof.
  induction buf as [|b buf IH]; intros i j v.
  - cbn. rewrite andb_false_r. now destruct i.
  - destruct j as [|j], i as [|i]; cbn [store nth]; try reflexivity.
    rewrite IH. reflexivity.
Qed.

Lemma length_store : forall (buf : list Z) (j : nat) (v : Z),
  List.length (store buf j v) = List.length buf.
Proof.
  induction buf as [|b buf IH]; intros [|j] v; cbn; auto.
Qed.

(** The writes of the loop: bytes that are not zero, at the indices from
    [spoils_count] on, one after the other; and why the loop was left. *)
Lemma collect_loop_log :
  forall fuel (env : Env F) start n d c log d' c' log' n',
  collect_loop TIME_TREASURE_AVAILABLE fuel env start n d c log
  = Some (d', c', log', n') ->
  exists vs,
    log' = log ++ puts c vs
    /\ c' = (c + List.length vs)%nat
    /\ Forall (fun v => v <> 0) vs
    /\ ((c <= 4)%nat -> (c' <= 4)%nat)
    /\ (collect_guard env n' d' c' = false
        \/ treasure_timed_out TIME_TREASURE_AVAILABLE start (env_time env n')
           = true).
Proof.
  induction fuel as [|fuel IH]; intros env start n d c log d' c' log' n' Hr;
    [discriminate|].
  cbn [collect_loop] in Hr.
  set (d1 := env_write env n d) in *.
  destruct (collect_guard env n d1 c) eqn:G.
  - destruct (treasure_timed_out _ start (env_time env n)) eqn:Tm.
    + injection Hr as <- <- <- <-. exists [].
      rewrite app_nil_r, Nat.add_0_r. repeat apply conj; auto.
    + destruct (Z.eqb_spec (nth c (treasure d1) 0) 0) as [Ez|Nz];
        cbn [negb] in Hr.
      * apply IH in Hr. exact Hr.
      * apply IH in Hr. destruct Hr as (vs & Hlog & Hc & Hnz & Hle & Hexit).
        exists (nth c (treasure d1) 0 :: vs).
        cbn [puts List.length]. rewrite <- app_assoc in Hlog.
        repeat apply conj; auto; [lia|].
        intros _. apply Hle.
        unfold collect_guard in G. apply andb_true_iff in G.
        destruct G as [_ G]. apply Nat.ltb_lt in G. lia.
  - injection Hr as <- <- <- <-. exists [].
    rewrite app_nil_r, Nat.add_0_r. repeat apply conj; auto.
Qed.

Lemma collect_loop_spoils :
  forall fuel (env : Env F) start n d c log d' c' log' n',
  keeps_spoils env -> keeps_revealed env ->
  collected d c ->
  collect_loop TIME_TREASURE_AVAILABLE fuel env start n d c log
  = Some (d', c', log', n') ->
  collected d' c'.
Proof.
  induction fuel as [|fuel IH];
    intros env start n d c log d' c' log' n' Hs Ht Hd Hr; [discriminate|].
  cbn [collect_loop] in Hr.
  assert (Hd1 : collected (env_write env n d) c).
  { destruct Hd as [Hlen Hd]. split; [now rewrite Hs|].
    intros i Hi. specialize (Hd i Hi). rewrite Hs.
    destruct (i <? c)%nat; [|exact Hd].
    destruct Hd as [Hnz Hv]. rewrite (Ht n d i Hnz). auto. }
  set (d1 := env_write env n d) in *.
  destruct (collect_guard env n d1 c) eqn:G.
  - destruct (treasure_timed_out _ start (env_time env n)).
    + now injection Hr as <- <- <- <-.
    + destruct (Z.eqb_spec (nth c (treasure d1) 0) 0) as [Ez|Nz];
        cbn [negb] in Hr.
      * eapply IH; eassumption.
      * eapply IH; [exact Hs | exact Ht | | exact Hr].
        unfold collect_guard in G. apply andb_true_iff in G.
        destruct G as [_ G]. apply Nat.ltb_lt in G.
        destruct Hd1 as [Hlen Hd1]. unfold set_spoils, collected.
        cbn [spoils treasure]. split; [now rewrite length_store|].
        intros i Hi. specialize (Hd1 i Hi). rewrite nth_store, Hlen.
        destruct (Nat.eqb_spec i c) as [->|Hne].
        -- replace (c <? 4)%nat with true by (symmetry; apply Nat.ltb_lt; lia).
           replace (c <? S c)%nat with true by (symmetry; apply Nat.ltb_lt; lia).
           cbn [andb]. auto.
        -- cbn [andb].
           destruct (Nat.ltb_spec i c), (Nat.ltb_spec i (S c)); try lia; exact Hd1.
  - now injection Hr as <- <- <- <-.
Qed.

(** The loop is left at the latest by the iteration that finds the time
    over, [exit_flag] set or [running] false. *)
Lemma collect_loop_stops : forall m (env : Env F) start n d c log,
  treasure_timed_out TIME_TREASURE_AVAILABLE start (env_time env (n + m)) = true
  \/ env_exit_flag env (n + m) = true
  \/ (forall d0, running (env_write env (n + m) d0) = false) ->
  exists r,
    collect_loop TIME_TREASURE_AVAILABLE (S m) env start n d c log = Some r.
Proof.
  induction m as [|m IH]; intros env start n d c log Hstop.
  - rewrite Nat.add_0_r in Hstop. cbn [collect_loop].
    destruct (collect_guard env n (env_write env n d) c) eqn:G; [|eauto].
    destruct (treasure_timed_out _ start (env_time env n)) eqn:Tm; [eauto|].
    exfalso. unfold collect_guard in G.
    apply andb_true_iff in G. destruct G as [G _].
    apply andb_true_iff in G. destruct G as [Gr Ge].
    destruct Hstop as [Hs|[Hs|Hs]].
    + discriminate.
    + rewrite Hs in Ge. discriminate.
    + rewrite Hs in Gr. discriminate.
  - cbn [collect_loop].
    destruct (collect_guard env n (env_write env n d) c); [|eauto].
    destruct (treasure_timed_out _ start (env_time env n)); [eauto|].
    replace (n + S m)%nat with (S n + m)%nat in Hstop by lia.
    destruct (negb _); apply IH; exact Hstop.
Qed.

Lemma firstn_prefix : forall (l rest : list Z),
  firstn (List.length l) (l ++ rest) = l.
Proof.
  induction l as [|x l IH]; intros rest; cbn; [reflexivity | now rewrite IH].
Qed.

Lemma skipn_prefix : forall (l rest : list Z),
  skipn (List.length l) (l ++ rest) = rest.
Proof.
  induction l as [|x l IH]; intros rest; cbn; [reflexivity | apply IH].
Qed.

Lemma puts_app : forall i vs v,
  puts i (vs ++ [v]) = puts i vs ++ [Put (i + List.length vs) v].
Proof.
  intros i vs. revert i. induction vs as [|w vs IH]; intros i v; cbn [puts app].
  - now rewrite Nat.add_0_r.
  - rewrite IH. cbn [List.length]. now rewrite Nat.add_succ_r.
Qed.

(** The loop of the code follows the specification's account: entered at
    poll [n] with what the account has at poll [n], it is left at the
    first poll from [n] on that ends the collection, with what the account
    has there. *)
Lemma collect_loop_polled :
  forall fuel (env : Env F) d0 n d vs log d' c' log' n',
  polled env d0 n = (env_write env n d, vs) ->
  (List.length vs <= 4)%nat ->
  collect_loop TIME_TREASURE_AVAILABLE fuel env (env_time env O) n d
    (List.length vs) log = Some (d', c', log', n') ->
  collection_over TIME_TREASURE_AVAILABLE env d0 n' = true
  /\ (forall k, (n <= k < n')%nat ->
        collection_over TIME_TREASURE_AVAILABLE env d0 k = false)
  /\ exists vs',
       polled env d0 n' = (d', vs') /\ c' = List.length vs'
       /\ (c' <= 4)%nat
       /\ log' = log ++ puts (List.length vs) (skipn (List.length vs) vs')
       /\ firstn (List.length vs) vs' = vs.
Proof.
  induction fuel as [|fuel IH];
    intros env d0 n d vs log d' c' log' n' Hp Hle Hr; [discriminate|].
  cbn [collect_loop] in Hr.
  set (d1 := env_write env n d) in *.
  assert (Hover : collection_over TIME_TREASURE_AVAILABLE env d0 n
                  = negb (collect_guard env n d1 (List.length vs))
                    || treasure_timed_out TIME_TREASURE_AVAILABLE
                         (env_time env O) (env_time env n)).
  { unfold collection_over, collect_guard, treasure_timed_out.
    rewrite Hp. cbn [fst snd]. fold d1.
    destruct (running d1), (env_exit_flag env n),
      (Nat.leb_spec 4 (List.length vs)), (Nat.ltb_spec (List.length vs) 4),
      (TIME_TREASURE_AVAILABLE <? env_time env n - env_time env O);
      cbn; try reflexivity; lia. }
  destruct (collect_guard env n d1 (List.length vs)) eqn:G.
  - destruct (treasure_timed_out _ (env_time env O) (env_time env n)) eqn:Tm.
    + injection Hr as <- <- <- <-. split; [rewrite Hover; reflexivity|].
      split; [intros k Hk; lia|]. exists vs.
      rewrite skipn_all, firstn_all, app_nil_r. auto.
    + assert (Hc : (List.length vs < 4)%nat).
      { unfold collect_guard in G. apply andb_true_iff in G.
        destruct G as [_ G]. now apply Nat.ltb_lt in G. }
      assert (Hnot : collection_over TIME_TREASURE_AVAILABLE env d0 n = false)
        by (rewrite Hover; reflexivity).
      destruct (Z.eqb_spec (nth (List.length vs) (treasure d1) 0) 0)
        as [Ez|Nz]; cbn [negb] in Hr.
      * apply (IH env d0 (S n) d1 vs) in Hr; [| |exact Hle].
        -- destruct Hr as (Ho & Hbefore & vs' & Hp' & Hc' & Hle' & Hlog & Hpre).
           split; [exact Ho|]. split.
           ++ intros k Hk. destruct (Nat.eq_dec k n) as [->|Hne];
                [exact Hnot | apply Hbefore; lia].
           ++ exists vs'. auto.
        -- cbn [polled]. rewrite Hp. cbv zeta.
           destruct (Z.eqb_spec (nth (List.length vs) (treasure d1) 0) 0);
             [reflexivity | contradiction].
      * set (v := nth (List.length vs) (treasure d1) 0) in *.
        replace (S (List.length vs)) with (List.length (vs ++ [v])) in Hr
          by (rewrite length_app; cbn; lia).
        apply (IH env d0 (S n)
                 (set_spoils d1 (store (spoils d1) (List.length vs) v))
                 (vs ++ [v])) in Hr.
        -- destruct Hr as (Ho & Hbefore & vs' & Hp' & Hc' & Hle' & Hlog & Hpre).
           split; [exact Ho|]. split.
           ++ intros k Hk. destruct (Nat.eq_dec k n) as [->|Hne];
                [exact Hnot | apply Hbefore; lia].
           ++ exists vs'. rewrite length_app in Hlog, Hpre.
              cbn [List.length] in Hlog, Hpre.
              assert (Hv : firstn (List.length vs) vs' = vs
                           /\ skipn (List.length vs) vs'
                              = v :: skipn (List.length vs + 1) vs').
              { assert (Evs : vs' = vs ++ v :: skipn (List.length vs + 1) vs').
                { rewrite <- (firstn_skipn (List.length vs + 1) vs') at 1.
                  rewrite Hpre, <- app_assoc. reflexivity. }
                rewrite Evs at 1 2.
                split; [apply firstn_prefix | apply skipn_prefix]. }
              destruct Hv as [Hv1 Hv2].
              repeat apply conj; auto.
              rewrite Hlog, Hv2. cbn [puts]. rewrite <- app_assoc.
              cbn [app]. now rewrite Nat.add_1_r.
        -- cbn [polled]. rewrite Hp. cbv zeta. fold d1. fold v.
           destruct (Z.eqb_spec v 0); [contradiction | reflexivity].
        -- rewrite length_app. cbn. lia.
  - injection Hr as <- <- <- <-. split; [rewrite Hover; reflexivity|].
    split; [intros k Hk; lia|]. exists vs.
    rewrite skipn_all, firstn_all, app_nil_r. auto.
Qed.

(** The loop is left at the latest by a poll that ends the collection. *)
Lemma collect_loop_over :
  forall m (env : Env F) d0 fuel n d vs log,
  polled env d0 n = (env_write env n d, vs) ->
  collection_over TIME_TREASURE_AVAILABLE env d0 (n + m) = true ->
  (m < fuel)%nat ->
  exists r,
    collect_loop TIME_TREASURE_AVAILABLE fuel env (env_time env O) n d
      (List.length vs) log = Some r.
Proof.
  induction m as [|m IH]; intros env d0 fuel n d vs log Hp Ho Hf;
    (destruct fuel as [|fuel]; [lia|]); cbn [collect_loop];
    set (d1 := env_write env n d) in *;
    assert (Hover : collection_over TIME_TREASURE_AVAILABLE env d0 n
                    = negb (collect_guard env n d1 (List.length vs))
                      || treasure_timed_out TIME_TREASURE_AVAILABLE
                           (env_time env O) (env_time env n))
      by (unfold collection_over, collect_guard, treasure_timed_out;
          rewrite Hp; cbn [fst snd]; fold d1;
          destruct (running d1), (env_exit_flag env n),
            (Nat.leb_spec 4 (List.length vs)),
            (Nat.ltb_spec (List.length vs) 4),
            (TIME_TREASURE_AVAILABLE <? env_time env n - env_time env O);
          cbn; try reflexivity; lia).
  - rewrite Nat.add_0_r in Ho. rewrite Ho in Hover.
    destruct (collect_guard env n d1 (List.length vs)); [|eauto].
    cbn [negb orb] in Hover. rewrite <- Hover. eauto.
  - destruct (collect_guard env n d1 (List.length vs)); [|eauto].
    destruct (treasure_timed_out _ (env_time env O) (env_time env n));
      [eauto|].
    replace (n + S m)%nat with (S n + m)%nat in Ho by lia.
    destruct (Z.eqb_spec (nth (List.length vs) (treasure d1) 0) 0)
      as [Ez|Nz]; cbn [negb].
    + apply (IH env d0 fuel (S n) d1 vs); [|exact Ho|lia].
      cbn [polled]. rewrite Hp. cbv zeta.
      destruct (Z.eqb_spec (nth (List.length vs) (treasure d1) 0) 0);
        [reflexivity | contradiction].
    + set (v := nth (List.length vs) (treasure d1) 0) in *.
      replace (S (List.length vs)) with (List.length (vs ++ [v]))
        by (rewrite length_app; cbn; lia).
      apply (IH env d0 fuel (S n)); [|exact Ho|lia].
      cbn [polled]. rewrite Hp. cbv zeta. fold d1. fold v.
      destruct (Z.eqb_spec v 0); [contradiction | reflexivity].
Qed.

(** The bytes of the account: none is zero, and byte [i] is byte [i] of
    [treasure] as it was read by the poll that copied it, a poll that found
    [i] bytes copied. *)
Lemma polled_values : forall (env : Env F) d0 k,
  Forall (fun v => v <> 0) (snd (polled env d0 k))
  /\ forall i, (i < List.length (snd (polled env d0 k)))%nat ->
       exists j, (j < k)%nat
         /\ List.length (snd (polled env d0 j)) = i
         /\ nth i (snd (polled env d0 k)) 0
            = nth i (treasure (fst (polled env d0 j))) 0
         /\ List.length (snd (polled env d0 (S j))) = S i.
Proof.
  intros env d0. induction k as [|k [IHnz IHv]].
  - cbn. split; [constructor | intros i Hi; lia].
  - cbn [polled]. destruct (polled env d0 k) as [d1 vs] eqn:Ek.
    cbn [fst snd] in *. cbv zeta.
    destruct (Z.eqb_spec (nth (List.length vs) (treasure d1) 0) 0) as [Ez|Nz];
      cbn [fst snd].
    + split; [exact IHnz|]. intros i Hi.
      destruct (IHv i Hi) as (j & Hj & Hl & Hv & Hs).
      exists j. repeat apply conj; auto.
    + split; [apply Forall_app; split; [exact IHnz | now constructor]|].
      intros i Hi. rewrite length_app in Hi. cbn [List.length] in Hi.
      destruct (Nat.eq_dec i (List.length vs)) as [->|Hne].
      * exists k. rewrite Ek. cbn [fst snd].
        rewrite app_nth2, Nat.sub_diag by lia. cbn [nth].
        repeat apply conj; try lia; try reflexivity.
        cbn [polled]. rewrite ?Ek. cbv zeta.
        destruct (Z.eqb_spec (nth (List.length vs) (treasure d1) 0) 0);
          [contradiction|]. cbn [snd]. rewrite length_app. cbn. lia.
      * destruct (IHv i ltac:(lia)) as (j & Hj & Hl & Hv & Hs).
        exists j. rewrite app_nth1 by lia. repeat apply conj; auto.
Qed.

(** C6.  A collection follows the specification's account poll by poll.  It
    clears [spoils] first; a poll that finds the next byte of [treasure]
    not zero copies it at once, so that the bytes are written at the
    indices 0, 1, 2, 3 in that order, each one the byte of [treasure] at its
    index as the poll that copied it read it, and not zero; it is left
    exactly at the first poll that finds four bytes copied, the time over,
    [running] false or [exit_flag] set, and does stop there.  When nobody
    else writes [spoils] and revealed bytes stay, [spoils] holds at the end
    the bytes of [treasure] below the count and zero from there on. *)
Theorem collect_treasure_in_order :
  forall (env : Env F) (d : Dungeon F),
  (forall fuel d' count log n,
     collect_treasure TIME_TREASURE_AVAILABLE fuel env d
     = Some (d', count, log, n) ->
     collection_over TIME_TREASURE_AVAILABLE env d n = true
     /\ (forall k, (k < n)%nat ->
           collection_over TIME_TREASURE_AVAILABLE env d k = false)
     /\ (count <= 4)%nat
     /\ (exists vs,
           polled env d n = (d', vs)
           /\ List.length vs = count
           /\ log = Clear :: puts O vs
           /\ Forall (fun v => v <> 0) vs
           /\ forall i, (i < count)%nat ->
                exists j, (j < n)%nat
                  /\ List.length (snd (polled env d j)) = i
                  /\ nth i vs 0 = nth i (treasure (fst (polled env d j))) 0
                  /\ List.length (snd (polled env d (S j))) = S i)
     /\ (List.length (spoils d) = 4%nat ->
         keeps_spoils env -> keeps_revealed env ->
         forall i, (i < 4)%nat ->
           nth i (spoils d') 0
           = if (i <? count)%nat then nth i (treasure d') 0 else 0))
  /\ (forall n fuel,
        collection_over TIME_TREASURE_AVAILABLE env d n = true ->
        (n < fuel)%nat ->
        exists r,
          collect_treasure TIME_TREASURE_AVAILABLE fuel env d = Some r).
Proof.
  intros env d. split.
  - intros fuel d' count log n Hr.
    pose proof Hr as Hr0. unfold collect_treasure in Hr.
    apply (collect_loop_polled fuel env d O _ [] [Clear]) in Hr;
      [|reflexivity | cbn; lia].
    destruct Hr as (Ho & Hbefore & vs & Hp & Hc & Hle & Hlog & _).
    cbn [List.length skipn app] in Hlog.
    split; [exact Ho|]. split; [intros k Hk; apply Hbefore; lia|].
    split; [exact Hle|]. split.
    + exists vs. destruct (polled_values env d n) as [Hnz Hv].
      rewrite Hp in Hnz, Hv. cbn [snd] in Hnz, Hv.
      repeat apply conj; auto. intros i Hi. apply Hv. lia.
    + intros Hlen Hs Ht i Hi.
      assert (H0 : collected
                     (set_spoils d (memset (spoils d) 0 (List.length (spoils d))))
                     O).
      { unfold collected, set_spoils. cbn [spoils treasure].
        rewrite WizardSpec.memset_whole, Hlen. split; [reflexivity|].
        intros j Hj. cbn [Nat.ltb Nat.leb]. split; [exact I|].
        do 4 (destruct j as [|j]; [reflexivity|]). lia. }
      unfold collect_treasure in Hr0.
      pose proof (collect_loop_spoils _ _ _ _ _ _ _ _ _ _ _ Hs Ht H0 Hr0)
        as [_ Hd'].
      exact (proj2 (Hd' i Hi)).
  - intros n fuel Ho Hf. unfold collect_treasure.
    apply (collect_loop_over n env d fuel O _ [] [Clear]);
      [reflexivity | exact Ho | exact Hf].
Qed.

End TreasureCollector.

Lemma collect_treasure_in_order_witness :
  collection_over 10 reveal_env (trap_block dir_guess angle_100) 4 = true
  /\ exists d' vs,
       polled reveal_env (trap_block dir_guess angle_100) 4 = (d', vs)
       /\ Clear :: puts O (bytes "GOLD") = Clear :: puts O vs.
Proof.
  assert (E : exists d',
            collect_treasure 10 8 reveal_env (trap_block dir_guess angle_100)
            = Some (d', 4%nat, Clear :: puts O (bytes "GOLD"), 4%nat))
    by (eexists; vm_compute; reflexivity).
  destruct E as [d' E].
  destruct (proj1 (collect_treasure_in_order 10 reveal_env
                     (trap_block dir_guess angle_100)) _ _ _ _ _ E)
    as (Ho & _ & _ & (vs & Hp & _ & Hlog & _) & _).
  split; [exact Ho|]. exists d', vs. split; [exact Hp | exact Hlog].
Defined.

(** Four polls of [reveal_env] copy "GOLD" whole, in order. *)
Example collect_gold :
  exists d',
    collect_treasure 10 8 reveal_env (trap_block dir_guess angle_100)
    = Some (d', 4%nat, Clear :: puts O (bytes "GOLD"), 4%nat)
    /\ spoils d' = bytes "GOLD".
Proof.
  eexists. split; [vm_compute; reflexivity | reflexivity].
Qed.

End RogueSpec.

(* ===================================================================== *)
(** * Properties of the lever protocol *)
(* ===================================================================== *)

Module LeversSpec.
Import Levers.

(** ** Counting *)

Lemma holders_sum : forall w l,
  holders w l
  = (Nat.b2n (holds w Barbarian l) + Nat.b2n (holds w Wizard l)
     + Nat.b2n (holds w Rogue l))%nat.
Proof.
  intros w l. unfold holders. cbn [filter].
  destruct (holds w Barbarian l), (holds w Wizard l), (holds w Rogue l);
    reflexivity.
Qed.

Lemma count_snoc : forall f t e,
  count f (t ++ [e]) = (count f t + Nat.b2n (f e))%nat.
Proof.
  intros f t e. unfold count. rewrite filter_app, length_app.
  cbn [filter]. now destruct (f e).
Qed.

(** ** The invariant of the runs *)

Ltac break_world w :=
  destruct w as [s1 s2 run sp3 xb xw xr pb pw pr].

Ltac case_pc p := destruct p as [|[|]|[|]|[|]|[|]|].

Ltac finish_invariant Hc Hw :=
  split; [cbn in *; lia | split; [cbn in *; lia | split;
    [ intros []; cbn; auto
    | split;
      [ let r := fresh "r" in let l := fresh "l" in
        intros r l; unfold acquires, releases in *; rewrite !count_snoc;
        specialize (Hc r l); destruct r, l; cbn in *; lia
      | clear Hc; unfold acquires, wizard_waiting in *; rewrite !count_snoc;
        cbn in *; lia ]]]].

Lemma invariant_initial : protocol_invariant [] initial_world.
Proof.
  unfold protocol_invariant. repeat apply conj; try reflexivity.
  - intros []; exact I.
  - intros [] []; reflexivity.
Qed.

Lemma invariant_proc_step : forall t w r e w',
  protocol_invariant t w -> proc_step r w = Some (e, w') ->
  protocol_invariant (t ++ [e]) w'.
Proof.
  intros t w r e w' (H1 & H2 & Hb & Hc & Hw) Hs.
  unfold protocol_invariant.
  rewrite !holders_sum in *.
  pose proof (Hb Barbarian) as HbB. pose proof (Hb Wizard) as HbW.
  pose proof (Hb Rogue) as HbR.
  break_world w. unfold proc_step in Hs. unfold holds in *.
  cbn [get_pc pc_barbarian pc_wizard pc_rogue] in *.
  destruct r; cbn [get_pc pc_barbarian pc_wizard pc_rogue] in Hs.
  - case_pc pb; cbn in HbB; try contradiction; cbn in Hs; try discriminate.
    all: try (destruct s1 as [|s1]; try discriminate).
    all: try (destruct (keep_holding _ _)).
    all: injection Hs as <- <-.
    all: finish_invariant Hc Hw.
  - case_pc pw; cbn in HbW; try contradiction; cbn in Hs; try discriminate.
    all: try (destruct s1 as [|s1]; try discriminate).
    all: try (destruct s2 as [|s2]; try discriminate).
    all: try (destruct (keep_holding _ _)).
    all: injection Hs as <- <-.
    all: finish_invariant Hc Hw.
  - case_pc pr; cbn in HbR; try contradiction; cbn in Hs; discriminate.
Qed.


Lemma invariant_step : forall t w e w',
  protocol_invariant t w -> step w e w' -> protocol_invariant (t ++ [e]) w'.
Proof.
  intros t w e w' Hinv Hs.
  destruct Hs as [r w e w' Hp | r w Hidle | r l w Hwait | v w Hcol | w Hcol
                  | w | r w].
  - eapply invariant_proc_step; eassumption.
  - destruct Hinv as (H1 & H2 & Hb & Hc & Hw). unfold protocol_invariant.
    rewrite !holders_sum in *.
    pose proof (Hb Barbarian) as HbB. pose proof (Hb Wizard) as HbW.
    pose proof (Hb Rogue) as HbR.
    break_world w. unfold lever_call, holds in *.
    cbn [get_pc pc_barbarian pc_wizard pc_rogue] in *.
    destruct r; cbn [get_pc pc_barbarian pc_wizard pc_rogue] in Hidle; subst;
      cbn [exit_flag exit_barbarian exit_wizard exit_rogue w_running];
      match goal with
      | |- context [if ?x then _ else _] => destruct x
      end;
      try (destruct run; cbn [negb]);
      finish_invariant Hc Hw.
  - destruct Hinv as (H1 & H2 & Hb & Hc & Hw). unfold protocol_invariant.
    rewrite !holders_sum in *.
    pose proof (Hb Barbarian) as HbB. pose proof (Hb Wizard) as HbW.
    pose proof (Hb Rogue) as HbR.
    break_world w. unfold holds in *.
    cbn [get_pc pc_barbarian pc_wizard pc_rogue] in *.
    destruct r; cbn [get_pc pc_barbarian pc_wizard pc_rogue] in Hwait; subst;
      finish_invariant Hc Hw.
  - destruct Hinv as (H1 & H2 & Hb & Hc & Hw). unfold protocol_invariant.
    rewrite !holders_sum in *.
    pose proof (Hb Barbarian) as HbB. pose proof (Hb Wizard) as HbW.
    pose proof (Hb Rogue) as HbR.
    break_world w. unfold holds in *.
    cbn [get_pc pc_barbarian pc_wizard pc_rogue] in *. subst.
    finish_invariant Hc Hw.
  - destruct Hinv as (H1 & H2 & Hb & Hc & Hw). unfold protocol_invariant.
    rewrite !holders_sum in *.
    pose proof (Hb Barbarian) as HbB. pose proof (Hb Wizard) as HbW.
    pose proof (Hb Rogue) as HbR.
    break_world w. unfold holds in *.
    cbn [get_pc pc_barbarian pc_wizard pc_rogue] in *. subst.
    finish_invariant Hc Hw.
  - destruct Hinv as (H1 & H2 & Hb & Hc & Hw). unfold protocol_invariant.
    rewrite !holders_sum in *.
    pose proof (Hb Barbarian) as HbB. pose proof (Hb Wizard) as HbW.
    pose proof (Hb Rogue) as HbR.
    break_world w. unfold holds in *.
    cbn [get_pc pc_barbarian pc_wizard pc_rogue] in *.
    finish_invariant Hc Hw.
  - destruct Hinv as (H1 & H2 & Hb & Hc & Hw). unfold protocol_invariant.
    rewrite !holders_sum in *.
    pose proof (Hb Barbarian) as HbB. pose proof (Hb Wizard) as HbW.
    pose proof (Hb Rogue) as HbR.
    break_world w. unfold holds in *.
    cbn [get_pc pc_barbarian pc_wizard pc_rogue] in *.
    destruct r; finish_invariant Hc Hw.
Qed.

Lemma invariant_run : forall t w,
  run initial_world t w -> protocol_invariant t w.
Proof.
  intros t w Hrun. remember initial_world as w0 eqn:E.
  induction Hrun as [w|w t w1 e w2 Hrun IH Hs].
  - subst. exact invariant_initial.
  - eapply invariant_step; [apply IH; exact E | exact Hs].
Qed.

(** ** The example runs *)

Lemma both_held_run : run initial_world both_held_trace both_held.
Proof.
  unfold both_held_trace, both_held.
  eapply (run_snoc _ [_; _; _] _ _ _).
  - eapply (run_snoc _ [_; _] _ _ _).
    + eapply (run_snoc _ [_] _ _ _).
      * eapply (run_snoc _ [] _ _ _).
        -- apply run_nil.
        -- apply (step_signal Barbarian). reflexivity.
      * apply (step_proc Barbarian). reflexivity.
    + apply (step_signal Wizard). reflexivity.
  - apply (step_proc Wizard). reflexivity.
Defined.

Lemma interrupted_run : run initial_world interrupted_trace interrupted.
Proof.
  unfold interrupted_trace, interrupted.
  eapply (run_snoc _ [_; _] _ _ _).
  - eapply (run_snoc _ [_] _ _ _).
    + eapply (run_snoc _ [] _ _ _).
      * apply run_nil.
      * apply (step_signal Barbarian). reflexivity.
    + apply (step_proc Barbarian). reflexivity.
  - apply (step_sigint Barbarian).
Defined.

(** ** Mutual exclusion and the order of the calls *)

(** C8.  In every state a schedule of the three characters reaches from the
    initial one (both semaphores at 1), each semaphore has at most one
    holder, its value is 1 less the number of its holders, and there are at
    most two holders in all. *)
Theorem lever_mutual_exclusion :
  forall (t : list event) (w : World),
  run initial_world t w ->
  (holders w Lever1 <= 1)%nat
  /\ (holders w Lever2 <= 1)%nat
  /\ (holders w Lever1 + holders w Lever2 <= 2)%nat
  /\ (forall l, (sem_value w l + holders w l = 1)%nat).
Proof.
  intros t w Hrun.
  destruct (invariant_run t w Hrun) as (H1 & H2 & _ & _ & _).
  repeat apply conj; try lia.
  intros []; assumption.
Qed.

Lemma lever_mutual_exclusion_witness :
  (holders both_held Lever1 <= 1)%nat
  /\ (holders both_held Lever2 <= 1)%nat
  /\ (holders both_held Lever1 + holders both_held Lever2 <= 2)%nat
  /\ (forall l, (sem_value both_held l + holders both_held l = 1)%nat).
Proof.
  exact (lever_mutual_exclusion both_held_trace both_held both_held_run).
Defined.


(** C7, as the code has it.  A SEMAPHORE_SIGNAL that finds [exit_flag] unset
    and [running] true sends the Barbarian into a blocking wait for lever
    one and the Wizard into a non-blocking attempt on lever two; a handler
    that finds [exit_flag] set or [running] false does nothing.  The wait
    cannot move while the semaphore is 0 and takes it otherwise; the attempt
    takes lever two when it is free and otherwise goes on to a blocking wait
    for lever one.  A holder sleeps and polls as long as [running] is true,
    [spoils[3]] is zero and its [exit_flag] is unset, then leaves the loop
    and posts the lever it holds.  In every run each character is at a place
    of its own branch, has released every lever it acquired but the one it
    holds, and the Wizard has waited for lever one only after a failed
    attempt on lever two. *)
Theorem lever_call_protocol :
  (forall w r,
     lever_call r w
     = if exit_flag w r || negb (w_running w) then w
       else set_pc w r (branch_entry r))
  /\ branch_entry Barbarian = Waiting Lever1
  /\ branch_entry Wizard = TryWaiting Lever2
  /\ (forall w r l, get_pc w r = Waiting l ->
        proc_step r w
        = match sem_value w l with
          | S v => Some (Acquired r l, set_pc (set_sem w l v) r (Holding l))
          | O => None
          end)
  /\ (forall w r l, get_pc w r = TryWaiting l ->
        proc_step r w
        = match sem_value w l with
          | S v => Some (Acquired r l, set_pc (set_sem w l v) r (Holding l))
          | O => Some (TryFailed r l, set_pc w r (Waiting Lever1))
          end)
  /\ (forall w r l, get_pc w r = Holding l ->
        proc_step r w
        = if w_running w && (spoils3 w =? 0) && negb (exit_flag w r)
          then Some (Slept r l, w)
          else Some (LeftLoop r l, set_pc w r (Releasing l)))
  /\ (forall w r l, get_pc w r = Releasing l ->
        proc_step r w
        = Some (Released r l, set_pc (set_sem w l (S (sem_value w l))) r Idle))
  /\ (forall t w, run initial_world t w ->
        (forall r, in_branch r (get_pc w r))
        /\ (forall r l,
              acquires r l t = (releases r l t + Nat.b2n (holds w r l))%nat)
        /\ (count is_wizard_try_failure t
            = acquires Wizard Lever1 t + count is_wizard_wait_failure t
              + Nat.b2n (wizard_waiting w))%nat).
Proof.
  split.
  { intros w r. unfold lever_call.
    destruct (exit_flag w r), (w_running w); reflexivity. }
  split; [reflexivity|]. split; [reflexivity|].
  split. { intros w r l Hpc. unfold proc_step. now rewrite Hpc. }
  split. { intros w r l Hpc. unfold proc_step. now rewrite Hpc. }
  split. { intros w r l Hpc. unfold proc_step. now rewrite Hpc. }
  split. { intros w r l Hpc. unfold proc_step. now rewrite Hpc. }
  intros t w Hrun.
  destruct (invariant_run t w Hrun) as (_ & _ & Hb & Hc & Hw).
  auto.
Qed.

(** C7 as stated fails in two ways.  A SEMAPHORE_SIGNAL that arrives after
    the run has ended (or with [exit_flag] set) starts no wait and no
    attempt.  And a holder lets go with [running] true and [spoils[3]] still
    zero when SIGINT has set its [exit_flag]: the state [interrupted] is
    reached by a run, and the Barbarian's next step there leaves the loop. *)
Lemma lever_call_counterexample :
  (run initial_world [Outside] stopped
   /\ get_pc stopped Barbarian = Idle
   /\ get_pc stopped Wizard = Idle
   /\ lever_call Barbarian stopped = stopped
   /\ lever_call Wizard stopped = stopped)
  /\ (run initial_world interrupted_trace interrupted
      /\ get_pc interrupted Barbarian = Holding Lever1
      /\ w_running interrupted = true
      /\ spoils3 interrupted = 0
      /\ proc_step Barbarian interrupted
         = Some (LeftLoop Barbarian Lever1,
                 set_pc interrupted Barbarian (Releasing Lever1))).
Proof.
  repeat apply conj; try reflexivity.
  - apply (run_snoc _ [] _ _ _ (run_nil _) (step_shutdown initial_world)).
  - exact interrupted_run.
Qed.

End LeversSpec.

(* ===================================================================== *)
(** * More on the spell decoder and on the barrier branch *)
(* ===================================================================== *)

Module WizardMore.
Import CString Wizard Shared WizardHandler WizardSpec.

(** ** Shifts *)

Lemma shift_back_mod : forall k b, shift_back (k mod 26) b = shift_back k b.
Proof.
  intros k b. unfold shift_back.
  destruct (isupper b); [|destruct (islower b)]; try reflexivity.
  - now rewrite Zminus_mod_idemp_r.
  - now rewrite Zminus_mod_idemp_r.
Qed.

Lemma shift_back_congruent : forall k k' b,
  k mod 26 = k' mod 26 -> shift_back k b = shift_back k' b.
Proof.
  intros k k' b E. now rewrite <- (shift_back_mod k), <- (shift_back_mod k'), E.
Qed.

Lemma shift_back_none : forall b, shift_back 0 b = b.
Proof.
  intros b. unfold shift_back.
  destruct (isupper b) eqn:Hu; [|destruct (islower b) eqn:Hl]; try reflexivity.
  - unfold isupper in Hu. rewrite Z.mod_small; lia.
  - unfold islower in Hl. rewrite Z.mod_small; lia.
Qed.

Lemma shift_back_twice : forall k1 k2 b,
  shift_back k2 (shift_back k1 b) = shift_back (k1 + k2) b.
Proof.
  intros k1 k2 b. destruct (shift_back_case k1 b) as [Hu Hl].
  unfold shift_back at 1. rewrite Hu, Hl. unfold shift_back.
  destruct (isupper b); [|destruct (islower b)]; try reflexivity.
  - replace (65 + (b - 65 - k1) mod 26 - 65 - k2)
      with ((b - 65 - k1) mod 26 - k2) by lia.
    rewrite Zminus_mod_idemp_l. do 2 f_equal. lia.
  - replace (97 + (b - 97 - k1) mod 26 - 97 - k2)
      with ((b - 97 - k1) mod 26 - k2) by lia.
    rewrite Zminus_mod_idemp_l. do 2 f_equal. lia.
Qed.

Lemma shift_forward_back : forall k b, shift_forward k (shift_back k b) = b.
Proof.
  intros k b. destruct (shift_back_case k b) as [Hu Hl].
  unfold shift_forward. rewrite Hu, Hl. unfold shift_back.
  destruct (isupper b) eqn:Eu.
  - replace (65 + (b - 65 - k) mod 26 - 65 + k) with ((b - 65 - k) mod 26 + k) by lia.
    rewrite Zplus_mod_idemp_l.
    replace (b - 65 - k + k) with (b - 65) by lia.
    unfold isupper in Eu. rewrite Z.mod_small; lia.
  - destruct (islower b) eqn:El.
    + replace (97 + (b - 97 - k) mod 26 - 97 + k) with ((b - 97 - k) mod 26 + k) by lia.
      rewrite Zplus_mod_idemp_l.
      replace (b - 97 - k + k) with (b - 97) by lia.
      unfold islower in El. rewrite Z.mod_small; lia.
    + reflexivity.
Qed.

(** ** The output buffer *)

Lemma decoded_spell_no_nul : forall char_signed encoded decoded max_len,
  is_bytes encoded -> 0 < max_len -> List.length decoded = Z.to_nat max_len ->
  no_nul (decoded_spell char_signed encoded decoded max_len)
  /\ Z.of_nat (List.length (decoded_spell char_signed encoded decoded max_len))
     < max_len.
Proof.
  intros sg encoded decoded max_len Hb Hpos Hlen.
  rewrite decoded_spell_spec by assumption. split.
  - unfold no_nul. apply Forall_map.
    eapply Forall_impl; [intros b Hr; apply shift_back_range; exact Hr|].
    apply Forall_firstn_of, Forall_skipn_of, c_string_bytes, Hb.
  - rewrite length_map, length_firstn. lia.
Qed.

(** The buffer is the decoded string and zeros behind it. *)
Lemma decode_buffer_shape : forall char_signed encoded decoded max_len,
  is_bytes encoded -> 0 < max_len -> List.length decoded = Z.to_nat max_len ->
  decode_caesar_cipher char_signed encoded decoded max_len
  = decoded_spell char_signed encoded decoded max_len
    ++ repeat 0 (Z.to_nat max_len
                 - List.length (decoded_spell char_signed encoded decoded max_len)).
Proof.
  intros sg encoded decoded max_len Hb Hpos Hlen.
  pose proof (decode_caesar_cipher_buffer sg encoded decoded max_len Hpos Hlen)
    as Hbuf. cbv zeta in Hbuf.
  set (k := Nat.min (strlen encoded - 1) (Z.to_nat (max_len - 1))) in *.
  set (out := map _ (firstn k (skipn 1 (c_string encoded)))) in *.
  assert (Hk : List.length out = k).
  { subst out. rewrite length_map, length_firstn, length_skipn, c_string_length.
    subst k. lia. }
  assert (Hnz : Forall (fun b => b <> 0) out).
  { subst out. apply Forall_map. apply Forall_firstn_of, Forall_skipn_of.
    eapply Forall_impl; [|exact (c_string_bytes encoded Hb)].
    intros b Hr. simpl in Hr. rewrite decode_byte by lia.
    pose proof (shift_back_range
                  (char_val sg (nth 0 encoded 0) mod 26) b Hr). lia. }
  assert (Hz : exists z, (Z.to_nat max_len - k)%nat = S z)
    by (exists (Z.to_nat max_len - k - 1)%nat; subst k; lia).
  destruct Hz as [z Hz].
  assert (Hs : decoded_spell sg encoded decoded max_len = out).
  { unfold decoded_spell. rewrite Hbuf, Hz. cbn [repeat].
    now apply c_string_terminated. }
  rewrite Hs, Hk. exact Hbuf.
Qed.


(** ** The decoder *)

(** Whatever the output buffer held before the call, it holds afterwards the
    decoded string and zero bytes from there to its end: the result does not
    depend on the old contents, the size is kept, and no old byte is left. *)
Theorem decode_overwrites_buffer :
  forall char_signed encoded decoded decoded' max_len,
  is_bytes encoded -> 0 < max_len ->
  List.length decoded = Z.to_nat max_len ->
  List.length decoded' = Z.to_nat max_len ->
  let buffer := decode_caesar_cipher char_signed encoded decoded max_len in
  buffer = decode_caesar_cipher char_signed encoded decoded' max_len
  /\ List.length buffer = List.length decoded
  /\ (forall i, (List.length (c_string buffer) <= i)%nat -> nth i buffer 0 = 0).
Proof.
  intros sg encoded decoded decoded' max_len Hb Hpos Hlen Hlen' buffer.
  assert (Hsame : buffer = decode_caesar_cipher sg encoded decoded' max_len).
  { subst buffer. now rewrite !decode_caesar_cipher_buffer by assumption. }
  pose proof (decode_buffer_shape sg encoded decoded max_len Hb Hpos Hlen) as Hshape.
  destruct (decoded_spell_no_nul sg encoded decoded max_len Hb Hpos Hlen)
    as [_ Hshort].
  fold buffer in Hshape. unfold decoded_spell in Hshape, Hshort.
  fold buffer in Hshape, Hshort.
  split; [exact Hsame|]. split.
  - rewrite Hshape, length_app, repeat_length. lia.
  - intros i Hi. rewrite Hshape. rewrite app_nth2 by exact Hi.
    destruct (Nat.lt_ge_cases (i - List.length (c_string buffer))
                (Z.to_nat max_len - List.length (c_string buffer))) as [L|L].
    + apply nth_repeat_lt. exact L.
    + apply nth_overflow. rewrite repeat_length. exact L.
Qed.

Lemma decode_overwrites_buffer_witness :
  decode_caesar_cipher true (3 :: bytes "Dhoo") (bytes "previous") 8
  = decode_caesar_cipher true (3 :: bytes "Dhoo") (repeat 0 8) 8.
Proof.
  refine (proj1 (decode_overwrites_buffer true (3 :: bytes "Dhoo")
                   (bytes "previous") (repeat 0 8) 8 _ _ _ _)).
  - unfold is_bytes. repeat constructor; simpl; lia.
  - lia.
  - reflexivity.
  - reflexivity.
Defined.

(** Encoding what the decoder gave, with the same key, gives the input back:
    the decoder loses nothing of a string that fits its buffer. *)
Theorem encode_after_decode :
  forall char_signed K C decoded max_len,
  0 < K < 256 -> 0 < char_val char_signed K -> no_nul C ->
  Z.of_nat (List.length C) < max_len ->
  List.length decoded = Z.to_nat max_len ->
  encode_caesar_cipher K (decoded_spell char_signed (K :: C) decoded max_len)
  = K :: C.
Proof.
  intros sg K C decoded max_len HK Hkey HC Hroom Hlen.
  assert (Hb : is_bytes (K :: C)).
  { unfold is_bytes, no_nul in *. constructor; [lia|].
    eapply Forall_impl; [|exact HC]. simpl. intros; lia. }
  assert (Hnz : Forall (fun b => b <> 0) (K :: C)).
  { unfold no_nul in HC. constructor; [lia|].
    eapply Forall_impl; [|exact HC]. simpl. intros; lia. }
  rewrite decoded_spell_spec by (assumption || lia).
  rewrite (c_string_no_nul _ Hnz). cbn [skipn nth].
  assert (char_val sg K = K) as ->.
  { unfold char_val in *. destruct (sg && (128 <=? K)); lia. }
  rewrite firstn_all2 by lia.
  unfold encode_caesar_cipher. f_equal.
  rewrite map_map. rewrite <- (map_id C) at 2.
  apply map_ext. intros b. apply shift_forward_back.
Qed.

Lemma encode_after_decode_witness :
  encode_caesar_cipher 3 (decoded_spell true (3 :: bytes "Dhoo") (repeat 0 8) 8)
  = 3 :: bytes "Dhoo".
Proof.
  apply (encode_after_decode true 3 (bytes "Dhoo") (repeat 0 8) 8).
  - lia.
  - reflexivity.
  - unfold no_nul. repeat constructor; simpl; lia.
  - reflexivity.
  - reflexivity.
Defined.

(** Only the remainder of the key modulo 26 counts: two keys with the same
    remainder decode every string alike, and a key that is a multiple of 26
    (26, 52, ...) gives the message back unchanged. *)
Theorem decode_key_modulo_26 :
  forall char_signed K1 K2 M decoded max_len,
  0 < K1 < 256 -> 0 < K2 < 256 -> is_bytes M -> 0 < max_len ->
  List.length decoded = Z.to_nat max_len ->
  (char_val char_signed K1 mod 26 = char_val char_signed K2 mod 26 ->
   decoded_spell char_signed (K1 :: M) decoded max_len
   = decoded_spell char_signed (K2 :: M) decoded max_len)
  /\ (char_val char_signed K1 mod 26 = 0 ->
      decoded_spell char_signed (K1 :: M) decoded max_len
      = firstn (Z.to_nat (max_len - 1)) (c_string M)).
Proof.
  intros sg K1 K2 M decoded max_len HK1 HK2 HM Hpos Hlen.
  assert (Hc : forall K, 0 < K < 256 -> skipn 1 (c_string (K :: M)) = c_string M).
  { intros K HK. unfold c_string. cbn [strlen].
    destruct (Z.eqb_spec K 0); [lia|]. reflexivity. }
  assert (Hb : forall K, 0 < K < 256 -> is_bytes (K :: M))
    by (intros K HK; constructor; [lia | exact HM]).
  split.
  - intros E. rewrite !decoded_spell_spec by auto.
    rewrite (Hc K1 HK1), (Hc K2 HK2). cbn [nth]. now rewrite E.
  - intros E. rewrite decoded_spell_spec by auto.
    rewrite (Hc K1 HK1). cbn [nth]. rewrite E.
    rewrite <- (map_id (firstn _ _)) at 2.
    apply map_ext. intros b. apply shift_back_none.
Qed.

Lemma decode_key_modulo_26_witness :
  decoded_spell true (29 :: bytes "Dhoo") (repeat 0 8) 8
  = decoded_spell true (3 :: bytes "Dhoo") (repeat 0 8) 8.
Proof.
  refine (proj1 (decode_key_modulo_26 true 29 3 (bytes "Dhoo") (repeat 0 8) 8
                   _ _ _ _ _) _).
  - lia.
  - lia.
  - unfold is_bytes. repeat constructor; simpl; lia.
  - lia.
  - reflexivity.
  - reflexivity.
Defined.

(** Decoding twice is decoding once with the sum of the keys. *)
Theorem decode_twice :
  forall char_signed K1 K2 K3 M decoded max_len,
  0 < K1 < 256 -> 0 < K2 < 256 -> 0 < K3 < 256 -> is_bytes M ->
  0 < max_len -> List.length decoded = Z.to_nat max_len ->
  (char_val char_signed K1 + char_val char_signed K2) mod 26
  = char_val char_signed K3 mod 26 ->
  decoded_spell char_signed
    (K2 :: decoded_spell char_signed (K1 :: M) decoded max_len) decoded max_len
  = decoded_spell char_signed (K3 :: M) decoded max_len.
Proof.
  intros sg K1 K2 K3 M decoded max_len HK1 HK2 HK3 HM Hpos Hlen E.
  assert (Hb : forall K, 0 < K < 256 -> is_bytes (K :: M))
    by (intros K HK; constructor; [lia | exact HM]).
  destruct (decoded_spell_no_nul sg (K1 :: M) decoded max_len
              (Hb K1 HK1) Hpos Hlen) as [Hnn Hshort].
  set (inner := decoded_spell sg (K1 :: M) decoded max_len) in *.
  assert (Hbi : is_bytes (K2 :: inner)).
  { constructor; [lia|]. unfold no_nul in Hnn.
    eapply Forall_impl; [|exact Hnn]. simpl. intros; lia. }
  assert (Hnz : Forall (fun b => b <> 0) (K2 :: inner)).
  { constructor; [lia|]. unfold no_nul in Hnn.
    eapply Forall_impl; [|exact Hnn]. simpl. intros; lia. }
  rewrite (decoded_spell_spec sg (K2 :: inner)) by assumption.
  rewrite (c_string_no_nul _ Hnz). cbn [skipn nth].
  rewrite firstn_all2 by lia.
  subst inner. rewrite !decoded_spell_spec by auto.
  assert (Hc : forall K, 0 < K < 256 -> skipn 1 (c_string (K :: M)) = c_string M).
  { intros K HK. unfold c_string. cbn [strlen].
    destruct (Z.eqb_spec K 0); [lia|]. reflexivity. }
  rewrite (Hc K1 HK1), (Hc K3 HK3). cbn [nth].
  rewrite map_map. apply map_ext. intros b.
  rewrite !shift_back_mod, shift_back_twice.
  apply shift_back_congruent. exact E.
Qed.

Lemma decode_twice_witness :
  decoded_spell true
    (2 :: decoded_spell true (1 :: bytes "Dhoo") (repeat 0 8) 8) (repeat 0 8) 8
  = decoded_spell true (3 :: bytes "Dhoo") (repeat 0 8) 8.
Proof.
  apply (decode_twice true 1 2 3 (bytes "Dhoo") (repeat 0 8) 8).
  - lia.
  - lia.
  - lia.
  - unfold is_bytes. repeat constructor; simpl; lia.
  - lia.
  - reflexivity.
  - reflexivity.
Defined.

(** Whether [char] is signed matters only for a key byte of 128 or more:
    below, both platforms decode alike; from 128 on, the platform with a
    signed [char] shifts four places further back. *)
Theorem decode_and_char_sign :
  forall K M decoded max_len,
  0 < K < 256 -> is_bytes M -> 0 < max_len ->
  List.length decoded = Z.to_nat max_len ->
  (K < 128 ->
   decoded_spell true (K :: M) decoded max_len
   = decoded_spell false (K :: M) decoded max_len)
  /\ (128 <= K ->
      decoded_spell true (K :: M) decoded max_len
      = map (shift_back 4) (decoded_spell false (K :: M) decoded max_len)).
Proof.
  intros K M decoded max_len HK HM Hpos Hlen.
  assert (Hb : is_bytes (K :: M)) by (constructor; [lia | exact HM]).
  rewrite !decoded_spell_spec by assumption. cbn [nth].
  split; intros HK'.
  - unfold char_val. cbn [andb].
    destruct (Z.leb_spec 128 K); [lia|]. reflexivity.
  - unfold char_val. cbn [andb].
    destruct (Z.leb_spec 128 K); [|lia].
    rewrite map_map. apply map_ext. intros b.
    rewrite !shift_back_mod, shift_back_twice.
    apply shift_back_congruent.
    replace (K + 4) with (K - 256 + 10 * 26) by lia.
    now rewrite Z_mod_plus_full.
Qed.

Lemma decode_and_char_sign_witness :
  decoded_spell true (3 :: bytes "Dhoo") (repeat 0 8) 8
  = decoded_spell false (3 :: bytes "Dhoo") (repeat 0 8) 8.
Proof.
  refine (proj1 (decode_and_char_sign 3 (bytes "Dhoo") (repeat 0 8) 8 _ _ _ _) _).
  - lia.
  - unfold is_bytes. repeat constructor; simpl; lia.
  - lia.
  - reflexivity.
  - lia.
Defined.

(** ** The barrier branch of the handler *)

Lemma skipn_cons_nth : forall (l : list Z) n, (n < List.length l)%nat ->
  skipn n l = nth n l 0 :: skipn (S n) l.
Proof.
  induction l as [|x l IH]; intros [|n] Hn; cbn in *; try lia.
  - reflexivity.
  - apply IH. lia.
Qed.

Lemma repeat_snoc : forall (x : Z) n, repeat x n ++ [x] = repeat x (S n).
Proof.
  induction n as [|n IH]; cbn; [reflexivity | now rewrite IH].
Qed.

(** On DUNGEON_SIGNAL, with the dungeon running, the handler leaves in
    [wizard.spell] the decoded barrier spell followed by zero bytes up to
    SPELL_BUFFER_SIZE: nothing of the previous spell is left in that range,
    nothing of the stack array (which is not initialized) gets through,
    the bytes of the field beyond SPELL_BUFFER_SIZE and every other field
    of the shared block are kept. *)
Theorem wizard_barrier_spell :
  forall {F : Type} char_signed SPELL_BUFFER_SIZE stack (d : Dungeon F),
  running d = true -> 0 < SPELL_BUFFER_SIZE ->
  List.length stack = Z.to_nat SPELL_BUFFER_SIZE ->
  (Z.to_nat SPELL_BUFFER_SIZE <= List.length (wizard_spell d))%nat ->
  is_bytes (barrier_spell d) ->
  let key := char_val char_signed (nth 0 (barrier_spell d) 0) in
  let message :=
    map (shift_back (key mod 26))
      (firstn (Z.to_nat (SPELL_BUFFER_SIZE - 1))
         (skipn 1 (c_string (barrier_spell d)))) in
  let d' :=
    wizard_signal_handler char_signed SPELL_BUFFER_SIZE false DUNGEON_SIGNAL
      stack d in
  wizard_spell d'
  = message
    ++ repeat 0 (Z.to_nat SPELL_BUFFER_SIZE - List.length message)
    ++ skipn (Z.to_nat SPELL_BUFFER_SIZE) (wizard_spell d)
  /\ c_string (wizard_spell d') = message
  /\ d' = set_wizard_spell d (wizard_spell d').
Proof.
  intros F sg SIZE stack d Hrun Hpos Hstack Hroom Hb key message d'.
  pose proof (decoded_spell_spec sg (barrier_spell d) stack SIZE Hb Hpos Hstack)
    as Hspec. cbv zeta in Hspec. fold key in Hspec. fold message in Hspec.
  pose proof (decode_buffer_shape sg (barrier_spell d) stack SIZE Hb Hpos Hstack)
    as Hshape.
  destruct (decoded_spell_no_nul sg (barrier_spell d) stack SIZE Hb Hpos Hstack)
    as [Hnn Hshort].
  rewrite Hspec in Hshape, Hnn, Hshort.
  assert (Hnz : Forall (fun b => b <> 0) message).
  { unfold no_nul in Hnn. eapply Forall_impl; [|exact Hnn]. simpl. intros; lia. }
  assert (Hd' : wizard_spell d'
    = message ++ repeat 0 (Z.to_nat SIZE - List.length message)
        ++ skipn (Z.to_nat SIZE) (wizard_spell d)).
  { subst d'. unfold wizard_signal_handler. rewrite Hrun. cbn [negb].
    unfold set_wizard_spell. cbn [wizard_spell].
    unfold strncpy. fold (decoded_spell sg (barrier_spell d) stack SIZE).
    rewrite Hspec.
    rewrite firstn_all2 by lia.
    set (n := Z.to_nat (SIZE - 1)).
    set (pad := repeat 0 (n - List.length message)).
    assert (Hdata : List.length (message ++ pad) = n).
    { subst pad. rewrite length_app, repeat_length. subst n. lia. }
    unfold overwrite. rewrite Hdata.
    rewrite firstn_all2 by (rewrite Hdata; subst n; lia).
    rewrite (skipn_cons_nth (wizard_spell d) n) by (subst n; lia).
    pose proof (store_app_at (message ++ pad) (skipn (S n) (wizard_spell d))
                  (nth n (wizard_spell d) 0) 0) as Hst.
    rewrite Hdata in Hst. rewrite Hst.
    replace (S n) with (Z.to_nat SIZE) by (subst n; lia).
    rewrite <- app_assoc. f_equal.
    change (0 :: skipn (Z.to_nat SIZE) (wizard_spell d))
      with ([0] ++ skipn (Z.to_nat SIZE) (wizard_spell d)).
    rewrite app_assoc. f_equal. subst pad. rewrite repeat_snoc. f_equal.
    subst n. lia. }
  split; [exact Hd'|]. split.
  - rewrite Hd'.
    destruct (Z.to_nat SIZE - List.length message)%nat as [|m] eqn:Em; [lia|].
    cbn [repeat app]. apply c_string_terminated. exact Hnz.
  - subst d'. unfold wizard_signal_handler. rewrite Hrun. cbn [negb].
    destruct d; reflexivity.
Qed.

Lemma wizard_barrier_spell_witness :
  c_string
    (wizard_spell
       (wizard_signal_handler true 8 false DUNGEON_SIGNAL (bytes "leftover")
          (mkDungeon true 1 0%Z 0%Z true 116 0%Z (3 :: bytes "Dhoo")
             (bytes "an older spell") [] (repeat 0 4))))
  = bytes "Aell".
Proof.
  refine (proj1 (proj2 (wizard_barrier_spell true 8 (bytes "leftover")
    (mkDungeon true 1 0%Z 0%Z true 116 0%Z (3 :: bytes "Dhoo")
       (bytes "an older spell") [] (repeat 0 4)) _ _ _ _ _))).
  - reflexivity.
  - lia.
  - reflexivity.
  - vm_compute. lia.
  - unfold is_bytes. repeat constructor; simpl; lia.
Defined.

End WizardMore.

(* ===================================================================== *)
(** * More on the Rogue's handler *)
(* ===================================================================== *)

Module RogueMore.
Import CString Shared CFloat Rogue Scenarios RogueSpec.

Section Trap.
Context {F : Type} `{FloatOps F}.
Variable MAX_PICK_ANGLE : F.
Variable SECONDS_TO_PICK : Z.

(** ** Waiting for feedback *)

Lemma search_iteration_idle : forall (b : Bounds F) d,
  fresh_direction (trap_direction d) = true ->
  search_iteration b d false = (b, d, Continue).
Proof.
  intros b d Hf. apply fresh_direction_iff in Hf.
  destruct Hf as (Hu & Hd & Hm). unfold search_iteration.
  destruct (Z.eqb_spec (trap_direction d) dir_unlocked); [contradiction|].
  destruct (Z.eqb_spec (trap_direction d) dir_up); [contradiction|].
  destruct (Z.eqb_spec (trap_direction d) dir_down); [contradiction|].
  reflexivity.
Qed.

Lemma search_loop_waits : forall m (env : Env F) start n (b : Bounds F) d,
  (forall k d0, env_write env k d0 = d0) ->
  trap_locked d = true -> running d = true ->
  fresh_direction (trap_direction d) = true ->
  (forall k, (n <= k < n + m)%nat ->
     env_exit_flag env k = false
     /\ pick_timed_out SECONDS_TO_PICK start (env_time env k) = false) ->
  env_exit_flag env (n + m) = true
  \/ pick_timed_out SECONDS_TO_PICK start (env_time env (n + m)) = true ->
  forall fuel,
    search_loop SECONDS_TO_PICK fuel env start n b d
    = if (fuel <=? m)%nat then None else Some (b, d, (n + m)%nat).
Proof.
  induction m as [|m IH]; intros env start n b d Hq Hl Hr Hf Hgo Hstop fuel.
  - rewrite Nat.add_0_r in Hstop. destruct fuel as [|fuel]; [reflexivity|].
    cbn [Nat.leb search_loop]. rewrite Hq. unfold search_guard.
    rewrite Hl, Hr, Nat.add_0_r. cbn [andb].
    destruct (env_exit_flag env n) eqn:Ex; [reflexivity|]. cbn [negb].
    destruct Hstop as [Hs|Hs]; [discriminate|].
    rewrite Hs. reflexivity.
  - destruct fuel as [|fuel]; [reflexivity|].
    cbn [search_loop]. rewrite Hq. unfold search_guard.
    rewrite Hl, Hr. cbn [andb].
    destruct (Hgo n ltac:(lia)) as [Ex Tm]. rewrite Ex, Tm. cbn [negb].
    rewrite (search_iteration_idle b d Hf).
    rewrite (IH env start (S n) b d Hq Hl Hr Hf).
    + replace (S n + m)%nat with (n + S m)%nat by lia. reflexivity.
    + intros k Hk. apply Hgo. lia.
    + replace (S n + m)%nat with (n + S m)%nat by lia. exact Hstop.
Qed.

(** While no feedback comes (the direction stays what the Rogue or the
    orchestrator left, none of ['u'], ['d'], ['-'], and nobody writes the
    block) the handler polls without writing anything: it is left by the
    first poll that finds the deadline passed or [exit_flag] set, not
    before, with the shared block as it was and the bounds at the full
    range. *)
Theorem disarm_trap_waits_for_feedback :
  forall m (env : Env F) (b : Bounds F) (d : Dungeon F) fuel,
  (forall k d0, env_write env k d0 = d0) ->
  trap_locked d = true -> running d = true ->
  fresh_direction (trap_direction d) = true ->
  (forall k, (k < m)%nat ->
     env_exit_flag env k = false
     /\ pick_timed_out SECONDS_TO_PICK (env_time env O) (env_time env k)
        = false) ->
  env_exit_flag env m = true
  \/ pick_timed_out SECONDS_TO_PICK (env_time env O) (env_time env m) = true ->
  disarm_trap MAX_PICK_ANGLE SECONDS_TO_PICK fuel env b d
  = if (fuel <=? m)%nat then None else Some (full_range MAX_PICK_ANGLE, d).
Proof.
  intros m env b d fuel Hq Hl Hr Hf Hgo Hstop.
  unfold disarm_trap. rewrite Hl. unfold reset_on_entry. rewrite Hf.
  rewrite (search_loop_waits m env (env_time env O) O _ d Hq Hl Hr Hf).
  - destruct (fuel <=? m)%nat; [reflexivity|].
    rewrite Hq. unfold reset_on_exit. rewrite Hl. reflexivity.
  - intros k Hk. apply Hgo. lia.
  - exact Hstop.
Qed.

(** ** What the solver writes *)

Lemma search_iteration_frame :
  forall (P : Dungeon F -> Prop) (b : Bounds F) d timed_out b' d' f,
  (forall d0 v, P d0 -> P (set_direction (set_pick d0 v) dir_guess)) ->
  P d -> search_iteration b d timed_out = (b', d', f) -> P d'.
Proof.
  intros P b d timed_out b' d' f Hw Hd Hs. unfold search_iteration in Hs.
  destruct timed_out; [injection Hs as <- <- <-; exact Hd|].
  destruct (trap_direction d =? dir_unlocked);
    [injection Hs as <- <- <-; exact Hd|].
  destruct ((trap_direction d =? dir_up) || (trap_direction d =? dir_down));
    [|injection Hs as <- <- <-; exact Hd].
  destruct (range_open _); injection Hs as <- <- <-; auto.
Qed.

Lemma search_loop_frame :
  forall (P : Dungeon F -> Prop) fuel (env : Env F) start n (b : Bounds F) d
         b' d' n',
  (forall k d0, P d0 -> P (env_write env k d0)) ->
  (forall d0 v, P d0 -> P (set_direction (set_pick d0 v) dir_guess)) ->
  P d ->
  search_loop SECONDS_TO_PICK fuel env start n b d = Some (b', d', n') ->
  P d'.
Proof.
  intros P. induction fuel as [|fuel IH];
    intros env start n b d b' d' n' He Hw Hd Hs; [discriminate|].
  cbn [search_loop] in Hs.
  destruct (search_guard env n (env_write env n d)).
  - destruct (search_iteration b (env_write env n d) _) as [[b1 d1] [|]] eqn:Ei.
    + eapply IH; [exact He | exact Hw | | exact Hs].
      eapply search_iteration_frame; [exact Hw | | exact Ei]. auto.
    + injection Hs as <- <- <-.
      eapply search_iteration_frame; [exact Hw | | exact Ei]. auto.
  - injection Hs as <- <- <-. auto.
Qed.

(** The trap solver writes the shared block only by submitting a pick: a
    new [rogue.pick] together with the direction ['t'].  Whatever holds of
    the block when the signal arrives, and is kept by the writes of the
    other processes and by a submission, holds when the handler returns. *)
Theorem disarm_trap_frame :
  forall (P : Dungeon F -> Prop) fuel (env : Env F) (b : Bounds F) d b' d',
  (forall k d0, P d0 -> P (env_write env k d0)) ->
  (forall d0 v, P d0 -> P (set_direction (set_pick d0 v) dir_guess)) ->
  P d ->
  disarm_trap MAX_PICK_ANGLE SECONDS_TO_PICK fuel env b d = Some (b', d') ->
  P d'.
Proof.
  intros P fuel env b d b' d' He Hw Hd Hr. unfold disarm_trap in Hr.
  destruct (trap_locked d); [|injection Hr as <- <-; exact Hd].
  destruct (search_loop _ fuel env (env_time env O) O _ d)
    as [[[b1 d1] n1]|] eqn:Es; [|discriminate].
  injection Hr as <- <-. apply He.
  eapply search_loop_frame; [exact He | exact Hw | exact Hd | exact Es].
Qed.

End Trap.

Lemma disarm_trap_waits_for_feedback_witness :
  disarm_trap angle_100 5 8
    (mkEnv (fun _ d => d) (fun _ => false) (fun n => Z.of_nat n))
    (mkBounds (float_of_Z 20) (float_of_Z 60))
    (trap_block dir_guess (f_half angle_100))
  = Some (full_range angle_100, trap_block dir_guess (f_half angle_100)).
Proof.
  refine (disarm_trap_waits_for_feedback angle_100 5 5
            (mkEnv (fun _ d => d) (fun _ => false) (fun n => Z.of_nat n))
            (mkBounds (float_of_Z 20) (float_of_Z 60))
            (trap_block dir_guess (f_half angle_100)) 8 _ _ _ _ _ _).
  - reflexivity.
  - reflexivity.
  - reflexivity.
  - reflexivity.
  - intros k Hk. do 5 (destruct k as [|k]; [split; reflexivity|]). lia.
  - right. reflexivity.
Defined.

Lemma disarm_trap_frame_witness :
  match disarm_trap angle_100 5 3 unlocking_env
          (mkBounds (float_of_Z 20) (float_of_Z 60))
          (trap_block dir_up (float_of_Z 50)) with
  | Some (_, d') => treasure d' = [0; 0; 0; 0] /\ spoils d' = [0; 0; 0; 0]
  | None => False
  end.
Proof.
  destruct (disarm_trap angle_100 5 3 unlocking_env
              (mkBounds (float_of_Z 20) (float_of_Z 60))
              (trap_block dir_up (float_of_Z 50))) as [[b' d']|] eqn:E.
  - refine (disarm_trap_frame angle_100 5
              (fun x => treasure x = [0; 0; 0; 0] /\ spoils x = [0; 0; 0; 0])
              3 unlocking_env _ _ b' d' _ _ _ E).
    + intros [|k] d0 Hd; exact Hd.
    + intros d0 v Hd. exact Hd.
    + split; reflexivity.
  - vm_compute in E. discriminate.
Defined.

(** ** The collection *)

Section Treasure.
Context {F : Type}.
Variable TIME_TREASURE_AVAILABLE : Z.

Lemma collected_cleared : forall d : Dungeon F,
  List.length (spoils d) = 4%nat ->
  collected (set_spoils d (memset (spoils d) 0 (List.length (spoils d)))) O.
Proof.
  intros d Hlen. unfold collected, set_spoils. cbn [spoils treasure].
  rewrite WizardSpec.memset_whole, Hlen. split; [reflexivity|].
  intros j Hj. cbn [Nat.ltb Nat.leb]. split; [exact I|].
  do 4 (destruct j as [|j]; [reflexivity|]). lia.
Qed.

Lemma collect_loop_completes :
  forall k (env : Env F) start n (d : Dungeon F) c log fuel,
  (c + k = 4)%nat ->
  keeps_revealed env ->
  (forall i, (i < 4)%nat -> nth i (treasure d) 0 <> 0) ->
  running d = true ->
  (forall j d0, running d0 = true -> running (env_write env j d0) = true) ->
  (forall j, (n <= j < n + k)%nat -> env_exit_flag env j = false) ->
  (forall j, (n <= j < n + k)%nat ->
     treasure_timed_out TIME_TREASURE_AVAILABLE start (env_time env j) = false) ->
  (k < fuel)%nat ->
  exists d',
    collect_loop TIME_TREASURE_AVAILABLE fuel env start n d c log
    = Some (d', 4%nat,
            log ++ puts c (map (fun i => nth i (treasure d) 0) (seq c k)),
            (n + k)%nat).
Proof.
  induction k as [|k IH];
    intros env start n d c log fuel Hc Hkeep Hall Hr Hrun Hex Htm Hfuel.
  - destruct fuel as [|fuel]; [lia|]. cbn [collect_loop].
    unfold collect_guard.
    replace (c <? 4)%nat with false by (symmetry; apply Nat.ltb_ge; lia).
    rewrite !andb_false_r. cbn [seq map puts].
    rewrite app_nil_r, Nat.add_0_r.
    replace c with 4%nat by lia. eauto.
  - destruct fuel as [|fuel]; [lia|]. cbn [collect_loop].
    set (d1 := env_write env n d).
    assert (Hsame : forall i, (i < 4)%nat ->
              nth i (treasure d1) 0 = nth i (treasure d) 0).
    { intros i Hi. apply Hkeep, Hall, Hi. }
    assert (Hr1 : running d1 = true) by (apply Hrun, Hr).
    unfold collect_guard.
    rewrite Hr1, (Hex n ltac:(lia)).
    replace (c <? 4)%nat with true by (symmetry; apply Nat.ltb_lt; lia).
    cbn [negb andb]. rewrite (Htm n ltac:(lia)).
    rewrite (Hsame c ltac:(lia)).
    destruct (Z.eqb_spec (nth c (treasure d) 0) 0) as [Ez|Nz];
      [exfalso; apply (Hall c); [lia | exact Ez]|].
    cbn [negb].
    destruct (IH env start (S n)
                (set_spoils d1 (store (spoils d1) c (nth c (treasure d) 0)))
                (S c) (log ++ [Put c (nth c (treasure d) 0)]) fuel)
      as [d' Hd']; try lia; try assumption.
    + intros i Hi. cbn [set_spoils treasure]. rewrite Hsame by exact Hi.
      apply Hall, Hi.
    + intros j Hj. apply Hex. lia.
    + intros j Hj. apply Htm. lia.
    + exists d'. rewrite Hd'. cbn [seq map puts]. rewrite <- app_assoc.
      cbn [app]. replace (S n + k)%nat with (n + S k)%nat by lia.
      rewrite (map_ext_in _ (fun i => nth i (treasure d) 0)); [reflexivity|].
      intros i Hi. apply in_seq in Hi.
      cbn [set_spoils treasure]. apply Hsame. lia.
Qed.

(** Once the orchestrator has revealed the whole treasure the collection
    takes four polls: with the four bytes of [treasure] not zero (and kept),
    [running] true, [exit_flag] unset and the time not over at the polls 0
    to 3, the handler copies the four bytes in order and returns at poll 4,
    whatever happens from then on; when nobody else writes [spoils] the
    field then holds the treasure. *)
Theorem collect_treasure_completes :
  forall (env : Env F) (d : Dungeon F) fuel,
  keeps_revealed env ->
  (forall i, (i < 4)%nat -> nth i (treasure d) 0 <> 0) ->
  running d = true ->
  (forall j d0, running d0 = true -> running (env_write env j d0) = true) ->
  (forall j, (j < 4)%nat -> env_exit_flag env j = false) ->
  (forall j, (j < 4)%nat ->
     treasure_timed_out TIME_TREASURE_AVAILABLE (env_time env O) (env_time env j)
     = false) ->
  (4 < fuel)%nat ->
  exists d',
    collect_treasure TIME_TREASURE_AVAILABLE fuel env d
    = Some (d', 4%nat,
            Clear :: puts O (map (fun i => nth i (treasure d) 0) (seq 0 4)),
            4%nat)
    /\ (keeps_spoils env -> List.length (spoils d) = 4%nat ->
        spoils d' = map (fun i => nth i (treasure d') 0) (seq 0 4)).
Proof.
  intros env d fuel Hkeep Hall Hr Hrun Hex Htm Hfuel.
  unfold collect_treasure.
  set (d0 := set_spoils d (memset (spoils d) 0 (List.length (spoils d)))).
  destruct (collect_loop_completes 4 env (env_time env O) O d0 O [Clear] fuel)
    as [d' Hd']; try assumption; try reflexivity.
  - intros j Hj. apply Hex. lia.
  - intros j Hj. apply Htm. lia.
  - exists d'. split; [exact Hd'|].
    intros Hs Hlen.
    pose proof (collect_loop_spoils TIME_TREASURE_AVAILABLE _ _ _ _ _ _ _ _ _ _ _
                  Hs Hkeep (collected_cleared d Hlen) Hd') as [Hl Hv].
    destruct (spoils d') as [|s0 [|s1 [|s2 [|s3 [|s4 rest]]]]] eqn:Es;
      try discriminate.
    pose proof (proj2 (Hv 0%nat ltac:(lia))) as V0.
    pose proof (proj2 (Hv 1%nat ltac:(lia))) as V1.
    pose proof (proj2 (Hv 2%nat ltac:(lia))) as V2.
    pose proof (proj2 (Hv 3%nat ltac:(lia))) as V3.
    cbn in V0, V1, V2, V3. cbn [seq map]. congruence.
Qed.

(** [spoils[3]], which the holders of the levers poll, is not zero after a
    collection exactly when all four bytes were collected: a collection cut
    short (time over, [running] false, [exit_flag] set) leaves it zero, and
    a full one never does. *)
Theorem spoils_complete_signal :
  forall (env : Env F) (d d' : Dungeon F) fuel count log n,
  List.length (spoils d) = 4%nat ->
  keeps_spoils env -> keeps_revealed env ->
  collect_treasure TIME_TREASURE_AVAILABLE fuel env d
  = Some (d', count, log, n) ->
  nth 3 (spoils d') 0 <> 0 <-> count = 4%nat.
Proof.
  intros env d d' fuel count log n Hlen Hs Hkeep Hr.
  unfold collect_treasure in Hr.
  pose proof (collect_loop_spoils TIME_TREASURE_AVAILABLE _ _ _ _ _ _ _ _ _ _ _
                Hs Hkeep (collected_cleared d Hlen) Hr) as [_ Hv].
  pose proof (collect_loop_log TIME_TREASURE_AVAILABLE _ _ _ _ _ _ _ _ _ _ _ Hr)
    as (vs & _ & _ & _ & Hle & _).
  specialize (Hle ltac:(lia)).
  destruct (Hv 3%nat ltac:(lia)) as [Hnz Hval].
  destruct (Nat.ltb_spec 3 count) as [Hlt|Hge].
  - split; [lia|]. intros _. rewrite Hval. exact Hnz.
  - split; [intros Hne; contradiction | lia].
Qed.

End Treasure.

Lemma collect_treasure_completes_witness :
  exists d',
    collect_treasure 10 8 quiet_env gold_block
    = Some (d', 4%nat, Clear :: puts O (bytes "GOLD"), 4%nat).
Proof.
  destruct (collect_treasure_completes 10 quiet_env gold_block 8) as [d' [E _]].
  - intros n d i _. reflexivity.
  - intros i Hi. do 4 (destruct i as [|i]; [vm_compute; discriminate|]). lia.
  - reflexivity.
  - intros j d0 Hd. exact Hd.
  - intros j _. reflexivity.
  - intros j _. reflexivity.
  - lia.
  - exists d'. exact E.
Defined.

Lemma spoils_complete_signal_witness :
  nth 3 (spoils gold_collected) 0 <> 0.
Proof.
  refine (proj2 (spoils_complete_signal 10 quiet_env gold_block gold_collected
                   8 4 (Clear :: puts O (bytes "GOLD")) 4 _ _ _ _) _).
  - reflexivity.
  - intros n d. reflexivity.
  - intros n d i _. reflexivity.
  - vm_compute. reflexivity.
  - reflexivity.
Defined.

(** ** After SIGINT *)

(** SIGINT is final for the handler: it only sets [exit_flag] (the statics
    and the shared block stay, nothing is written to [spoils]), and from then
    on a signal of any kind is ignored, so that no pick is submitted and no
    treasure collected any more. *)
Theorem rogue_ignores_signals_after_sigint :
  forall {F : Type} `{FloatOps F} (MAX_PICK_ANGLE : F)
         (SECONDS_TO_PICK TIME_TREASURE_AVAILABLE : Z)
         fuel (env : Env F) fuel' (env' : Env F) signum
         (p : Process F) (d : Dungeon F),
  exists p1,
    rogue_signal_handler MAX_PICK_ANGLE SECONDS_TO_PICK TIME_TREASURE_AVAILABLE
      fuel env SIGINT p d = Some (p1, d, [])
    /\ bounds p1 = bounds p /\ exit_flag p1 = true
    /\ rogue_signal_handler MAX_PICK_ANGLE SECONDS_TO_PICK
         TIME_TREASURE_AVAILABLE fuel' env' signum p1 d = Some (p1, d, []).
Proof.
  intros F ops MAX SEC TIME fuel env fuel' env' signum p d.
  exists (mkProcess (bounds p) true).
  repeat apply conj; try reflexivity.
  destruct signum; reflexivity.
Qed.

End RogueMore.

(* ===================================================================== *)
(** * More on the lever protocol *)
(* ===================================================================== *)

Module LeversMore.
Import Levers LeversSpec.

(** ** No contention *)

Lemma try_cannot_fail : forall t w e w',
  protocol_invariant t w -> step w e w' -> is_wizard_try_failure e = false.
Proof.
  intros t w e w' (_ & H2 & Hb & _ & _) Hs.
  destruct e as [| r l | | | | | |]; try reflexivity.
  destruct r; try reflexivity. destruct l; try reflexivity.
  exfalso. inversion Hs as [r w0 e0 w0' Hp| | | | | |]; subst.
  pose proof (Hb Barbarian) as HB. pose proof (Hb Rogue) as HR.
  rewrite holders_sum in H2. unfold holds in H2.
  unfold proc_step in Hp.
  destruct r; break_world w; cbn in *.
  - case_pc pb; cbn in *; try contradiction; try discriminate;
      destruct s1; try discriminate;
      destruct (keep_holding _ _); discriminate.
  - case_pc pw; cbn in *; try discriminate;
      try (destruct s1; discriminate); try (destruct s2; discriminate);
      try (destruct (keep_holding _ _); discriminate).
    destruct s2; [|discriminate].
    case_pc pb; cbn in *; try contradiction;
      case_pc pr; cbn in *; try contradiction; lia.
  - case_pc pr; cbn in *; try contradiction; discriminate.
Qed.

Lemma no_try_failure : forall t w,
  run initial_world t w -> count is_wizard_try_failure t = 0%nat.
Proof.
  intros t w Hrun. remember initial_world as w0 eqn:E.
  induction Hrun as [w|w t w1 e w2 Hrun IH Hs].
  - reflexivity.
  - subst. rewrite count_snoc, IH by reflexivity.
    rewrite (try_cannot_fail t w1 e w2 (invariant_run t w1 Hrun) Hs).
    reflexivity.
Qed.

(** As long as only the three characters operate the semaphores, the levers
    are never contended: in no run does the Wizard's [sem_trywait] on lever
    two fail, so the Wizard never waits for lever one nor holds it, and no
    character is ever blocked in [sem_wait]: a process that cannot move is
    in its main loop or is the Rogue collecting. *)
Theorem levers_never_contended :
  forall (t : list event) (w : World),
  run initial_world t w ->
  count is_wizard_try_failure t = 0%nat
  /\ wizard_waiting w = false
  /\ holds w Wizard Lever1 = false
  /\ (forall r, proc_step r w = None ->
        get_pc w r = Idle \/ get_pc w r = Collecting).
Proof.
  intros t w Hrun.
  pose proof (no_try_failure t w Hrun) as Hno.
  destruct (invariant_run t w Hrun) as (H1 & H2 & Hb & Hc & Hw).
  rewrite Hno in Hw.
  assert (Hwait : wizard_waiting w = false)
    by (destruct (wizard_waiting w); [cbn in Hw; lia | reflexivity]).
  assert (Hacq : acquires Wizard Lever1 t = 0%nat) by lia.
  assert (Hhold : holds w Wizard Lever1 = false).
  { pose proof (Hc Wizard Lever1) as Hc1. rewrite Hacq in Hc1.
    destruct (holds w Wizard Lever1); [cbn in Hc1; lia | reflexivity]. }
  repeat apply conj; try assumption.
  intros r Hp.
  pose proof (Hb Barbarian) as HB. pose proof (Hb Wizard) as HW.
  pose proof (Hb Rogue) as HR.
  rewrite holders_sum in H1, H2. unfold holds in *.
  unfold proc_step in Hp. unfold wizard_waiting in Hwait.
  destruct r; break_world w; cbn in *.
  - case_pc pb; cbn in *; try contradiction; auto; try discriminate;
      try (destruct (keep_holding _ _); discriminate).
    destruct s1; [|discriminate].
    case_pc pw; cbn in *; try contradiction; try discriminate;
      case_pc pr; cbn in *; try contradiction; lia.
  - case_pc pw; cbn in *; try contradiction; auto; try discriminate;
      try (destruct (keep_holding _ _); discriminate);
      destruct s2; discriminate.
  - case_pc pr; cbn in *; try contradiction; auto.
Qed.

Lemma levers_never_contended_witness :
  count is_wizard_try_failure both_held_trace = 0%nat
  /\ wizard_waiting both_held = false
  /\ holds both_held Wizard Lever1 = false
  /\ (forall r, proc_step r both_held = None ->
        get_pc both_held r = Idle \/ get_pc both_held r = Collecting).
Proof.
  exact (levers_never_contended both_held_trace both_held both_held_run).
Defined.

(** ** Taking and giving back a lever *)

(** A character that gets a lever when the wait is already over ([running]
    false, [spoils[3]] not zero or its [exit_flag] set) gives it back in
    its next two steps: the acquisition, the test of the loop and the post
    leave the semaphore at its value and the character in its main loop,
    and nothing else is changed. *)
Theorem lever_taken_and_given_back :
  forall (r : role) (l : lever) (w : World) (v : nat),
  get_pc w r = Waiting l \/ get_pc w r = TryWaiting l ->
  sem_value w l = S v ->
  keep_holding w r = false ->
  exists w1 w2,
    proc_step r w = Some (Acquired r l, w1)
    /\ sem_value w1 l = v
    /\ proc_step r w1 = Some (LeftLoop r l, w2)
    /\ proc_step r w2 = Some (Released r l, set_pc w r Idle).
Proof.
  intros r l w v Hpc Hsem Hk.
  exists (set_pc (set_sem w l v) r (Holding l)).
  exists (set_pc (set_pc (set_sem w l v) r (Holding l)) r (Releasing l)).
  unfold keep_holding in Hk.
  destruct r, l; break_world w; cbn in *; subst;
    destruct Hpc as [-> | ->]; cbn;
    unfold keep_holding; cbn; rewrite Hk; cbn; auto.
Qed.

Lemma lever_taken_and_given_back_witness :
  exists w1 w2,
    proc_step Barbarian
      (mkWorld 1 1 true 68 false false false (Waiting Lever1) Idle Idle)
    = Some (Acquired Barbarian Lever1, w1)
    /\ sem_value w1 Lever1 = 0%nat
    /\ proc_step Barbarian w1 = Some (LeftLoop Barbarian Lever1, w2)
    /\ proc_step Barbarian w2
       = Some (Released Barbarian Lever1,
               set_pc (mkWorld 1 1 true 68 false false false
                         (Waiting Lever1) Idle Idle) Barbarian Idle).
Proof.
  apply (lever_taken_and_given_back Barbarian Lever1
           (mkWorld 1 1 true 68 false false false (Waiting Lever1) Idle Idle)
           0).
  - left. reflexivity.
  - reflexivity.
  - reflexivity.
Defined.

(** ** Shutting down *)

Lemma reachable_can_move : forall t w,
  run initial_world t w ->
  forall r, get_pc w r <> Idle -> get_pc w r <> Collecting ->
  exists e w', proc_step r w = Some (e, w').
Proof.
  intros t w Hrun r Hi Hc0.
  pose proof (no_try_failure t w Hrun) as Hno.
  destruct (invariant_run t w Hrun) as (H1 & H2 & Hb & Hc & Hw).
  rewrite Hno in Hw.
  assert (Hwait : wizard_waiting w = false)
    by (destruct (wizard_waiting w); [cbn in Hw; lia | reflexivity]).
  assert (Hhold : holds w Wizard Lever1 = false).
  { pose proof (Hc Wizard Lever1) as Hc1.
    destruct (holds w Wizard Lever1); [cbn in Hc1; lia | reflexivity]. }
  pose proof (Hb Barbarian) as HB. pose proof (Hb Wizard) as HW.
  pose proof (Hb Rogue) as HR.
  rewrite holders_sum in H1, H2. unfold holds in *.
  unfold proc_step. unfold wizard_waiting in Hwait.
  destruct r; break_world w; cbn in *.
  - case_pc pb; cbn in *; try contradiction; try congruence;
      try (destruct (keep_holding _ _); eauto); eauto.
    destruct s1; [|eauto].
    case_pc pw; cbn in *; try contradiction; try discriminate;
      case_pc pr; cbn in *; try contradiction; lia.
  - case_pc pw; cbn in *; try contradiction; try congruence;
      try discriminate; try (destruct (keep_holding _ _); eauto); eauto;
      destruct s2; eauto.
  - case_pc pr; cbn in *; try contradiction; congruence.
Qed.

(** With [running] false a step of a handler brings its process one step
    nearer to its main loop and touches neither [running], [spoils[3]] nor
    an [exit_flag]. *)
Lemma handler_step_settles : forall t w e w',
  run initial_world t w -> w_running w = false ->
  handler_step w e w' ->
  work_left w = S (work_left w')
  /\ w_running w' = false
  /\ spoils3 w' = spoils3 w
  /\ (forall r, exit_flag w' r = exit_flag w r)
  /\ (forall r, e <> Signalled r).
Proof.
  intros t w e w' Hrun Hoff Hs.
  pose proof (invariant_run t w Hrun) as Hinv.
  assert (Hstep : step w e w').
  { destruct Hs as [r w e w' Hp | w Hc];
      [eapply step_proc; exact Hp | apply step_rogue_done; exact Hc]. }
  pose proof (try_cannot_fail t w e w' Hinv Hstep) as Htry.
  destruct Hinv as (_ & _ & Hb & _ & _).
  pose proof (Hb Barbarian) as HB. pose proof (Hb Wizard) as HW.
  pose proof (Hb Rogue) as HR.
  destruct Hs as [r w e w' Hp | w Hc].
  - unfold proc_step in Hp. unfold work_left.
    destruct r; break_world w; cbn in *; subst.
    + case_pc pb; cbn in *; try contradiction; try discriminate;
        try (destruct s1; try discriminate);
        injection Hp as <- <-; cbn;
        repeat apply conj; try reflexivity; try lia;
        try (intros []; reflexivity); intros r0; discriminate.
    + case_pc pw; cbn in *; try contradiction; try discriminate;
        try (destruct s1; try discriminate);
        try (destruct s2; try discriminate);
        injection Hp as <- <-; cbn in *; try discriminate;
        repeat apply conj; try reflexivity; try lia;
        try (intros []; reflexivity); intros r0; discriminate.
    + case_pc pr; cbn in *; try contradiction; discriminate.
  - unfold work_left. break_world w; cbn in *; subst.
    repeat apply conj; try reflexivity; try (cbn; lia);
      try (intros []; reflexivity); intros r0; discriminate.
Qed.

Lemma handler_run_settles : forall w0 t' w',
  handler_run w0 t' w' ->
  forall t, run initial_world t w0 -> w_running w0 = false ->
  (List.length t' + work_left w' = work_left w0)%nat
  /\ w_running w' = false
  /\ spoils3 w' = spoils3 w0
  /\ (forall r, exit_flag w' r = exit_flag w0 r)
  /\ (forall r, ~ In (Signalled r) t')
  /\ run initial_world (t ++ t') w'.
Proof.
  induction 1 as [w|w e w1 t' w2 Hs Hr IH]; intros t Hrun Hoff.
  - rewrite app_nil_r. repeat apply conj; auto.
  - destruct (handler_step_settles t w e w1 Hrun Hoff Hs)
      as (Hw & Hoff1 & Hsp & Hex & Hev).
    assert (Hrun1 : run initial_world (t ++ [e]) w1).
    { eapply run_snoc; [exact Hrun|].
      destruct Hs as [r w e w' Hp | w Hc];
        [eapply step_proc; exact Hp | apply step_rogue_done; exact Hc]. }
    destruct (IH (t ++ [e]) Hrun1 Hoff1)
      as (Hlen & Hoff2 & Hsp2 & Hex2 & Hev2 & Hrun2).
    cbn [List.length]. repeat apply conj.
    + lia.
    + exact Hoff2.
    + congruence.
    + intros r. now rewrite Hex2, Hex.
    + intros r [E|Hin]; [exact (Hev r E) | exact (Hev2 r Hin)].
    + rewrite <- app_assoc in Hrun2. exact Hrun2.
Qed.

(** No lever stays held when the game ends.  From any state the system can
    reach, once the orchestrator has cleared [running], and with nothing
    else from outside (no signal, no SIGINT, no write), the handlers run to
    their end on their own, whatever the order of their steps: every step
    brings a process one step nearer to its main loop, so that no schedule
    has more than seven steps; as long as a process is not back in its main
    loop some step can be taken; and when none is left every character is
    in its main loop and both semaphores are back at 1.  [running] stays
    false, and [spoils[3]] and the [exit_flag]s stay what they were. *)
Theorem levers_free_after_shutdown :
  forall (t : list event) (w : World),
  run initial_world t w ->
  forall (t' : list event) (w' : World),
  handler_run (set_running w false) t' w' ->
  (List.length t' + work_left w' = work_left w)%nat
  /\ (work_left w <= 7)%nat
  /\ w_running w' = false
  /\ spoils3 w' = spoils3 w
  /\ (forall r, exit_flag w' r = exit_flag w r)
  /\ (forall r, ~ In (Signalled r) t')
  /\ (work_left w' <> 0%nat -> exists e w'', handler_step w' e w'')
  /\ (work_left w' = 0%nat -> at_rest w').
Proof.
  intros t w Hrun t' w' Hh.
  assert (Hrun0 : run initial_world (t ++ [Outside]) (set_running w false))
    by (eapply run_snoc; [exact Hrun | apply step_shutdown]).
  destruct (handler_run_settles _ _ _ Hh _ Hrun0 eq_refl)
    as (Hlen & Hoff & Hsp & Hex & Hev & Hrun').
  assert (Hwl : work_left (set_running w false) = work_left w)
    by (break_world w; reflexivity).
  assert (Hbound : (work_left w <= 7)%nat).
  { destruct (invariant_run t w Hrun) as (_ & _ & Hb & _ & _).
    pose proof (Hb Barbarian) as HB. pose proof (Hb Wizard) as HW.
    pose proof (Hb Rogue) as HR. unfold work_left.
    break_world w; cbn in *.
    case_pc pb; cbn in *; try contradiction;
      case_pc pw; cbn in *; try contradiction;
      case_pc pr; cbn in *; try contradiction; lia. }
  rewrite Hwl in Hlen.
  repeat apply conj; try assumption.
  - intros Hleft.
    destruct (invariant_run _ _ Hrun') as (_ & _ & Hb & _ & _).
    pose proof (Hb Rogue) as HR.
    assert (Hcase : get_pc w' Rogue = Collecting
                    \/ exists r, get_pc w' r <> Idle
                                 /\ get_pc w' r <> Collecting).
    { pose proof (Hb Barbarian) as HB. pose proof (Hb Wizard) as HW.
      unfold work_left in Hleft. break_world w'; cbn in *.
      case_pc pr; cbn in *; try contradiction; auto.
      right.
      case_pc pb; cbn in *; try contradiction;
        try (exists Barbarian; cbn; split; discriminate);
        case_pc pw; cbn in *; try contradiction;
        try (exists Wizard; cbn; split; discriminate); lia. }
    destruct Hcase as [Hc|[r [Hi Hc]]].
    + eexists _, _. apply handler_rogue_done. exact Hc.
    + destruct (reachable_can_move _ _ Hrun' r Hi Hc) as (e & w'' & Hp).
      exists e, w''. eapply handler_proc. exact Hp.
  - intros Hzero.
    destruct (invariant_run _ _ Hrun') as (H1 & H2 & _ & _ & _).
    rewrite holders_sum in H1, H2. unfold holds in *.
    unfold work_left in Hzero. unfold at_rest.
    break_world w'; cbn in *.
    case_pc pb; cbn in *; try lia;
      case_pc pw; cbn in *; try lia;
      case_pc pr; cbn in *; try lia.
    repeat apply conj; try lia. intros []; reflexivity.
Qed.

Lemma levers_free_after_shutdown_witness :
  at_rest (mkWorld 1 1 false 0 false false false Idle Idle Idle).
Proof.
  refine (proj2 (proj2 (proj2 (proj2 (proj2 (proj2 (proj2
    (levers_free_after_shutdown both_held_trace both_held both_held_run
       [LeftLoop Barbarian Lever1; Released Barbarian Lever1;
        LeftLoop Wizard Lever2; Released Wizard Lever2]
       (mkWorld 1 1 false 0 false false false Idle Idle Idle) _))))))) _).
  - eapply handler_run_cons; [apply (handler_proc Barbarian); reflexivity|].
    eapply handler_run_cons; [apply (handler_proc Barbarian); reflexivity|].
    eapply handler_run_cons; [apply (handler_proc Wizard); reflexivity|].
    eapply handler_run_cons; [apply (handler_proc Wizard); reflexivity|].
    apply handler_run_nil.
  - reflexivity.
Defined.

End LeversMore.

(* ===================================================================== *)
(** * Properties of the Dungeon Master's set-up and clean-up *)
(* ===================================================================== *)

Module GameSpec.
Import Shared Levers Posix Game.

Ltac run_main :=
  unfold main, error_and_exit, cleanup_resources, child, when, bind, call_,
    exit_, ret, set_up, calls, forked, comes_to_fork, forked_all, has_lever,
    has_block, has_fd in *;
  cbn [shm_open_ret ftruncate_fails mmap_fails sem_open_fails fork_ret
       execvp_fails] in *.

(** The three tests on what a fork returned. *)
Ltac case_fork pid :=
  destruct (Z.ltb_spec pid 0), (Z.ltb_spec 0 pid), (Z.eqb_spec pid 0);
  try lia; cbn [negb andb].

(** The paths of [main] in the parent, each closed by [finish]. *)
Ltac parent_paths fd ft mm so fk finish :=
  destruct (Z.eqb_spec fd (-1)); cbn [negb andb]; [finish|];
  destruct ft; cbn [negb andb]; [finish|];
  destruct mm; cbn [negb andb]; [finish|];
  destruct (so Lever1); cbn [negb andb]; [finish|];
  destruct (so Lever2); cbn [negb andb]; [finish|];
  case_fork (fk Barbarian); [finish|];
  case_fork (fk Wizard); [finish|];
  case_fork (fk Rogue); finish.

Ltac as_parent o fd ft mm so fk xv Hp :=
  destruct o as [fd ft mm so fk xv];
  let HB := fresh "HB" in let HW := fresh "HW" in let HR := fresh "HR" in
  pose proof (Hp Barbarian) as HB; pose proof (Hp Wizard) as HW;
  pose proof (Hp Rogue) as HR; cbn in HB, HW, HR; clear Hp.

(** The parent returns EXIT_SUCCESS when every step of the set-up succeeded
    and exits with EXIT_FAILURE otherwise; it calls [RunDungeon] in the
    first case only, once, with the pids of the Wizard, the Rogue and the
    Barbarian in that order. *)
Theorem game_main_status :
  forall o : Outcomes, is_parent o ->
  snd (main o)
  = (if set_up o then Returned EXIT_SUCCESS else Exited (Exit EXIT_FAILURE))
  /\ filter is_run_dungeon (fst (main o))
     = if set_up o
       then [RunDungeon (fork_ret o Wizard) (fork_ret o Rogue)
               (fork_ret o Barbarian)]
       else [].
Proof.
  intros o Hp. as_parent o fd ft mm so fk xv Hp. run_main.
  parent_paths fd ft mm so fk ltac:(split; reflexivity).
Qed.

Lemma game_main_status_witness :
  snd (main (mkOutcomes 3 false false (fun _ => false)
               (fun r => match r with
                         | Barbarian => 101 | Wizard => 102 | Rogue => 103
                         end)
               (fun _ => false)))
  = Returned EXIT_SUCCESS.
Proof.
  refine (proj1 (game_main_status
                   (mkOutcomes 3 false false (fun _ => false)
                      (fun r => match r with
                                | Barbarian => 101 | Wizard => 102 | Rogue => 103
                                end)
                      (fun _ => false)) _)).
  intros []; discriminate.
Defined.

(** On every path of the parent the names of the shared objects are
    removed exactly once (also when [shm_open] itself failed and nothing was
    created), and what the process got hold of is released exactly once:
    the mapping, the descriptor [shm_open] returned, each semaphore. *)
Theorem game_main_releases_once :
  forall o : Outcomes, is_parent o ->
  let t := fst (main o) in
  calls is_shm_unlink t = 1%nat
  /\ (forall l, calls (is_sem_unlink l) t = 1%nat)
  /\ calls is_munmap t = Nat.b2n (has_block o)
  /\ filter is_any_close t
     = (if has_fd o then [Close (shm_open_ret o)] else [])
  /\ (forall l, calls (is_sem_close l) t = Nat.b2n (has_lever o l)).
Proof.
  intros o Hp. as_parent o fd ft mm so fk xv Hp. run_main.
  parent_paths fd ft mm so fk
    ltac:(repeat apply conj; try reflexivity; intros []; reflexivity).
Qed.

Lemma game_main_releases_once_witness :
  calls is_shm_unlink
    (fst (main (mkOutcomes (-1) false false (fun _ => false) (fun _ => 1)
                  (fun _ => false))))
  = 1%nat.
Proof.
  refine (proj1 (game_main_releases_once
                   (mkOutcomes (-1) false false (fun _ => false) (fun _ => 1)
                      (fun _ => false)) _)).
  intros []; discriminate.
Defined.

(** The children the parent signals with SIGINT and those it reaps are the
    children it forked, each once, in the order Barbarian, Wizard, Rogue;
    and the clean-up goes by stages: every child is signalled before any is
    reaped, and nothing is released or removed before all are reaped. *)
Theorem game_main_reaps_children :
  forall o : Outcomes, is_parent o ->
  let t := fst (main o) in
  let children := filter (forked o) [Barbarian; Wizard; Rogue] in
  filter is_any_kill t = map (fun r => Kill (fork_ret o r) SIGINT) children
  /\ filter is_any_waitpid t = map (fun r => Waitpid (fork_ret o r)) children
  /\ ascending (map stage t) = true.
Proof.
  intros o Hp. as_parent o fd ft mm so fk xv Hp. run_main.
  cbv zeta. cbn [filter].
  parent_paths fd ft mm so fk ltac:(repeat apply conj; reflexivity).
Qed.

Lemma game_main_reaps_children_witness :
  filter is_any_waitpid
    (fst (main (mkOutcomes 3 false false (fun _ => false)
                  (fun r => match r with
                            | Barbarian => 101 | Wizard => 102 | Rogue => -1
                            end)
                  (fun _ => false))))
  = [Waitpid 101; Waitpid 102].
Proof.
  refine (proj1 (proj2 (game_main_reaps_children
                   (mkOutcomes 3 false false (fun _ => false)
                      (fun r => match r with
                                | Barbarian => 101 | Wizard => 102 | Rogue => -1
                                end)
                      (fun _ => false)) _))).
  intros []; discriminate.
Defined.

(** In the child of a fork the process touches nothing of the game: it
    calls [execvp] and, when that fails, leaves with [_exit(EXIT_FAILURE)],
    without signalling or reaping anybody, without releasing or removing a
    shared object and without calling [RunDungeon]. *)
Theorem game_child_leaves_the_game :
  forall (o : Outcomes) (r : role),
  comes_to_fork o r = true -> fork_ret o r = 0 ->
  snd (main o)
  = Exited (if execvp_fails o r then Exit_now EXIT_FAILURE else Replaced r)
  /\ forallb (fun c => negb (tears_down c) && negb (is_run_dungeon c))
       (fst (main o)) = true
  /\ last (fst (main o)) (Shm_open true) = Execvp r.
Proof.
  intros [fd ft mm so fk xv] r Hc H0. run_main.
  destruct r; cbn [forked_all] in Hc;
    repeat match type of Hc with
    | (_ && _) = true => apply andb_true_iff in Hc; destruct Hc as [Hc ?]
    end;
    repeat match goal with
    | H : negb ?b = true |- _ => apply negb_true_iff in H
    | H : (0 <? _) = true |- _ => apply Z.ltb_lt in H
    | H : (_ =? _) = false |- _ => apply Z.eqb_neq in H
    end.
  all: destruct (Z.eqb_spec fd (-1)); [contradiction|]; cbn [negb andb].
  all: repeat match goal with
       | H : ?b = false |- context [?b] => rewrite H
       end; cbn [negb andb].
  - rewrite H0. cbn. destruct (xv Barbarian); repeat apply conj; reflexivity.
  - case_fork (fk Barbarian). rewrite H0. cbn.
    destruct (xv Wizard); repeat apply conj; reflexivity.
  - case_fork (fk Barbarian). case_fork (fk Wizard). rewrite H0. cbn.
    destruct (xv Rogue); repeat apply conj; reflexivity.
Qed.

Lemma game_child_leaves_the_game_witness :
  snd (main (mkOutcomes 3 false false (fun _ => false)
               (fun r => match r with
                         | Barbarian => 101 | Wizard => 0 | Rogue => 0
                         end)
               (fun _ => true)))
  = Exited (Exit_now EXIT_FAILURE).
Proof.
  refine (proj1 (game_child_leaves_the_game
                   (mkOutcomes 3 false false (fun _ => false)
                      (fun r => match r with
                                | Barbarian => 101 | Wizard => 0 | Rogue => 0
                                end)
                      (fun _ => true)) Wizard _ _)).
  - reflexivity.
  - reflexivity.
Defined.

(** The three tests on what a fork returned, and whether [execvp] returns
    in the child. *)
Ltac case_any_fork fk xv r :=
  destruct (Z.ltb_spec (fk r) 0), (Z.ltb_spec 0 (fk r)),
    (Z.eqb_spec (fk r) 0);
  try lia; cbn [negb andb]; try destruct (xv r).

(** No child is forked before the set-up is complete: when [main] comes to
    a fork, the shared block has been created, sized, mapped and
    initialized and both semaphores have been created, each with the value
    1, in that order and with success. *)
Theorem game_forks_after_set_up :
  forall (o : Outcomes) (r : role),
  In (Fork r) (fst (main o)) ->
  has_lever o Lever2 = true
  /\ firstn 6 (fst (main o))
     = [Shm_open true; Ftruncate (shm_open_ret o); Mmap (shm_open_ret o);
        Init_block; Sem_open Lever1 (Some 1); Sem_open Lever2 (Some 1)].
Proof.
  intros [fd ft mm so fk xv] r. run_main.
  destruct (Z.eqb_spec fd (-1)); cbn [negb andb];
    [cbn; intuition discriminate|].
  destruct ft; cbn [negb andb]; [cbn; intuition discriminate|].
  destruct mm; cbn [negb andb]; [cbn; intuition discriminate|].
  destruct (so Lever1); cbn [negb andb]; [cbn; intuition discriminate|].
  destruct (so Lever2); cbn [negb andb]; [cbn; intuition discriminate|].
  case_any_fork fk xv Barbarian; try (intros _; split; reflexivity);
    case_any_fork fk xv Wizard; try (intros _; split; reflexivity);
    case_any_fork fk xv Rogue; intros _; split; reflexivity.
Qed.

Lemma game_forks_after_set_up_witness :
  has_lever (mkOutcomes 3 false false (fun _ => false) (fun _ => -1)
               (fun _ => false)) Lever2 = true.
Proof.
  refine (proj1 (game_forks_after_set_up
                   (mkOutcomes 3 false false (fun _ => false) (fun _ => -1)
                      (fun _ => false)) Barbarian _)).
  cbn. auto 10.
Defined.

End GameSpec.

(* ===================================================================== *)
(** * Properties of the characters' set-up and clean-up *)
(* ===================================================================== *)

Module WorkersSpec.
Import Shared Levers Posix Workers.

Ltac run_worker :=
  unfold run_main, main, error_exit, forget_fd, first_pick, if_, and_then,
    do_call, leave, globals, set_dungeon_ptr, set_lever1_sem, set_lever2_sem,
    set_shm_fd, unit_, initial_globals, connected, handler_refused,
    got_lever, got_block, got_fd, calls;
  cbn [opened_fd mapping_fails lever_fails sigaction_fails
       dungeon_ptr lever1_sem lever2_sem shm_fd].

(** The paths of [main], each closed by [finish]. *)
Ltac known_fd :=
  cbn -[Z.eqb];
  repeat match goal with
  | H : (_ =? _) = false |- _ => rewrite !H
  end;
  cbn.

Ltac worker_paths r fd mp lv sg finish :=
  destruct r;
  (destruct (Z.eqb_spec fd (-1)) as [->|Hfd]; cbn [negb andb orb];
   [finish | apply Z.eqb_neq in Hfd]);
  (destruct mp; cbn [negb andb orb]; [finish|]);
  (destruct (lv Lever1); cbn [negb andb orb]; [finish|]);
  (destruct (lv Lever2); cbn [negb andb orb]; [finish|]);
  (destruct (sg DUNGEON_SIGNAL); cbn [negb andb orb]; [finish|]);
  (destruct (sg SEMAPHORE_SIGNAL); cbn [negb andb orb]; finish).

(** A character's program returns EXIT_SUCCESS when it got the block, both
    semaphores and its two handlers, and exits with EXIT_FAILURE otherwise
    (a refused handler for SIGINT is only reported); it enters its main loop
    in the first case only; and however it ends, its globals are left
    without a mapping or a semaphore. *)
Theorem worker_main_status :
  forall (r : role) (o : Connection),
  snd (run_main r o)
  = (if connected o then Returned EXIT_SUCCESS else Exited (Exit EXIT_FAILURE))
  /\ calls is_serve (fst (fst (run_main r o))) = Nat.b2n (connected o)
  /\ is_mapped (dungeon_ptr (snd (fst (run_main r o)))) = false
  /\ lever1_sem (snd (fst (run_main r o))) = SEM_FAILED
  /\ lever2_sem (snd (fst (run_main r o))) = SEM_FAILED.
Proof.
  intros r [fd mp lv sg]. run_worker.
  worker_paths r fd mp lv sg ltac:(known_fd; repeat apply conj; reflexivity).
Qed.

(** What a character's program got hold of it gives back, but not always
    once.  The mapping and each semaphore are released once, except when a
    [sigaction] for DUNGEON_SIGNAL or SEMAPHORE_SIGNAL fails: then [main]
    releases them and [error_exit] releases them again.  The descriptor is
    closed once by barbarian.c and wizard.c; rogue.c, which does not reset
    [shm_fd], closes it a second time on every failure after [shm_open].
    No other descriptor is closed. *)
Theorem worker_main_releases :
  forall (r : role) (o : Connection),
  let t := fst (fst (run_main r o)) in
  let times := if handler_refused o then 2%nat else 1%nat in
  calls is_munmap t = (if got_block o then times else 0%nat)
  /\ (forall l,
        calls (is_sem_close l) t = if got_lever o l then times else 0%nat)
  /\ filter is_any_close t
     = repeat (Close (opened_fd o))
         (if got_fd o then
            match r with
            | Rogue => if connected o then 1 else 2
            | Barbarian | Wizard => 1
            end
          else 0).
Proof.
  intros r [fd mp lv sg]. cbv zeta. run_worker.
  worker_paths r fd mp lv sg
    ltac:(known_fd; repeat apply conj; try reflexivity;
          intros []; reflexivity).
Qed.

End WorkersSpec.
